(** * feedback_observer_designer: the numeric design pipeline

    A shallow embedding of the numeric functions of the repository
    (requirements.py, poles.py, model.py, results.py, value_exchange.py)
    and the properties of them that the design document states.

    Numbers.  The program computes on Python floats and numpy float64
    values.  They are embedded as the real numbers [R]: the rounding of a
    result in its last digits and overflow are outside this development.
    What binary64 does differently from the reals at a point where the
    program's course or the kind of its result depends on it is kept:
    - Python's [/] raises [ZeroDivisionError] on a zero divisor ([py_div]);
      numpy's [/] and [np.sqrt] return a non-finite value there and only
      warn ([np_div], [np_sqrt]), and that value is not a real number
      ([NonFinite]);
    - [np.linalg.det] of an exactly singular array is the residue that the
      LU factorisation leaves, which need not be 0 ([Lapack]);
    - a product of two nonzero numbers is rounded to 0.0 when it is below
      the smallest binary64 number; a statement that depends on the
      product being nonzero assumes it is not that small
      ([smallest_binary64]).

    Symbols.  [calcK] builds two sympy expressions in the symbol [z] and
    reads their coefficients.  Both are expanded when they are read (the
    determinant of a sympy matrix and [as_poly().as_expr()] return expanded
    expressions), so an expression is embedded as the list of its
    coefficients, and a sympy number as a complex number.

    Control.  Exceptions are the [Raise] results of [result]; functions
    that also print thread the text written so far ([Py]).  Entry fields
    are passed by value: a function that writes fields returns them. *)

From Stdlib Require Import Reals Lra Lia.
From stdpp Require Import base list strings pretty.

Open Scope R_scope.

#[global] Instance R_eq_dec : EqDecision R := Req_dec_T.
#[global] Instance R_le_dec : RelDecision Rle := Rle_dec.

(** ** The Python runtime: exceptions, results, printing *)

Inductive exn : Type :=
  | ZeroDivisionError
  | ValueError
  | AttributeError
  | IndexError
  | TypeError
  | UnboundLocalError
  | LinAlgError
  | ShapeError.

Inductive result (A : Type) : Type :=
  | Ok (a : A)
  | Raise (e : exn).
Arguments Ok {A} a.
Arguments Raise {A} e.

#[global] Instance result_ret : MRet result := @Ok.
#[global] Instance result_bind : MBind result :=
  λ A B f m, match m with Ok a => f a | Raise e => Raise e end.

(** A computation that may raise and that reads and writes a state [St];
    the state reached when the exception is raised is kept. *)
Definition Py (St A : Type) : Type := St → result A * St.

#[global] Instance Py_ret {St} : MRet (Py St) := λ A a s, (Ok a, s).
#[global] Instance Py_bind {St} : MBind (Py St) :=
  λ A B f m s, match m s with
               | (Ok a, s') => f a s'
               | (Raise e, s') => (Raise e, s')
               end.

Definition lift {St A} (r : result A) : Py St A := λ s, (r, s).

(** [print(text)]: the state is the list of lines written, oldest first. *)
Definition print (text : string) : Py (list string) () :=
  λ out, (Ok (), out ++ [text]).

(** [for i in range(lo, hi): s = body(i, s)] *)
Definition for_range {St} (lo hi : nat) (body : nat → St → result St)
    (s : St) : result St :=
  foldl (λ acc i, acc ≫= body i) (Ok s) (seq lo (hi - lo)).

(** Python's true division on [float]/[int] operands. *)
Definition py_div (x y : R) : result R :=
  if decide (y = 0) then Raise ZeroDivisionError else Ok (x / y).

(** The results of numpy that are not numbers: [np.sqrt] of a negative
    number is nan, and a division by a zero [np.float64] is an infinity or
    nan.  [R] has no such values.  What stands for them is taken from
    outside and nothing is known of it: of a result it has entered, a
    statement below says at most that it has. *)
Class NonFinite : Type := {
  sqrt_of_negative : R → R;
  division_by_zero : R → R
}.

(** numpy's true division when an operand is a [np.float64]: a zero divisor
    gives a non-finite value and a warning, never an exception. *)
Definition np_div `{NonFinite} (x y : R) : R :=
  if decide (y = 0) then division_by_zero x else x / y.

(** The smallest positive binary64 number, 2^-1074.  The product of two
    binary64 numbers is rounded to 0.0 only if its exact value is below
    it. *)
Definition smallest_binary64 : R := / 2 ^ 1074.

(** [np.sqrt], [np.square], [np.exp], [np.cos], [np.sin], [np.pi]. *)
Definition np_sqrt `{NonFinite} (x : R) : R :=
  if decide (0 <= x) then sqrt x else sqrt_of_negative x.
Definition np_square (x : R) : R := x * x.
Definition np_exp (x : R) : R := exp x.
Definition np_cos (x : R) : R := cos x.
Definition np_sin (x : R) : R := sin x.
Definition np_pi : R := PI.

(** ** requirements.py *)

Module requirements.

(** The list [[w_n, zeta, t_s, t_r, t_p, w_d, sigma]] that
    [calcRequirements] takes and the tuple it returns. *)
Record Requirements : Type := mkReq {
  wn : R; zeta : R; ts : R; tr : R; tp : R; wd : R; sigma : R
}.

(** Lines 75-76, 78-79, 81-83 and 85-87: the four guarded derivations,
    each giving the new value of the variable it may assign. *)
Definition step_1 (ts sigma : R) : result R :=
  if negb (bool_decide (ts = 0)) && bool_decide (sigma = 0)
  then py_div 4 ts else Ok sigma.

Definition step_2 (tp wd : R) : result R :=
  if negb (bool_decide (tp = 0)) && bool_decide (wd = 0)
  then py_div np_pi tp else Ok wd.

Definition step_3 (wn zeta sigma : R) : result R :=
  if bool_decide (wn = 0) then
    if negb (bool_decide (sigma = 0)) then py_div sigma zeta else Ok wn
  else Ok wn.

Definition step_4 (wn zeta sigma : R) : result R :=
  if bool_decide (zeta = 0) then
    if negb (bool_decide (sigma = 0)) then py_div sigma wn else Ok zeta
  else Ok zeta.

Definition steps_1_4 (requirements : Requirements) : result Requirements :=
  let wn := wn requirements in
  let zeta := zeta requirements in
  let ts := ts requirements in
  let tr := tr requirements in
  let tp := tp requirements in
  let wd := wd requirements in
  let sigma := sigma requirements in
  sigma ← step_1 ts sigma;
  wd ← step_2 tp wd;
  wn ← step_3 wn zeta sigma;
  zeta ← step_4 wn zeta sigma;
  Ok (mkReq wn zeta ts tr tp wd sigma).

(** Lines 89-94: the recomputation from [wn] and [zeta]. [wd] is a
    [np.float64] from here on, so [np.pi/wd] is numpy's division.  The
    product [zeta*wn] is the exact one, which is not 0; binary64 rounds a
    product below [smallest_binary64] to 0.0, and [4/sigma] then raises. *)
Definition step_5 `{NonFinite} (r : Requirements)
  : result Requirements :=
  if negb (bool_decide (wn r = 0)) && negb (bool_decide (zeta r = 0)) then
    let sigma := zeta r * wn r in
    let wd := wn r * np_sqrt (1 - np_square (zeta r)) in
    ts ← py_div 4 sigma;
    let tp := np_div np_pi wd in
    tr ← py_div (18 / 10) (wn r);
    Ok (mkReq (wn r) (zeta r) ts tr tp wd sigma)
  else Ok r.

Definition calcRequirements `{NonFinite} (requirements : Requirements)
  : result Requirements :=
  steps_1_4 requirements ≫= step_5.

End requirements.

(** ** Scalars of the symbolic layer and matrices

    [results.py] computes on numpy arrays of floats and, in [calcK], on
    sympy objects: complex numbers (the unit [sp.I]) and polynomials in the
    symbol [z].  One interface serves the three scalar types. *)

Class RingOps (A : Type) : Type := {
  r0 : A;
  r1 : A;
  radd : A → A → A;
  rmul : A → A → A;
  ropp : A → A
}.

Definition rsub `{RingOps A} (x y : A) : A := radd x (ropp y).

#[global] Instance R_ring : RingOps R :=
  {| r0 := 0; r1 := 1; radd := Rplus; rmul := Rmult; ropp := Ropp |}.

(** A sympy number: real and imaginary part. *)
Record C : Type := mkC { Re : R; Im : R }.

Definition RtoC (x : R) : C := mkC x 0.
Definition Ci : C := mkC 0 1.

#[global] Instance C_ring : RingOps C :=
  {| r0 := mkC 0 0;
     r1 := mkC 1 0;
     radd := λ x y, mkC (Re x + Re y) (Im x + Im y);
     rmul := λ x y, mkC (Re x * Re y - Im x * Im y) (Re x * Im y + Im x * Re y);
     ropp := λ x, mkC (- Re x) (- Im x) |}.

(** [float(expr)] on a sympy number: a number with an imaginary part is
    refused. *)
Definition to_float (x : C) : result R :=
  if decide (Im x = 0) then Ok (Re x) else Raise TypeError.

(** A sympy expression in the one symbol [z], expanded: the list of its
    coefficients, constant term first. *)
Abbreviation poly A := (list A) (only parsing).

Section Poly.
Context `{RingOps A}.

Fixpoint padd (p q : poly A) : poly A :=
  match p, q with
  | [], _ => q
  | _, [] => p
  | a :: p', b :: q' => radd a b :: padd p' q'
  end.

Definition pscale (a : A) (p : poly A) : poly A := map (rmul a) p.

Fixpoint pmul (p q : poly A) : poly A :=
  match p with
  | [] => []
  | a :: p' => padd (pscale a q) (r0 :: pmul p' q)
  end.

Definition popp (p : poly A) : poly A := map ropp p.

(** [expr.coeff(z, i)] *)
Definition coeff (p : poly A) (i : nat) : A := nth i p r0.
End Poly.

#[global] Instance poly_ring `{RingOps A} : RingOps (poly A) :=
  {| r0 := []; r1 := [r1]; radd := padd; rmul := pmul; ropp := popp |}.

(** The symbol [z] and a number as an expression. *)
Definition sym_z : poly C := [r0; r1].
Definition sym_const (c : C) : poly C := [c].

(** Arrays of rank two, as the list of their rows. *)
Abbreviation matrix A := (list (list A)) (only parsing).

Section Matrix.
Context `{RingOps A}.

Definition rows (m : matrix A) : nat := length m.
Definition cols (m : matrix A) : nat :=
  match m with [] => 0%nat | r :: _ => length r end.

(** [rows] by [cols] and rectangular *)
Definition has_shape (r c : nat) (m : matrix A) : Prop :=
  length m = r ∧ Forall (λ row, length row = c) m.

Definition mzeros (r c : nat) : matrix A := replicate r (replicate c r0).

Definition meye (n : nat) : matrix A :=
  map (λ i, map (λ j, if (i =? j)%nat then r1 else r0) (seq 0 n)) (seq 0 n).

(** [m[i, j]] *)
Definition mget (m : matrix A) (i j : nat) : result A :=
  match m !! i ≫= (λ row, row !! j) with
  | Some x => Ok x
  | None => Raise IndexError
  end.

(** [m[i, j] = x] *)
Definition mset (m : matrix A) (i j : nat) (x : A) : result (matrix A) :=
  match m !! i with
  | Some row =>
      if (j <? length row)%nat then Ok (<[i := <[j := x]> row]> m)
      else Raise IndexError
  | None => Raise IndexError
  end.

(** Entry access for statements: [r0] outside the array. *)
Definition entry (m : matrix A) (i j : nat) : A := nth j (nth i m []) r0.

Definition madd (a b : matrix A) : matrix A := zip_with (zip_with radd) a b.
Definition mscale (x : A) (m : matrix A) : matrix A := map (map (rmul x)) m.
Definition msub (a b : matrix A) : matrix A := zip_with (zip_with rsub) a b.

Definition col (j : nat) (m : matrix A) : list A := map (λ row, nth j row r0) m.

Definition dot (u v : list A) : A := foldr radd r0 (zip_with rmul u v).

Definition mmul (a b : matrix A) : matrix A :=
  map (λ row, map (λ j, dot row (col j b)) (seq 0 (cols b))) a.

(** [m] multiplied [k] times; the empty product is the identity. *)
Fixpoint mpow (m : matrix A) (k : nat) : matrix A :=
  match k with
  | O => meye (rows m)
  | S k' => mmul (mpow m k') m
  end.

(** The matrix without row [i] and column [j]. *)
Definition minor (i j : nat) (m : matrix A) : matrix A :=
  map (delete j) (delete i m).

Definition signed (k : nat) (x : A) : A := if Nat.even k then x else ropp x.

(** Determinant by expansion along the first row; [n] is the order. *)
Fixpoint det_order (n : nat) (m : matrix A) : A :=
  match n with
  | O => r1
  | S n' =>
      match m with
      | [] => r1
      | row :: _ =>
          foldr radd r0
            (imap (λ j x, signed j (rmul x (det_order n' (minor 0 j m)))) row)
      end
  end.

Definition mdet (m : matrix A) : A := det_order (rows m) m.

(** Column [j] as an array of one column. *)
Definition column (j : nat) (m : matrix A) : matrix A :=
  map (λ row, [nth j row r0]) m.

(** The transposed matrix of cofactors. *)
Definition adjugate (m : matrix A) : matrix A :=
  map (λ i, map (λ j, signed (i + j) (mdet (minor j i m))) (seq 0 (rows m)))
      (seq 0 (rows m)).
End Matrix.

(** The sum of [f 0], ..., [f (n - 1)]. *)
Fixpoint sum_to (n : nat) (f : nat → R) : R :=
  match n with
  | O => 0
  | S n' => sum_to n' f + f n'
  end.

(** ** LAPACK's LU factorisation on an exactly singular array

    [np.linalg.det] and [np.linalg.inv] factor the array in binary64.  On a
    regular array the result is read as the exact one.  On an exactly
    singular array the product of the computed pivots is a rounding
    residue, in general not 0 ([[3,3],[5,5]] gives 2.2e-15), and as long
    as no pivot is exactly 0 [inv] returns an array and does not raise.
    Neither value is a function of the exact determinant: they are taken
    from the library.  An array of zeros is factored without rounding: its
    pivots are 0. *)
Class Lapack : Type := {
  lu_residue : matrix R → R;
  lu_inverse : matrix R → matrix R;
  lu_residue_zeros : ∀ r c, lu_residue (mzeros r c) = 0;
  lu_inverse_shape :
    ∀ n m, has_shape n n m → has_shape n n (lu_inverse m)
}.

(** ** numpy on arrays of floats: the operations that check shapes *)

Module np.

(** [np.matmul(a, b)]: the inner dimensions must agree. *)
Definition matmul (a b : matrix R) : result (matrix R) :=
  if (cols a =? rows b)%nat then Ok (mmul a b) else Raise ValueError.

(** [np.linalg.det(m)]: the product of the pivots; on an exactly singular
    array that is the residue. *)
Definition det `{Lapack} (m : matrix R) : result R :=
  if (rows m =? cols m)%nat then
    Ok (if decide (mdet m = 0) then lu_residue m else mdet m)
  else Raise LinAlgError.

(** [np.linalg.inv(m)]: the array is refused when a pivot is exactly 0. *)
Definition inv `{Lapack} (m : matrix R) : result (matrix R) :=
  if (rows m =? cols m)%nat then
    if decide (mdet m = 0) then
      if decide (lu_residue m = 0) then Raise LinAlgError
      else Ok (lu_inverse m)
    else Ok (mscale (/ mdet m) (adjugate m))
  else Raise LinAlgError.

(** Broadcasting of two extents: equal, or one of them 1. *)
Definition broadcast (a b : nat) : result nat :=
  if (a =? b)%nat then Ok a
  else if (a =? 1)%nat then Ok b
  else if (b =? 1)%nat then Ok a
  else Raise ValueError.

(** The entry of [m] that position [(i, j)] of the broadcast array reads. *)
Definition stretch (m : matrix R) (i j : nat) : R :=
  entry m (if (rows m =? 1)%nat then 0%nat else i)
          (if (cols m =? 1)%nat then 0%nat else j).

(** [a + b] on arrays. *)
Definition add (a b : matrix R) : result (matrix R) :=
  r ← broadcast (rows a) (rows b);
  c ← broadcast (cols a) (cols b);
  Ok (map (λ i, map (λ j, stretch a i j + stretch b i j) (seq 0 c)) (seq 0 r)).

(** [x * m] and [m * x] for a float [x]. *)
Definition scale (x : R) (m : matrix R) : matrix R := mscale x m.

End np.

(** ** results.py *)

(** What a result slot of [checkContr] and [checkObs] holds: an array, or
    the integer the singular branch puts there. *)
Inductive pyobj : Type :=
  | PyInt (n : Z)
  | PyArr (m : matrix R).

(** [[x, y] = values] and [[x, y, z] = values] *)
Definition unpack2 {A} (values : list A) : result (A * A) :=
  match values with
  | [x; y] => Ok (x, y)
  | _ => Raise ValueError
  end.

Definition unpack3 {A} (values : list A) : result (A * A * A) :=
  match values with
  | [x; y; z] => Ok (x, y, z)
  | _ => Raise ValueError
  end.

Module results.

(** The list [[F, g, c, d]] handed over by [getModel]. *)
Record Model : Type := mkModel {
  F : matrix R; g : matrix R; c : matrix R; d : R
}.

(** [m[k] = x] on a sympy matrix: one index counts the entries row by row. *)
Definition set_flat (m : matrix C) (k : nat) (x : C) : result (matrix C) :=
  if (cols m =? 0)%nat then Raise IndexError
  else mset m (k / cols m) (k mod cols m) x.

(** [z*Id - F_sym]: sympy refuses operands of different shapes. *)
Definition sym_sub (a b : matrix (poly C)) : result (matrix (poly C)) :=
  if (rows a =? rows b)%nat && (cols a =? cols b)%nat then Ok (msub a b)
  else Raise ShapeError.

(** [np.array(alpha).astype(np.float64)] *)
Definition astype_float (m : matrix C) : result (matrix R) :=
  mapM (M := result) (mapM (M := result) to_float) m.

(** The loop of lines 91-94 on the state [(a, alpha, k_c)]. *)
Definition coefficients (cl_eqn ol_eqn : poly C) (dim : nat)
    (st : matrix C * matrix C * matrix R)
  : result (matrix C * matrix C * matrix R) :=
  for_range 0 dim (λ i '(a, alpha, k_c),
    a ← set_flat a (dim - 1 - i) (coeff cl_eqn i);
    alpha ← set_flat alpha (dim - 1 - i) (coeff ol_eqn i);
    x ← mget a 0 (dim - 1 - i);
    y ← mget alpha 0 (dim - 1 - i);
    v ← to_float (rsub x y);
    k_c ← mset k_c 0 i v;
    Ok (a, alpha, k_c)) st.

(** The loops of lines 100-105. *)
Definition canonical (alpha : matrix R) (dim : nat) (U_c : matrix R)
  : result (matrix R) :=
  for_range 0 dim (λ i U_c,
    for_range 0 dim (λ j U_c,
      U_c ← (if (j <? dim - i - 1)%nat
             then x ← mget alpha 0 (dim - 2 - j - i); mset U_c i j x
             else Ok U_c);
      if (j =? dim - i - 1)%nat then mset U_c i j 1 else Ok U_c) U_c) U_c.

Definition calcK `{Lapack} (F : matrix R) (poles : R * R) (U : matrix R)
    (dim : nat) : result (matrix R * matrix R * matrix R) :=
  let z_sigma := poles.1 in
  let z_wd := poles.2 in
  let k_c := mzeros (A := R) 1 dim in
  let U_c := mzeros (A := R) dim dim in
  let a := mzeros (A := C) dim dim in
  let alpha := mzeros (A := C) dim dim in
  let z := sym_z in
  let F_sym := map (map (λ x, sym_const (RtoC x))) F in
  let Id := meye (A := poly C) dim in
  temp ← sym_sub (mscale z Id) F_sym;
  let ol_eqn := mdet temp in
  let cl_eqn :=
    rmul (rsub (rsub z (sym_const (RtoC z_sigma)))
               (sym_const (rmul Ci (RtoC z_wd))))
         (radd (rsub z (sym_const (RtoC z_sigma)))
               (sym_const (rmul Ci (RtoC z_wd)))) in
  '(a, alpha, k_c) ← coefficients cl_eqn ol_eqn dim (a, alpha, k_c);
  alpha ← astype_float alpha;
  U_c ← canonical alpha dim U_c;
  P ← np.matmul U U_c;
  P_inv ← np.inv P;
  k ← np.matmul k_c P_inv;
  Ok (k, k_c, P).

(** Lines 143-160 of [checkContr]: the controllability matrix. *)
Definition checkContr_U (F g : matrix R) (dim : nat) : result (matrix R) :=
  let U := mzeros (A := R) dim dim in
  U ← for_range 0 dim (λ j U, x ← mget g j 0; mset U j 0 x) U;
  for_range 1 dim (λ i U,
    F_new ← for_range 1 i (λ j F_new, np.matmul F_new F) F;
    temp ← np.matmul F_new g;
    for_range 0 dim (λ j U, x ← mget temp j 0; mset U j i x) U) U.

Definition checkContr `{Lapack} (model : Model) (poles : R * R) (dim : nat)
  : Py (list string) (pyobj * pyobj * pyobj * R) :=
  let F := F model in
  let g := g model in
  U ← lift (checkContr_U F g dim);
  detU ← lift (np.det U);
  '(k, k_c, P) ←
    (if negb (bool_decide (detU = 0)) then
       '(k, k_c, P) ← lift (calcK F poles U dim);
       lift (unpack3 [PyArr k; PyArr k_c; PyArr P])
     else
       _ ← print "system not controlable";
       lift (unpack3 [PyInt 0; PyInt 0; PyInt 0]));
  mret (k, k_c, P, detU).

Definition calcM (model : Model) (poles : R * R) (V : matrix R)
  : Py (list string) (pyobj * pyobj) :=
  _ ← print "function not yet implemented";
  let m_c := PyArr [[1]; [1]] in
  let m_p := PyArr [[2]; [2]] in
  mret (m_c, m_p).

(** Lines 240-256 of [checkObs]: the observability matrix. *)
Definition checkObs_V (F c : matrix R) (dim : nat) : result (matrix R) :=
  let V := mzeros (A := R) dim dim in
  V ← for_range 0 dim (λ j V, x ← mget c 0 j; mset V 0 j x) V;
  for_range 1 dim (λ i V,
    F_new ← for_range 1 i (λ j F_new, np.matmul F_new F) F;
    temp ← np.matmul c F_new;
    for_range 0 dim (λ j V, x ← mget temp 0 j; mset V i j x) V) V.

Definition checkObs `{Lapack} (model : Model) (poles : R * R) (dim : nat)
  : Py (list string) (pyobj * pyobj * R) :=
  let F := F model in
  let c := c model in
  V ← lift (checkObs_V F c dim);
  detV ← lift (np.det V);
  '(mc, mp) ←
    (if negb (bool_decide (detV = 0)) then
       '(mc, mp) ← calcM model poles V;
       lift (unpack2 [mc; mp])
     else
       _ ← print "system not observable";
       lift (unpack2 [PyInt 0; PyInt 0; PyInt 0]));
  mret (mc, mp, detV).

End results.

(** ** Text and numbers

    [float(text)] and the text Tk shows for a float are Python's and Tk's
    own; the pipeline only relies on [float] raising [ValueError] on text
    that is not a number. *)
Class Builtins : Type := {
  float : string → result R;
  str : R → string
}.

(** A [ttk.Entry]: the text it holds. *)
Record Entry : Type := mkEntry { text : string }.

(** [e.get()], [e.delete(0, tk.END)], [e.insert(0, s)] *)
Definition Entry_get (e : Entry) : string := text e.
Definition Entry_delete (e : Entry) : Entry := mkEntry "".
Definition Entry_insert (s : string) (e : Entry) : Entry :=
  mkEntry (s ++ text e).

(** [l[i]] on a Python list *)
Definition index {A} (l : list A) (i : nat) : result A :=
  match l !! i with
  | Some x => Ok x
  | None => Raise IndexError
  end.

(** ** value_exchange.py *)

(** What an attribute of the store can hold: the setters store whatever
    they are given. *)
Inductive pyval : Type :=
  | VInt (n : Z)
  | VFloat (x : R)
  | VStr (s : string).

Module value_exchange.

Record ValueExchange : Type := mkValueExchange {
  sigma : pyval;
  wd : pyval;
  z_sigma : pyval;
  z_wd : pyval;
  T : pyval;
  F : matrix R;
  g : matrix R;
  c : matrix R;
  d : pyval;
  dim : nat
}.

Definition setRequirements (sigma wd : pyval) : Py ValueExchange () :=
  λ self, (Ok (), mkValueExchange sigma wd (z_sigma self) (z_wd self) (T self)
                    (F self) (g self) (c self) (d self) (dim self)).

Definition getRequirements : Py ValueExchange (pyval * pyval) :=
  λ self, (Ok (sigma self, wd self), self).

Definition setPoles (z_sigma z_wd T : pyval) : Py ValueExchange () :=
  λ self, (Ok (), mkValueExchange (sigma self) (wd self) z_sigma z_wd T
                    (F self) (g self) (c self) (d self) (dim self)).

Definition getPoles : Py ValueExchange (pyval * pyval * pyval) :=
  λ self, (Ok (z_sigma self, z_wd self, T self), self).

Definition setModel (F g c : matrix R) (d : pyval) : Py ValueExchange () :=
  λ self, (Ok (), mkValueExchange (sigma self) (wd self) (z_sigma self)
                    (z_wd self) (T self) F g c d (dim self)).

Definition getModel : Py ValueExchange (matrix R * matrix R * matrix R * pyval) :=
  λ self, (Ok (F self, g self, c self, d self), self).

Definition setSize (dim : nat) : Py ValueExchange () :=
  λ self, (Ok (), mkValueExchange (sigma self) (wd self) (z_sigma self)
                    (z_wd self) (T self) (F self) (g self) (c self) (d self) dim).

Definition getSize : Py ValueExchange nat :=
  λ self, (Ok (dim self), self).

End value_exchange.

(** ** poles.py *)

Module poles.
Import value_exchange.

Definition calcPoles (s_sigma s_wd T : R) : R * R :=
  let z_sigma := np_exp (s_sigma * T) * np_cos (s_wd * T) in
  let z_wd := np_exp (s_sigma * T) * np_sin (s_wd * T) in
  (z_sigma, z_wd).

Definition readZPoles (z_entries : list Entry) (e_T : Entry)
  : Py ValueExchange () :=
  e0 ← lift (index z_entries 0);
  let z_sigma := Entry_get e0 in
  e1 ← lift (index z_entries 1);
  let z_wd := Entry_get e1 in
  let T := Entry_get e_T in
  setPoles (VStr z_sigma) (VStr z_wd) (VStr T).

(** The entries are changed in place; the changed list is returned. *)
Definition clearPoles (z_entries : list Entry) (T : pyval)
  : Py ValueExchange (list Entry) :=
  e0 ← lift (index z_entries 0);
  let z_entries := <[0%nat := Entry_delete e0]> z_entries in
  e1 ← lift (index z_entries 1);
  let z_entries := <[1%nat := Entry_delete e1]> z_entries in
  _ ← setPoles (VInt 0) (VInt 0) T;
  mret z_entries.

Section WithBuiltins.
Context `{Builtins}.

Definition readPoles (s_entries : list Entry) (e_T : Entry)
  : result (R * R * R) :=
  e0 ← index s_entries 0;
  s_sigma ← float (Entry_get e0);
  e1 ← index s_entries 1;
  s_wd ← float (Entry_get e1);
  T ← float (Entry_get e_T);
  Ok (s_sigma, s_wd, T).

Definition processPoles (z_entries s_entries : list Entry) (e_T : Entry)
  : Py ValueExchange (list Entry) :=
  '(s_sigma, s_wd, T) ← lift (readPoles s_entries e_T);
  z_entries ← clearPoles z_entries (VFloat T);
  let '(z_sigma, z_wd) := calcPoles s_sigma s_wd T in
  e0 ← lift (index z_entries 0);
  let z_entries := <[0%nat := Entry_insert (str z_sigma) e0]> z_entries in
  e1 ← lift (index z_entries 1);
  let z_entries := <[1%nat := Entry_insert (str z_wd) e1]> z_entries in
  _ ← setPoles (VFloat z_sigma) (VFloat z_wd) (VFloat T);
  mret z_entries.
End WithBuiltins.

End poles.

(** ** model.py *)

(** An element of the lists [cont_entries] and [disc_entries]: a single
    entry field ([e_d]) or a numpy array of entry fields. *)
Inductive widget : Type :=
  | WEntry (e : Entry)
  | WGrid (m : list (list Entry)).

(** [w.get()]: an array of entry fields has no such method. *)
Definition widget_get (w : widget) : result string :=
  match w with
  | WEntry e => Ok (Entry_get e)
  | WGrid _ => Raise AttributeError
  end.

(** [w[i, j]]: a single entry field cannot be indexed by a pair. *)
Definition widget_at (w : widget) (i j : nat) : result Entry :=
  match w with
  | WGrid m => match m !! i ≫= (λ row, row !! j) with
               | Some e => Ok e
               | None => Raise IndexError
               end
  | WEntry _ => Raise TypeError
  end.

(** The field [w[i, j]] changed in place by [f]. *)
Definition widget_update (w : widget) (i j : nat) (f : Entry → Entry)
  : result widget :=
  e ← widget_at w i j;
  match w with
  | WGrid m => Ok (WGrid (alter (alter (λ _, f e) j) i m))
  | WEntry _ => Raise TypeError
  end.

(** A stored scalar used in arithmetic with an array: text is refused. *)
Definition number (v : pyval) : result R :=
  match v with
  | VInt n => Ok (IZR n)
  | VFloat x => Ok x
  | VStr _ => Raise TypeError
  end.

Module model.
Import value_exchange.

Section WithBuiltins.
Context `{Builtins}.

(** The four values [(A, b, c, d)] or [(F, g, c, d)]. *)
Definition values : Type := matrix R * matrix R * matrix R * R.

(** Only [e_F] and [e_g] are written; they are not among the fields that
    [cont_entries] shares with [disc_entries]. The changed list is
    returned. *)
Definition writeDisc (disc_val : values) (dim : nat)
    (disc_entries : list widget) : result (list widget) :=
  e_F ← index disc_entries 0;
  e_g ← index disc_entries 1;
  let '(F, g, _, _) := disc_val in
  '(e_F, e_g) ← for_range 0 dim (λ r '(e_F, e_g),
    e_g ← widget_update e_g r 0 Entry_delete;
    x ← mget g r 0;
    e_g ← widget_update e_g r 0 (Entry_insert (str x));
    e_F ← for_range 0 dim (λ col e_F,
      e_F ← widget_update e_F r col Entry_delete;
      x ← mget F r col;
      widget_update e_F r col (Entry_insert (str x))) e_F;
    Ok (e_F, e_g)) (e_F, e_g);
  Ok (<[1%nat := e_g]> (<[0%nat := e_F]> disc_entries)).

(** [np.empty] leaves the entries unset; every one of them is assigned
    before the arrays are returned. *)
Definition readCont (cont_entries : list widget) (dim : nat)
  : result values :=
  e_A ← index cont_entries 0;
  e_b ← index cont_entries 1;
  e_c ← index cont_entries 2;
  e_d ← index cont_entries 3;
  let A := mzeros (A := R) dim dim in
  let b := mzeros (A := R) dim 1 in
  let c := mzeros (A := R) 1 dim in
  d ← widget_get e_d ≫= float;
  '(A, b, c) ← for_range 0 dim (λ r '(A, b, c),
    x ← widget_at e_b r 0 ≫= (λ e, float (Entry_get e));
    b ← mset b r 0 x;
    x ← widget_at e_c 0 r ≫= (λ e, float (Entry_get e));
    c ← mset c 0 r x;
    A ← for_range 0 dim (λ col A,
      x ← widget_at e_A r col ≫= (λ e, float (Entry_get e));
      mset A r col x) A;
    Ok (A, b, c)) (A, b, c);
  Ok (A, b, c, d).

Definition calcDisc (cont_val : values) (T : R) (dim : nat) : result values :=
  let '(A, b, c, d) := cont_val in
  let Im := meye (A := R) dim in
  s ← np.add Im (np.scale T A);
  AT2 ← np.matmul (np.scale T A) (np.scale T A);
  F ← np.add s (np.scale (1 / 2) AT2);
  s ← np.add Im (np.scale T (np.scale (1 / 2) A));
  AT2 ← np.matmul (np.scale T A) (np.scale T A);
  psi ← np.add s (np.scale (1 / 6) AT2);
  g ← np.matmul psi b;
  let g := np.scale T g in
  Ok (F, g, c, d).

Definition readDisc (disc_entries : list widget) (dim : nat)
  : result values :=
  e_F ← index disc_entries 0;
  e_g ← index disc_entries 1;
  e_c ← index disc_entries 3;
  e_d ← index disc_entries 0;
  let F := mzeros (A := R) dim dim in
  let g := mzeros (A := R) dim 1 in
  let c := mzeros (A := R) 1 dim in
  d ← widget_get e_d ≫= float;
  '(F, g, c) ← for_range 0 dim (λ r '(F, g, c),
    x ← widget_at e_g r 0 ≫= (λ e, float (Entry_get e));
    g ← mset g r 0 x;
    x ← widget_at e_c 0 r ≫= (λ e, float (Entry_get e));
    c ← mset c 0 r x;
    F ← for_range 0 dim (λ col F,
      x ← widget_at e_F r col ≫= (λ e, float (Entry_get e));
      mset F r col x) F;
    Ok (F, g, c)) (F, g, c);
  Ok (F, g, c, d).

(** [v] is the value of the radio group; [disc_val] is unbound until one
    of the two branches assigns it.  The sample time is whatever the
    store holds: [calcDisc] multiplies an array by it. *)
Definition calcModel (v : Z) (cont_entries disc_entries : list widget)
    (dim : nat) : Py ValueExchange (list widget) :=
  '(disc_val, disc_entries) ←
    (if (v =? 2)%Z then
       '(_, _, T) ← getPoles;
       cont_val ← lift (readCont cont_entries dim);
       disc_val ← lift (T ← number T; calcDisc cont_val T dim);
       disc_entries ← lift (writeDisc disc_val dim disc_entries);
       mret (Some disc_val, disc_entries)
     else mret (None, disc_entries));
  disc_val ←
    (if (v =? 1)%Z then
       disc_val ← lift (readDisc disc_entries dim);
       mret (Some disc_val)
     else mret disc_val);
  match disc_val with
  | None => lift (Raise UnboundLocalError)
  | Some (F, g, c, d) =>
      _ ← setModel F g c (VFloat d);
      mret disc_entries
  end.
End WithBuiltins.

End model.

(** ** The formulas of the design document

    The series that the Discretizer is specified by, in the words of the
    design document: F = I + AT + (1/2)(AT)^2,
    psi = I + (1/2)AT + (1/6)(AT)^2 and g = T psi b. *)
Module design.

Definition series_F (n : nat) (A : matrix R) (T : R) : matrix R :=
  madd (madd (meye n) (mscale T A))
       (mscale (1 / 2) (mmul (mscale T A) (mscale T A))).

Definition series_psi (n : nat) (A : matrix R) (T : R) : matrix R :=
  madd (madd (meye n) (mscale (1 / 2) (mscale T A)))
       (mscale (1 / 6) (mmul (mscale T A) (mscale T A))).

Definition series_g (n : nat) (A b : matrix R) (T : R) : matrix R :=
  mscale T (mmul (series_psi n A T) b).

End design.

(** A reading of [float] and [str] on which statements can be tried: it
    knows the texts "0" and "1". *)
Definition sample_builtins : Builtins :=
  {| float := λ s, if String.eqb s "0" then Ok 0
                   else if String.eqb s "1" then Ok 1
                   else Raise ValueError;
     str := λ _, "" |}.

(** Stand-ins on which statements can be tried. *)
Definition sample_nonfinite : NonFinite :=
  {| sqrt_of_negative := λ _, 0; division_by_zero := λ _, 0 |}.

(** A reading of LAPACK on which statements can be tried: a residue is
    left on every singular array that is not zero throughout. *)
Definition rounding_lapack : Lapack :=
  {| lu_residue := λ m,
       if decide (Forall (Forall (λ x, x = 0)) m) then 0 else 1;
     lu_inverse := λ m, m;
     lu_residue_zeros :=
       ltac:(intros r c; cbv beta; case_decide as Hn; [reflexivity |];
             exfalso; apply Hn; unfold mzeros;
             apply Forall_replicate, Forall_replicate; reflexivity);
     lu_inverse_shape := λ _ _ Hm, Hm |}.

(** ** The other functions on entry fields

    [readRequirements] and [clearRequirements] of requirements.py and
    [readPolesFromReq] of poles.py. *)

(** A text as a condition: the empty text is false. *)
Definition truthy (s : string) : bool :=
  match s with
  | EmptyString => false
  | String _ _ => true
  end.

(** The text an entry field receives from [insert(0, v)]: an integer in
    decimal digits. *)
Definition shown `{Builtins} (v : pyval) : string :=
  match v with
  | VInt n => pretty n
  | VFloat x => str x
  | VStr s => s
  end.

(** [-v]: text has no negative. *)
Definition py_neg (v : pyval) : result pyval :=
  match v with
  | VInt n => Ok (VInt (- n))
  | VFloat x => Ok (VFloat (- x))
  | VStr _ => Raise TypeError
  end.

Module requirements_fields.
Import requirements value_exchange.

(** [if e.get(): x = float(e.get())] *)
Definition read_field `{Builtins} (e : Entry) (x : R) : result R :=
  if truthy (Entry_get e) then float (Entry_get e) else Ok x.

(** An unset value is the integer 0; it is the real number 0 here. *)
Definition readRequirements `{Builtins} (entries : list Entry)
  : result Requirements :=
  e_wn ← index entries 0;
  e_zeta ← index entries 1;
  e_ts ← index entries 2;
  e_tr ← index entries 3;
  e_tp ← index entries 4;
  e_wd ← index entries 5;
  e_sigma ← index entries 6;
  let wn := 0 in
  let zeta := 0 in
  let ts := 0 in
  let tr := 0 in
  let tp := 0 in
  let wd := 0 in
  let sigma := 0 in
  tr ← read_field e_tr tr;
  wn ← read_field e_wn wn;
  zeta ← read_field e_zeta zeta;
  ts ← read_field e_ts ts;
  tp ← read_field e_tp tp;
  wd ← read_field e_wd wd;
  sigma ← read_field e_sigma sigma;
  Ok (mkReq wn zeta ts tr tp wd sigma).

(** The fields are emptied in place; the changed list is returned. *)
Definition clearRequirements (entries : list Entry)
  : Py ValueExchange (list Entry) :=
  entries ← lift (for_range 0 (length entries) (λ i entries,
               e ← index entries i;
               Ok (<[i := Entry_delete e]> entries)) entries);
  _ ← setRequirements (VInt 0) (VInt 0);
  mret entries.

End requirements_fields.

Module poles_fields.
Import value_exchange.

(** The fields are written in place, before what they hold; the changed
    list is returned. *)
Definition readPolesFromReq `{Builtins} (s_entries : list Entry)
  : Py ValueExchange (list Entry) :=
  '(s_sigma, s_wd) ← getRequirements;
  s_sigma ← lift (py_neg s_sigma);
  e0 ← lift (index s_entries 0);
  let s_entries := <[0%nat := Entry_insert (shown s_sigma) e0]> s_entries in
  e1 ← lift (index s_entries 1);
  let s_entries := <[1%nat := Entry_insert (shown s_wd) e1]> s_entries in
  mret s_entries.

End poles_fields.

(** What [readRequirements] takes a field for: 0 if it is empty, else the
    number that [float] reads. *)
Definition field_value `{Builtins} (e : Entry) (x : R) : Prop :=
  (text e = "" ∧ x = 0) ∨ (text e ≠ "" ∧ float (text e) = Ok x).

(** * Properties *)

(** One step of a sequence of statements. *)
Ltac simpl_bind := cbn [mbind result_bind].

(** Case analysis on the comparisons of indices in the goal. *)
Ltac case_nat_tests :=
  repeat match goal with
    | |- context [(?a <=? ?b)%nat] => destruct (Nat.leb_spec a b)
    | |- context [(?a <? ?b)%nat] => destruct (Nat.ltb_spec a b)
    | |- context [(?a =? ?b)%nat] => destruct (Nat.eqb_spec a b)
    end;
  cbn [andb orb negb]; try done.

(** ** Results and decisions on reals *)

Lemma py_div_ok (x y : R) : y ≠ 0 → py_div x y = Ok (x / y).
Proof. intros Hy. unfold py_div. by rewrite decide_False. Qed.

Lemma py_div_zero (x : R) : py_div x 0 = Raise ZeroDivisionError.
Proof. unfold py_div. by rewrite decide_True. Qed.

Lemma to_float_real (x : C) : Im x = 0 → to_float x = Ok (Re x).
Proof. intros Hx. unfold to_float. by rewrite decide_True. Qed.

Lemma C_eq (x y : C) : Re x = Re y → Im x = Im y → x = y.
Proof. destruct x, y. simpl. by intros -> ->. Qed.

Lemma bind_Ok {A B} (m : result A) (f : A → result B) (b : B) :
  m ≫= f = Ok b → ∃ a, m = Ok a ∧ f a = Ok b.
Proof. destruct m as [a | e]; simpl; [by eauto | done]. Qed.

(** ** Loops *)

Section Loops.
Context {St : Type}.
Implicit Types (body : nat → St → result St) (s : St).

Lemma for_range_empty lo hi body s :
  (hi ≤ lo)%nat → for_range lo hi body s = Ok s.
Proof.
  intros Hle. unfold for_range.
  by replace (hi - lo)%nat with 0%nat by lia.
Qed.

Lemma for_range_last lo hi body s :
  (lo ≤ hi)%nat →
  for_range lo (S hi) body s = for_range lo hi body s ≫= body hi.
Proof.
  intros Hle. unfold for_range.
  replace (S hi - lo)%nat with (S (hi - lo)) by lia.
  rewrite seq_S, foldl_app. simpl.
  by replace (lo + (hi - lo))%nat with hi by lia.
Qed.

(** The loop rule: an invariant indexed by the next value of the loop
    variable. *)
Lemma for_range_invariant (I : nat → St → Prop) lo hi body s :
  (lo ≤ hi)%nat → I lo s →
  (∀ i t, (lo ≤ i < hi)%nat → I i t → ∃ t', body i t = Ok t' ∧ I (S i) t') →
  ∃ s', for_range lo hi body s = Ok s' ∧ I hi s'.
Proof.
  intros Hle Hlo Hstep. induction hi as [| hi IH].
  - assert (lo = 0%nat) as -> by lia. exists s. by rewrite for_range_empty.
  - destruct (decide (lo = S hi)) as [-> | Hne].
    + exists s. by rewrite for_range_empty.
    + destruct IH as (t & Ht & HI); [lia | intros; apply Hstep; [lia | done] |].
      destruct (Hstep hi t) as (t' & Hbody & HI'); [lia | done |].
      exists t'. rewrite for_range_last by lia. rewrite Ht. simpl. done.
Qed.

(** What every iteration that returns keeps, the loop keeps. *)
Lemma for_range_preserves (P : St → Prop) lo hi body s s' :
  P s → (∀ i t t', P t → body i t = Ok t' → P t') →
  for_range lo hi body s = Ok s' → P s'.
Proof.
  intros Hs Hstep. unfold for_range.
  generalize (seq lo (hi - lo)). intros l. revert s Hs.
  induction l as [| i l IH]; intros s Hs; simpl.
  - by intros [= <-].
  - destruct (body i s) as [t | e] eqn:Hbody.
    + simpl. apply IH. by eapply Hstep.
    + simpl. clear. induction l; simpl; [done | done].
Qed.
End Loops.

(** ** Shapes and entries of arrays *)

Section Shapes.
Context `{RingOps A}.
Implicit Types (m : matrix A) (x : A).

Lemma has_shape_mzeros r c : has_shape r c (mzeros (A := A) r c).
Proof.
  unfold has_shape, mzeros. split; [by rewrite length_replicate |].
  apply Forall_replicate. by rewrite length_replicate.
Qed.

Lemma has_shape_row r c m i row :
  has_shape r c m → m !! i = Some row → length row = c.
Proof. intros [_ Hrows] Hi. by eapply (Forall_lookup_1 _ _ _ _ Hrows). Qed.

Lemma has_shape_cols r c m : has_shape r c m → (0 < r)%nat → cols m = c.
Proof.
  intros [Hlen Hrows] Hr. destruct m as [| row m]; simpl in *; [lia |].
  by inversion Hrows.
Qed.

Lemma has_shape_rows r c m : has_shape r c m → rows m = r.
Proof. by intros [Hlen _]. Qed.

Lemma mget_entry r c m i j :
  has_shape r c m → (i < r)%nat → (j < c)%nat →
  mget m i j = Ok (entry m i j).
Proof.
  intros Hm Hi Hj. unfold mget, entry.
  destruct (lookup_lt_is_Some_2 m i) as [row Hrow]; [destruct Hm; lia |].
  pose proof (has_shape_row _ _ _ _ _ Hm Hrow) as Hlen.
  destruct (lookup_lt_is_Some_2 row j) as [x Hx]; [lia |].
  rewrite Hrow. simpl. rewrite Hx.
  by rewrite (nth_lookup_Some _ _ _ _ Hrow), (nth_lookup_Some _ _ _ _ Hx).
Qed.

Lemma mset_has_shape r c m i j x m' :
  has_shape r c m → mset m i j x = Ok m' → has_shape r c m'.
Proof.
  intros [Hlen Hrows] Hset. unfold mset in Hset.
  destruct (m !! i) as [row |] eqn:Hrow; [| done].
  destruct (j <? length row)%nat; [| done]. injection Hset as <-.
  split; [by rewrite length_insert |].
  apply Forall_insert; [done |]. rewrite length_insert.
  by eapply (Forall_lookup_1 _ _ _ _ Hrows).
Qed.

Lemma mset_entry r c m i j x :
  has_shape r c m → (i < r)%nat → (j < c)%nat →
  ∃ m', mset m i j x = Ok m' ∧ has_shape r c m'
    ∧ ∀ i' j', entry m' i' j' =
               if (i' =? i)%nat && (j' =? j)%nat then x else entry m i' j'.
Proof.
  intros Hm Hi Hj.
  destruct (lookup_lt_is_Some_2 m i) as [row Hrow]; [destruct Hm; lia |].
  pose proof (has_shape_row _ _ _ _ _ Hm Hrow) as Hlen.
  assert (Hset : mset m i j x = Ok (<[i := <[j := x]> row]> m)).
  { unfold mset. rewrite Hrow.
    by destruct (Nat.ltb_spec j (length row)); [| lia]. }
  eexists. split; [exact Hset |]. split; [by eapply mset_has_shape |].
  intros i' j'. unfold entry.
  destruct (Nat.eqb_spec i' i) as [-> | Hne]; simpl.
  - rewrite (nth_lookup_Some _ _ _ (<[j := x]> row)).
    2: { apply list_lookup_insert_eq. destruct Hm; lia. }
    destruct (Nat.eqb_spec j' j) as [-> | Hne].
    + apply (nth_lookup_Some _ _ _ x). apply list_lookup_insert_eq. lia.
    + rewrite (nth_lookup_Some _ _ _ _ Hrow).
      rewrite !nth_lookup. by rewrite list_lookup_insert_ne.
  - rewrite !(nth_lookup _ i'). by rewrite list_lookup_insert_ne.
Qed.

(** Two arrays of one shape with the same entries are the same array. *)
Lemma matrix_ext r c (a b : matrix A) :
  has_shape r c a → has_shape r c b →
  (∀ i j, (i < r)%nat → (j < c)%nat → entry a i j = entry b i j) → a = b.
Proof.
  intros Ha Hb Hent. apply list_eq_same_length with r;
    [by destruct Hb | by destruct Ha |].
  intros i ra rb Hi Hra Hrb.
  apply list_eq_same_length with c;
    [exact (has_shape_row _ _ _ _ _ Hb Hrb)
    | exact (has_shape_row _ _ _ _ _ Ha Hra) |].
  intros j x y Hj Hx Hy.
  specialize (Hent i j Hi Hj). unfold entry in Hent.
  by rewrite (nth_lookup_Some _ _ _ _ Hra), (nth_lookup_Some _ _ _ _ Hx),
    (nth_lookup_Some _ _ _ _ Hrb), (nth_lookup_Some _ _ _ _ Hy) in Hent.
Qed.
End Shapes.

(** ** The loops that copy a vector into a column or a row *)

Section Fill.
Context `{RingOps A}.

(** [for j in range(0, n): U[j, i] = temp[j, 0]] *)
Lemma fill_column (temp U : matrix A) (n c i : nat) :
  has_shape n c temp → (0 < c)%nat → has_shape n n U → (i < n)%nat →
  ∃ U', for_range 0 n (λ j U, x ← mget temp j 0; mset U j i x) U = Ok U'
    ∧ has_shape n n U'
    ∧ ∀ j k, entry U' j k =
             if (k =? i)%nat && (j <? n)%nat then entry temp j 0
             else entry U j k.
Proof.
  intros Htemp Hc HU Hi.
  apply (for_range_invariant
    (λ m U', has_shape n n U'
       ∧ ∀ j k, entry U' j k =
                if (k =? i)%nat && (j <? m)%nat then entry temp j 0
                else entry U j k)); [lia | |].
  - split; [done |]. intros j k.
    by rewrite andb_false_r.
  - intros m U' Hm (HU' & Hent).
    rewrite (mget_entry n c) by (done || lia). simpl.
    destruct (mset_entry n n U' m i (entry temp m 0) HU')
      as (U'' & -> & HU'' & Hent''); [lia | done |].
    exists U''. split; [done |]. split; [done |].
    intros j k. rewrite Hent'', Hent.
    destruct (Nat.eqb_spec j m) as [-> | Hjm];
      destruct (Nat.eqb_spec k i) as [-> | Hki]; simpl; try done.
    + by destruct (Nat.ltb_spec m (S m)); [| lia].
    + destruct (Nat.ltb_spec j m), (Nat.ltb_spec j (S m)); done || lia.
Qed.

(** [for j in range(0, n): V[i, j] = temp[0, j]] *)
Lemma fill_row (temp V : matrix A) (n r i : nat) :
  has_shape r n temp → (0 < r)%nat → has_shape n n V → (i < n)%nat →
  ∃ V', for_range 0 n (λ j V, x ← mget temp 0 j; mset V i j x) V = Ok V'
    ∧ has_shape n n V'
    ∧ ∀ k j, entry V' k j =
             if (k =? i)%nat && (j <? n)%nat then entry temp 0 j
             else entry V k j.
Proof.
  intros Htemp Hr HV Hi.
  apply (for_range_invariant
    (λ m V', has_shape n n V'
       ∧ ∀ k j, entry V' k j =
                if (k =? i)%nat && (j <? m)%nat then entry temp 0 j
                else entry V k j)); [lia | |].
  - split; [done |]. intros k j.
    by rewrite andb_false_r.
  - intros m V' Hm (HV' & Hent).
    rewrite (mget_entry r n) by (done || lia). simpl.
    destruct (mset_entry n n V' i m (entry temp 0 m) HV')
      as (V'' & -> & HV'' & Hent''); [done | lia |].
    exists V''. split; [done |]. split; [done |].
    intros k j. rewrite Hent'', Hent.
    destruct (Nat.eqb_spec k i) as [-> | Hki];
      destruct (Nat.eqb_spec j m) as [-> | Hjm]; simpl; try done.
    + by destruct (Nat.ltb_spec m (S m)); [| lia].
    + destruct (Nat.ltb_spec j m), (Nat.ltb_spec j (S m)); done || lia.
Qed.
End Fill.

(** ** The matrix product *)

Section Products.
Context `{RingOps A}.

Lemma mmul_rows (a b : matrix A) : rows (mmul a b) = rows a.
Proof. unfold rows, mmul. by rewrite length_map. Qed.

Lemma has_shape_mmul n k m (a b : matrix A) :
  has_shape n k a → has_shape k m b → (0 < k)%nat →
  has_shape n m (mmul a b).
Proof.
  intros [Ha _] Hb Hk. split; [by rewrite <- Ha; apply mmul_rows |].
  unfold mmul. apply Forall_map, Forall_forall. intros row _. simpl.
  rewrite length_map, length_seq. by apply (has_shape_cols k).
Qed.

Lemma nth_map_seq {B} (f : nat → B) (n i : nat) (d : B) :
  (i < n)%nat → nth i (map f (seq 0 n)) d = f i.
Proof.
  intros Hi. apply nth_lookup_Some.
  rewrite list_lookup_fmap, lookup_seq_lt by done. done.
Qed.

Lemma mmul_entry (a b : matrix A) i j :
  (i < rows a)%nat → (j < cols b)%nat →
  entry (mmul a b) i j = dot (nth i a []) (col j b).
Proof.
  intros Hi Hj. unfold entry, mmul.
  destruct (lookup_lt_is_Some_2 a i Hi) as [row Hrow].
  rewrite (nth_lookup_Some _ _ _ (map (λ j, dot row (col j b)) (seq 0 (cols b)))).
  2: { by rewrite list_lookup_fmap, Hrow. }
  rewrite nth_map_seq by done. by rewrite (nth_lookup_Some _ _ _ _ Hrow).
Qed.

Lemma col_length (j : nat) (m : matrix A) : length (col j m) = rows m.
Proof. unfold col, rows. by rewrite length_map. Qed.

Lemma col_nth (j i : nat) (m : matrix A) :
  (i < rows m)%nat → nth i (col j m) r0 = entry m i j.
Proof.
  intros Hi. unfold col, entry.
  destruct (lookup_lt_is_Some_2 m i Hi) as [row Hrow].
  rewrite (nth_lookup_Some _ _ _ (nth j row r0)).
  2: { by rewrite list_lookup_fmap, Hrow. }
  by rewrite (nth_lookup_Some _ _ _ _ Hrow).
Qed.

Lemma has_shape_meye n : has_shape n n (meye (A := A) n).
Proof.
  unfold meye. split; [by rewrite length_map, length_seq |].
  apply Forall_map, Forall_forall. intros i _. simpl.
  by rewrite length_map, length_seq.
Qed.
End Products.

Lemma matmul_ok n k m (a b : matrix R) :
  has_shape n k a → has_shape k m b → (0 < n)%nat →
  np.matmul a b = Ok (mmul a b).
Proof.
  intros Ha Hb Hn. unfold np.matmul.
  rewrite (has_shape_cols n k a), (has_shape_rows k m b) by done.
  by rewrite Nat.eqb_refl.
Qed.

Lemma dot_cons (x y : R) (u v : list R) :
  dot (x :: u) (y :: v) = x * y + dot u v.
Proof. reflexivity. Qed.

(** The product with a row of the identity picks one entry. *)
Lemma dot_unit (i : nat) (v : list R) (s : nat) :
  dot (map (λ j, if (i =? j)%nat then r1 else r0) (seq s (length v))) v
  = if (s <=? i)%nat && (i <? s + length v)%nat then nth (i - s) v 0 else 0.
Proof.
  change (@r1 R R_ring) with 1. change (@r0 R R_ring) with 0.
  revert s. induction v as [| y v IH]; intros s.
  - simpl. case_nat_tests; by destruct (i - s)%nat.
  - change (length (y :: v)) with (S (length v)).
    change (seq s (S (length v))) with (s :: seq (S s) (length v)).
    rewrite map_cons, dot_cons, IH.
    case_nat_tests; try lia.
    + replace (i - s)%nat with (S (i - S s)) by lia. simpl. lra.
    + lra.
    + replace (i - s)%nat with 0%nat by lia. simpl. lra.
    + lra.
Qed.

Lemma mmul_meye_l n (m : matrix R) : has_shape n n m → mmul (meye n) m = m.
Proof.
  intros Hm. destruct (decide (n = 0%nat)) as [-> | Hn].
  { destruct Hm as [Hlen _]. by destruct m. }
  apply (matrix_ext n n); [| done |].
  { apply (has_shape_mmul n n n); [apply has_shape_meye | done | lia]. }
  intros i j Hi Hj. rewrite mmul_entry.
  2: { by rewrite (has_shape_rows n n) by apply has_shape_meye. }
  2: { rewrite (has_shape_cols n n) by (done || lia). done. }
  unfold meye. rewrite nth_map_seq by done.
  pose proof (dot_unit i (col j m) 0) as Hdot.
  rewrite col_length, (has_shape_rows n n m Hm) in Hdot. rewrite Hdot.
  destruct (Nat.leb_spec 0 i); [| lia].
  destruct (Nat.ltb_spec i (0 + n)); [| lia]. simpl.
  rewrite Nat.sub_0_r. change 0 with (@r0 R R_ring). apply col_nth.
  by rewrite (has_shape_rows n n).
Qed.

Lemma has_shape_mpow n (F : matrix R) k :
  has_shape n n F → (0 < n)%nat → has_shape n n (mpow F k).
Proof.
  intros HF Hn. induction k as [| k IH]; simpl.
  - rewrite (has_shape_rows n n F HF). apply has_shape_meye.
  - by apply (has_shape_mmul n n n).
Qed.

(** [F_new = F; for j in range(1, i): F_new = np.matmul(F_new, F)] *)
Lemma power_loop n (F : matrix R) i :
  has_shape n n F → (0 < n)%nat → (1 ≤ i)%nat →
  for_range 1 i (λ _ F_new, np.matmul F_new F) F = Ok (mpow F i).
Proof.
  intros HF Hn Hi.
  destruct (for_range_invariant (λ k F_new, F_new = mpow F k) 1 i
              (λ _ F_new, np.matmul F_new F) F) as (F_new & -> & ->);
    [done | | | done].
  - simpl. rewrite (has_shape_rows n n F HF). by rewrite mmul_meye_l.
  - intros k ? Hk ->. eexists. split; [| reflexivity].
    apply (matmul_ok n n n); [by apply has_shape_mpow | done | done].
Qed.

Section Elementwise.
Context `{RingOps A}.

Lemma has_shape_mscale r c (x : A) (m : matrix A) :
  has_shape r c m → has_shape r c (mscale x m).
Proof.
  intros [Hlen Hrows]. split; [by unfold mscale; rewrite length_map |].
  unfold mscale. apply Forall_map. eapply Forall_impl; [exact Hrows |].
  intros row Hrow. simpl. by rewrite length_map.
Qed.

Lemma has_shape_madd r c (a b : matrix A) :
  has_shape r c a → has_shape r c b → has_shape r c (madd a b).
Proof.
  intros [Ha Hra] [Hb Hrb]. unfold madd. split.
  - rewrite length_zip_with. lia.
  - apply Forall_lookup_2. intros i row Hi.
    apply lookup_zip_with_Some in Hi as (ra & rb & -> & Hia & Hib).
    rewrite length_zip_with.
    rewrite (Forall_lookup_1 _ _ _ _ Hra Hia), (Forall_lookup_1 _ _ _ _ Hrb Hib).
    lia.
Qed.

Lemma madd_entry r c (a b : matrix A) i j :
  has_shape r c a → has_shape r c b → (i < r)%nat → (j < c)%nat →
  entry (madd a b) i j = radd (entry a i j) (entry b i j).
Proof.
  intros Ha Hb Hi Hj. unfold entry, madd.
  destruct (lookup_lt_is_Some_2 a i) as [ra Hra]; [destruct Ha; lia |].
  destruct (lookup_lt_is_Some_2 b i) as [rb Hrb]; [destruct Hb; lia |].
  pose proof (has_shape_row _ _ _ _ _ Ha Hra) as Hla.
  pose proof (has_shape_row _ _ _ _ _ Hb Hrb) as Hlb.
  destruct (lookup_lt_is_Some_2 ra j) as [x Hx]; [lia |].
  destruct (lookup_lt_is_Some_2 rb j) as [y Hy]; [lia |].
  rewrite (nth_lookup_Some _ _ _ (zip_with radd ra rb)).
  2: { rewrite lookup_zip_with, Hra, Hrb. done. }
  rewrite (nth_lookup_Some _ _ _ (radd x y)).
  2: { rewrite lookup_zip_with, Hx, Hy. done. }
  by rewrite (nth_lookup_Some _ _ _ _ Hra), (nth_lookup_Some _ _ _ _ Hrb),
    (nth_lookup_Some _ _ _ _ Hx), (nth_lookup_Some _ _ _ _ Hy).
Qed.
End Elementwise.

Lemma add_same_shape r c (a b : matrix R) :
  has_shape r c a → has_shape r c b → np.add a b = Ok (madd a b).
Proof.
  intros Ha Hb. destruct (decide (r = 0%nat)) as [-> | Hr].
  { destruct Ha as [Ha _], Hb as [Hb _]. by destruct a, b. }
  unfold np.add.
  rewrite (has_shape_rows r c a Ha), (has_shape_rows r c b Hb).
  rewrite (has_shape_cols r c a Ha), (has_shape_cols r c b Hb) by lia.
  unfold np.broadcast. rewrite !Nat.eqb_refl. simpl_bind. f_equal.
  apply (matrix_ext r c); [| by apply has_shape_madd |].
  { split; [by rewrite length_map, length_seq |].
    apply Forall_map, Forall_forall. intros i _. simpl.
    by rewrite length_map, length_seq. }
  intros i j Hi Hj. rewrite (madd_entry r c) by done.
  unfold entry at 1. rewrite (nth_map_seq _ r i []) by done.
  rewrite nth_map_seq by done. unfold np.stretch.
  rewrite (has_shape_rows r c a Ha), (has_shape_rows r c b Hb).
  rewrite (has_shape_cols r c a Ha), (has_shape_cols r c b Hb) by lia.
  assert (Hi0 : (if (r =? 1)%nat then 0%nat else i) = i)
    by (case_nat_tests; lia).
  assert (Hj0 : (if (c =? 1)%nat then 0%nat else j) = j)
    by (case_nat_tests; lia).
  by rewrite Hi0, Hj0.
Qed.

(** The shapes of the arrays that the matrix operations build. *)
Create HintDb shapes.
#[global] Hint Resolve has_shape_mzeros has_shape_meye has_shape_mscale
  has_shape_madd has_shape_mmul has_shape_mpow : shapes.
#[global] Hint Extern 1 (_ < _)%nat => lia : shapes.

Ltac solve_shapes := solve [eauto 15 with shapes].

(** ** Sums and the algebra of the matrix product *)

Section Sums.
Implicit Types (f g : nat → R).

Lemma sum_to_ext n f g :
  (∀ k, (k < n)%nat → f k = g k) → sum_to n f = sum_to n g.
Proof.
  induction n as [| n IH]; intros Hfg; simpl; [done |].
  rewrite IH by (intros; apply Hfg; lia). by rewrite Hfg by lia.
Qed.

Lemma sum_to_plus n f g :
  sum_to n (λ k, f k + g k) = sum_to n f + sum_to n g.
Proof. induction n as [| n IH]; simpl; [lra |]. rewrite IH. lra. Qed.

Lemma sum_to_scal_l n (x : R) f :
  sum_to n (λ k, x * f k) = x * sum_to n f.
Proof. induction n as [| n IH]; simpl; [lra |]. rewrite IH. lra. Qed.

Lemma sum_to_scal_r n (x : R) f :
  sum_to n (λ k, f k * x) = sum_to n f * x.
Proof. induction n as [| n IH]; simpl; [lra |]. rewrite IH. lra. Qed.

Lemma sum_to_swap n m (f : nat → nat → R) :
  sum_to n (λ k, sum_to m (λ l, f k l))
  = sum_to m (λ l, sum_to n (λ k, f k l)).
Proof.
  induction n as [| n IH]; simpl.
  - induction m as [| m IHm]; simpl; [done |]. rewrite <- IHm. lra.
  - rewrite IH. by rewrite <- sum_to_plus.
Qed.
End Sums.

Lemma foldr_Rplus_snoc (l : list R) (x : R) :
  foldr Rplus 0 (l ++ [x]) = foldr Rplus 0 l + x.
Proof. induction l as [| y l IH]; simpl; [lra |]. rewrite IH. lra. Qed.

(** The product of two rows as a sum over the positions. *)
Lemma dot_sum (u v : list R) n :
  length u = n → length v = n →
  dot u v = sum_to n (λ k, nth k u 0 * nth k v 0).
Proof.
  revert v n. induction u as [| x u IH] using rev_ind; intros v n Hu Hv.
  - simpl in Hu. subst n. by destruct v.
  - rewrite length_app in Hu. simpl in Hu.
    destruct (decide (v = [])) as [-> | Hne]; [simpl in Hv; lia |].
    destruct (exists_last Hne) as (v' & y & ->).
    rewrite length_app in Hv. simpl in Hv.
    destruct n as [| n]; [lia |].
    assert (Hlu : length u = n) by lia. assert (Hlv : length v' = n) by lia.
    assert (Hdot : dot (u ++ [x]) (v' ++ [y]) = dot u v' + x * y).
    { unfold dot. rewrite zip_with_app by lia. apply foldr_Rplus_snoc. }
    rewrite Hdot, (IH v' n) by done.
    simpl sum_to. f_equal.
    + apply sum_to_ext. intros k Hk. by rewrite !app_nth1 by lia.
    + rewrite !app_nth2 by lia. rewrite Hlu, Hlv, Nat.sub_diag. done.
Qed.

Lemma mmul_entry_sum n k m (a b : matrix R) i j :
  has_shape n k a → has_shape k m b → (0 < k)%nat →
  (i < n)%nat → (j < m)%nat →
  entry (mmul a b) i j = sum_to k (λ l, entry a i l * entry b l j).
Proof.
  intros Ha Hb Hk Hi Hj.
  rewrite mmul_entry.
  2: { by rewrite (has_shape_rows n k a). }
  2: { by rewrite (has_shape_cols k m b). }
  destruct (lookup_lt_is_Some_2 a i) as [row Hrow]; [destruct Ha; lia |].
  rewrite (nth_lookup_Some _ _ _ _ Hrow).
  rewrite (dot_sum _ _ k).
  - apply sum_to_ext. intros l Hl. f_equal.
    + unfold entry. by rewrite (nth_lookup_Some _ _ _ _ Hrow).
    + change 0 with (@r0 R R_ring). apply col_nth.
      by rewrite (has_shape_rows k m b).
  - by eapply has_shape_row.
  - rewrite col_length. by apply (has_shape_rows k m).
Qed.

Lemma mmul_assoc n k l m (a b c : matrix R) :
  has_shape n k a → has_shape k l b → has_shape l m c →
  (0 < k)%nat → (0 < l)%nat →
  mmul (mmul a b) c = mmul a (mmul b c).
Proof.
  intros Ha Hb Hc Hk Hl.
  apply (matrix_ext n m); [solve_shapes | solve_shapes |].
  intros i j Hi Hj.
  rewrite (mmul_entry_sum n l m) by solve_shapes.
  rewrite (mmul_entry_sum n k m) by solve_shapes.
  rewrite (sum_to_ext l _
    (λ q, sum_to k (λ p, entry a i p * entry b p q * entry c q j))).
  2: { intros q Hq. rewrite (mmul_entry_sum n k l) by done.
       by rewrite sum_to_scal_r. }
  rewrite (sum_to_ext k (λ p, entry a i p * entry (mmul b c) p j)
    (λ p, sum_to l (λ q, entry a i p * entry b p q * entry c q j))).
  2: { intros p Hp. rewrite (mmul_entry_sum k l m) by done.
       rewrite <- sum_to_scal_l. apply sum_to_ext. intros q Hq. ring. }
  apply sum_to_swap.
Qed.

Lemma has_shape_column n (m : matrix R) j :
  length m = n → has_shape n 1 (column j m).
Proof.
  intros Hm. unfold column. split; [by rewrite length_map |].
  by apply Forall_map, Forall_forall.
Qed.

Lemma column_entry (m : matrix R) i j :
  (i < length m)%nat → entry (column j m) i 0 = entry m i j.
Proof.
  intros Hi. unfold entry, column.
  destruct (lookup_lt_is_Some_2 m i Hi) as [row Hrow].
  rewrite (nth_lookup_Some _ _ _ [nth j row 0]).
  2: { by rewrite list_lookup_fmap, Hrow. }
  by rewrite (nth_lookup_Some _ _ _ _ Hrow).
Qed.

Lemma mpow_1 n (F : matrix R) : has_shape n n F → mpow F 1 = F.
Proof.
  intros HF. simpl. rewrite (has_shape_rows n n F HF). by apply mmul_meye_l.
Qed.

(** A matrix commutes with its powers. *)
Lemma mpow_comm n (F : matrix R) i :
  has_shape n n F → (0 < n)%nat → (1 ≤ i)%nat →
  mmul (mpow F i) F = mmul F (mpow F i).
Proof.
  intros HF Hn Hi. induction i as [| i IH]; [lia |].
  destruct (decide (i = 0%nat)) as [-> | Hi0].
  - by rewrite (mpow_1 n).
  - change (mpow F (S i)) with (mmul (mpow F i) F).
    rewrite IH at 1 by lia.
    apply (mmul_assoc n n n n); solve_shapes.
Qed.

(** ** requirements.py *)

Section RequirementsFacts.
Import requirements.
Context {N : NonFinite}.

(** Step 2 never raises: its division is guarded by its own test. *)
Lemma step_2_ok (tp wd : R) : ∃ wd', step_2 tp wd = Ok wd'.
Proof.
  unfold step_2. case_bool_decide as Htp; simpl; [by eauto |].
  case_bool_decide; simpl; [| by eauto].
  rewrite py_div_ok by done. by eauto.
Qed.

Lemma np_sqrt_ok (x : R) : 0 <= x → np_sqrt x = sqrt x.
Proof. intros Hx. unfold np_sqrt. by rewrite decide_True. Qed.

Lemma np_div_ok (x y : R) : y ≠ 0 → np_div x y = x / y.
Proof. intros Hy. unfold np_div. by rewrite decide_False. Qed.

Lemma step_5_known (r : Requirements) :
  wn r ≠ 0 → zeta r ≠ 0 →
  step_5 r =
    Ok (mkReq (wn r) (zeta r) (4 / (zeta r * wn r)) (18 / 10 / wn r)
              (np_div PI (wn r * np_sqrt (1 - zeta r * zeta r)))
              (wn r * np_sqrt (1 - zeta r * zeta r)) (zeta r * wn r)).
Proof.
  intros Hwn Hzeta. unfold step_5, np_square, np_pi.
  rewrite !bool_decide_eq_false_2 by done. cbn [negb andb].
  rewrite (py_div_ok 4) by (by apply Rmult_integral_contrapositive_currified).
  simpl_bind. by rewrite py_div_ok.
Qed.

(** Step 5 for a damping ratio below 1: every value is a number. *)
Lemma step_5_underdamped (r : Requirements) :
  wn r ≠ 0 → zeta r ≠ 0 → zeta r * zeta r < 1 →
  step_5 r =
    Ok (mkReq (wn r) (zeta r) (4 / (zeta r * wn r)) (18 / 10 / wn r)
              (PI / (wn r * sqrt (1 - zeta r * zeta r)))
              (wn r * sqrt (1 - zeta r * zeta r)) (zeta r * wn r)).
Proof.
  intros Hwn Hzeta Hlt. rewrite step_5_known by done.
  rewrite np_sqrt_ok by lra. rewrite np_div_ok; [done |].
  apply Rmult_integral_contrapositive_currified; [done |].
  intros H0. pose proof (sqrt_sqrt (1 - zeta r * zeta r)) as Hs.
  rewrite H0 in Hs. lra.
Qed.


Lemma two_sqrt_three_quarters : 2 * sqrt (1 - 1 / 2 * (1 / 2)) = sqrt 3.
Proof.
  replace (sqrt 3) with (sqrt (2 * 2 * (1 - 1 / 2 * (1 / 2))))
    by (f_equal; lra).
  rewrite sqrt_mult by lra. rewrite sqrt_square by lra. done.
Qed.


End RequirementsFacts.




(** Steps 1 and 3 feeding step 5: from ts = 4 and zeta = 0.5 alone, sigma
    is 4/ts = 1, wn is sigma/zeta = 2, and step 5 gives the rest. *)
Lemma calcRequirements_from_ts (N : NonFinite) :
  requirements.calcRequirements (requirements.mkReq 0 (1 / 2) 4 0 0 0 0)
  = Ok (requirements.mkReq 2 (1 / 2) 4 (9 / 10) (PI / sqrt 3) (sqrt 3) 1).
Proof.
  unfold requirements.calcRequirements, requirements.steps_1_4,
    requirements.step_1, requirements.step_2, requirements.step_3,
    requirements.step_4. simpl.
  rewrite (bool_decide_eq_true_2 (0 = 0)) by done.
  rewrite (bool_decide_eq_false_2 (4 = 0)) by lra. simpl.
  rewrite (py_div_ok 4 4) by lra. simpl.
  rewrite (bool_decide_eq_false_2 (4 / 4 = 0)) by lra. simpl.
  rewrite py_div_ok by lra. simpl.
  rewrite (bool_decide_eq_false_2 (1 / 2 = 0)) by lra. simpl.
  replace (4 / 4 / (1 / 2)) with 2 by lra.
  rewrite step_5_underdamped by (simpl; lra). simpl.
  rewrite two_sqrt_three_quarters. do 2 f_equal; lra.
Qed.

Section RequirementsRaise.
Import requirements.

(** Step 1 with a settling time and no decay rate: sigma = 4/ts, which
    is not zero. *)
Lemma step_1_from_ts (ts : R) :
  ts ≠ 0 → step_1 ts 0 = Ok (4 / ts) ∧ 4 / ts ≠ 0.
Proof.
  intros Hts. unfold step_1.
  rewrite bool_decide_eq_false_2, bool_decide_eq_true_2 by done. simpl.
  rewrite py_div_ok by done. split; [done |].
  unfold Rdiv. apply Rmult_integral_contrapositive_currified; [lra |].
  by apply Rinv_neq_0_compat.
Qed.

Lemma step_3_raises (sigma : R) :
  sigma ≠ 0 → step_3 0 0 sigma = Raise ZeroDivisionError.
Proof.
  intros Hs. unfold step_3.
  rewrite bool_decide_eq_true_2 by done.
  rewrite bool_decide_eq_false_2 by done. simpl. apply py_div_zero.
Qed.
End RequirementsRaise.

(** C8. When [wn] and [zeta] are zero and sigma is not zero once steps 1-2
    are done, [calcRequirements] does not return: the division
    [wn = sigma/zeta] raises ZeroDivisionError.  A nonzero [ts] with
    sigma = 0 is such an input, step 1 giving sigma = 4/ts. *)
Theorem calcRequirements_zero_zeta_raises :
  (∀ (N : NonFinite) (r : requirements.Requirements) (s : R),
     requirements.wn r = 0 → requirements.zeta r = 0 →
     requirements.step_1 (requirements.ts r) (requirements.sigma r) = Ok s →
     s ≠ 0 →
     requirements.calcRequirements r = Raise ZeroDivisionError)
  ∧ (∀ (N : NonFinite) (r : requirements.Requirements),
       requirements.wn r = 0 → requirements.zeta r = 0 →
       requirements.ts r ≠ 0 → requirements.sigma r = 0 →
       requirements.calcRequirements r = Raise ZeroDivisionError).
Proof.
  assert (Hmain : ∀ (N : NonFinite) (r : requirements.Requirements) (s : R),
     requirements.wn r = 0 → requirements.zeta r = 0 →
     requirements.step_1 (requirements.ts r) (requirements.sigma r) = Ok s →
     s ≠ 0 →
     requirements.calcRequirements r = Raise ZeroDivisionError).
  { intros N r s Hwn Hzeta Hstep Hs.
    unfold requirements.calcRequirements, requirements.steps_1_4.
    rewrite Hstep, Hwn, Hzeta. simpl.
    destruct (step_2_ok (requirements.tp r) (requirements.wd r)) as [wd' ->].
    simpl. by rewrite step_3_raises. }
  split; [exact Hmain |].
  intros N r Hwn Hzeta Hts Hsigma.
  destruct (step_1_from_ts (requirements.ts r) Hts) as [Hstep Hne].
  apply (Hmain N r (4 / requirements.ts r)); try done.
  by rewrite Hsigma.
Qed.

Lemma calcRequirements_zero_zeta_raises_witness :
  requirements.calcRequirements (H := sample_nonfinite)
    (requirements.mkReq 0 0 4 0 0 0 0)
  = Raise ZeroDivisionError.
Proof.
  apply (proj1 calcRequirements_zero_zeta_raises sample_nonfinite
           (requirements.mkReq 0 0 4 0 0 0 0) (4 / 4)).
  - reflexivity.
  - reflexivity.
  - simpl. apply step_1_from_ts. lra.
  - lra.
Defined.

(** ** poles.py *)

(** C6. [calcPoles] returns z_sigma = e^(sigma T) cos(wd T) and
    z_wd = e^(sigma T) sin(wd T); for a real pole (wd = 0) with sigma > 0
    and T > 0 that is z_sigma = e^(sigma T) and z_wd = 0; and the result is
    a function of the three arguments alone. *)
Theorem calcPoles_exact :
  (∀ sigma wd T : R,
     poles.calcPoles sigma wd T
     = (exp (sigma * T) * cos (wd * T), exp (sigma * T) * sin (wd * T)))
  ∧ (∀ sigma T : R, 0 < sigma → 0 < T →
       poles.calcPoles sigma 0 T = (exp (sigma * T), 0))
  ∧ (∀ sigma wd T sigma' wd' T' : R,
       sigma = sigma' → wd = wd' → T = T' →
       poles.calcPoles sigma wd T = poles.calcPoles sigma' wd' T').
Proof.
  split; [| split].
  - intros sigma wd T. reflexivity.
  - intros sigma T _ _. unfold poles.calcPoles, np_exp, np_cos, np_sin.
    rewrite Rmult_0_l, cos_0, sin_0. f_equal; ring.
  - by intros sigma wd T sigma' wd' T' -> -> ->.
Qed.

Lemma calcPoles_exact_witness :
  poles.calcPoles 1 0 1 = (exp (1 * 1), 0).
Proof.
  apply (proj1 (proj2 calcPoles_exact) 1 1); lra.
Defined.

(** C10. Whatever the z-pole and sample-time fields hold, [readZPoles]
    publishes their text as it is: a [getPoles] that follows returns the
    three strings, not floats.  [processPoles], by contrast, leaves the
    floats parsed from the s-pole and sample-time fields and computed by
    [calcPoles]. *)
Theorem readZPoles_stores_text :
  (∀ (z0 z1 e_T : Entry) (rest : list Entry)
     (st : value_exchange.ValueExchange),
     ∃ st', poles.readZPoles (z0 :: z1 :: rest) e_T st = (Ok (), st')
       ∧ value_exchange.getPoles st'
         = (Ok (VStr (text z0), VStr (text z1), VStr (text e_T)), st'))
  ∧ (∀ (B : Builtins) (z0 z1 s0 s1 e_T : Entry) (s_sigma s_wd T : R)
       (st : value_exchange.ValueExchange),
       float (text s0) = Ok s_sigma → float (text s1) = Ok s_wd →
       float (text e_T) = Ok T →
       ∃ z_entries st',
         poles.processPoles [z0; z1] [s0; s1] e_T st = (Ok z_entries, st')
         ∧ value_exchange.getPoles st'
           = (Ok (VFloat (poles.calcPoles s_sigma s_wd T).1,
                  VFloat (poles.calcPoles s_sigma s_wd T).2, VFloat T), st')).
Proof.
  split.
  - intros z0 z1 e_T rest st. unfold poles.readZPoles, lift. cbn.
    eexists. split; reflexivity.
  - intros B z0 z1 s0 s1 e_T s_sigma s_wd T st H0 H1 HT.
    unfold poles.processPoles, poles.readPoles, poles.clearPoles, lift. cbn.
    unfold Entry_get. rewrite H0, H1, HT. cbn.
    eexists _, _. split; reflexivity.
Qed.

Lemma readZPoles_stores_text_witness :
  ∃ z_entries st',
    poles.processPoles (H := sample_builtins)
      [mkEntry ""; mkEntry ""] [mkEntry "0"; mkEntry "1"] (mkEntry "1")
      (value_exchange.mkValueExchange (VInt 0) (VInt 0) (VInt 0) (VInt 0)
         (VInt 0) [[0]] [[0]] [[0]] (VInt 0) 1)
    = (Ok z_entries, st')
    ∧ value_exchange.getPoles st'
      = (Ok (VFloat (poles.calcPoles 0 1 1).1,
             VFloat (poles.calcPoles 0 1 1).2, VFloat 1), st').
Proof.
  apply (proj2 readZPoles_stores_text sample_builtins
           (mkEntry "") (mkEntry "") (mkEntry "0") (mkEntry "1") (mkEntry "1")
           0 1 1); reflexivity.
Defined.

(** ** model.py *)

Lemma mscale_comm (x y : R) (m : matrix R) :
  mscale x (mscale y m) = mscale y (mscale x m).
Proof.
  unfold mscale. rewrite !map_map. apply map_ext. intros row.
  rewrite !map_map. apply map_ext. intros v. simpl. ring.
Qed.

Section ModelFacts.
Import model.

(** [calcDisc] on arrays of the declared shapes computes the series. *)
Lemma calcDisc_shapes n (A b c : matrix R) (d T : R) :
  has_shape n n A → has_shape n 1 b →
  calcDisc (A, b, c, d) T n
  = Ok (design.series_F n A T, design.series_g n A b T, c, d).
Proof.
  intros HA Hb. destruct (decide (n = 0%nat)) as [-> | Hn].
  { destruct HA as [HA _], Hb as [Hb _]. by destruct A, b. }
  unfold calcDisc, np.scale.
  rewrite (add_same_shape n n (meye n) (mscale T A)) by solve_shapes.
  simpl_bind.
  rewrite (matmul_ok n n n (mscale T A) (mscale T A)) by solve_shapes.
  simpl_bind.
  rewrite (add_same_shape n n (madd (meye n) (mscale T A)))
    by solve_shapes.
  simpl_bind.
  rewrite (add_same_shape n n (meye n) (mscale T (mscale (1 / 2) A)))
    by solve_shapes.
  simpl_bind.
  rewrite (add_same_shape n n (madd (meye n) (mscale T (mscale (1 / 2) A))))
    by solve_shapes.
  simpl_bind. rewrite (matmul_ok n n 1) by solve_shapes.
  simpl_bind. unfold design.series_F, design.series_g, design.series_psi.
  by rewrite (mscale_comm T (1 / 2)).
Qed.
End ModelFacts.

Lemma meye_entry n i j :
  (i < n)%nat → (j < n)%nat →
  entry (meye (A := R) n) i j = if (i =? j)%nat then 1 else 0.
Proof.
  intros Hi Hj. unfold entry, meye.
  rewrite (nth_map_seq _ n i []) by done. by rewrite nth_map_seq.
Qed.

Lemma mscale_entry r c (x : R) (m : matrix R) i j :
  has_shape r c m → (i < r)%nat → (j < c)%nat →
  entry (mscale x m) i j = x * entry m i j.
Proof.
  intros Hm Hi Hj. unfold entry, mscale.
  destruct (lookup_lt_is_Some_2 m i) as [row Hrow]; [destruct Hm; lia |].
  pose proof (has_shape_row _ _ _ _ _ Hm Hrow) as Hlen.
  destruct (lookup_lt_is_Some_2 row j) as [y Hy]; [lia |].
  rewrite (nth_lookup_Some _ _ _ (map (rmul x) row)).
  2: { by rewrite list_lookup_fmap, Hrow. }
  rewrite (nth_lookup_Some _ _ _ (x * y)).
  2: { by rewrite list_lookup_fmap, Hy. }
  by rewrite (nth_lookup_Some _ _ _ _ Hrow), (nth_lookup_Some _ _ _ _ Hy).
Qed.

Section Series.
Context (n : nat) (A b : matrix R) (T : R).
Hypothesis (HA : has_shape n n A) (Hb : has_shape n 1 b).

(** The series entry by entry. *)
Lemma series_F_entry i j :
  (i < n)%nat → (j < n)%nat →
  entry (design.series_F n A T) i j
  = (if (i =? j)%nat then 1 else 0) + T * entry A i j
    + 1 / 2 * sum_to n (λ k, (T * entry A i k) * (T * entry A k j)).
Proof.
  intros Hi Hj. unfold design.series_F.
  rewrite (madd_entry n n) by solve_shapes.
  rewrite (madd_entry n n) by solve_shapes.
  rewrite meye_entry, (mscale_entry n n), (mscale_entry n n)
    by solve_shapes.
  rewrite (mmul_entry_sum n n n) by solve_shapes.
  simpl radd. do 2 f_equal. apply sum_to_ext. intros k Hk.
  by rewrite !(mscale_entry n n) by done.
Qed.

Lemma series_psi_entry i j :
  (i < n)%nat → (j < n)%nat →
  entry (design.series_psi n A T) i j
  = (if (i =? j)%nat then 1 else 0) + 1 / 2 * (T * entry A i j)
    + 1 / 6 * sum_to n (λ k, (T * entry A i k) * (T * entry A k j)).
Proof.
  intros Hi Hj. unfold design.series_psi.
  rewrite (madd_entry n n) by solve_shapes.
  rewrite (madd_entry n n) by solve_shapes.
  rewrite meye_entry, !(mscale_entry n n) by solve_shapes.
  rewrite (mmul_entry_sum n n n) by solve_shapes.
  simpl radd. do 2 f_equal. apply sum_to_ext. intros k Hk.
  by rewrite !(mscale_entry n n) by done.
Qed.

Lemma series_g_entry i :
  (i < n)%nat →
  entry (design.series_g n A b T) i 0
  = T * sum_to n (λ j, entry (design.series_psi n A T) i j * entry b j 0).
Proof.
  intros Hi. unfold design.series_g.
  assert (Hpsi : has_shape n n (design.series_psi n A T)).
  { unfold design.series_psi. solve_shapes. }
  rewrite (mscale_entry n 1) by solve_shapes.
  by rewrite (mmul_entry_sum n n 1) by solve_shapes.
Qed.
End Series.

(** The sibling of [readDisc]: on the same kind of fields, [readCont]
    takes c from position 2 and d from position 3 and returns what was
    entered. *)
Lemma readCont_sample :
  model.readCont (H := sample_builtins)
    [WGrid [[mkEntry "1"]]; WGrid [[mkEntry "0"]]; WGrid [[mkEntry "1"]];
     WEntry (mkEntry "0")] 1
  = Ok ([[1]], [[0]], [[1]], 0).
Proof. reflexivity. Qed.

(** C5. For a continuous model of the declared shapes, [calcDisc] returns
    F = I + AT + (1/2)(AT)^2 and g = T (I + (1/2)AT + (1/6)(AT)^2) b, entry
    by entry, and returns c and d as they are; for A = [[0]], b = [[1]] and
    T = 1 that is F = [[1]] and g = [[1]]. *)
Theorem calcDisc_series :
  (∀ (n : nat) (A b c : matrix R) (d T : R),
     has_shape n n A → has_shape n 1 b →
     ∃ F g, model.calcDisc (A, b, c, d) T n = Ok (F, g, c, d)
       ∧ F = design.series_F n A T
       ∧ g = design.series_g n A b T
       ∧ (∀ i j, (i < n)%nat → (j < n)%nat →
            entry F i j
            = (if (i =? j)%nat then 1 else 0) + T * entry A i j
              + 1 / 2 * sum_to n (λ k, (T * entry A i k) * (T * entry A k j)))
       ∧ (∀ i, (i < n)%nat →
            entry g i 0
            = T * sum_to n (λ j,
                    ((if (i =? j)%nat then 1 else 0)
                     + 1 / 2 * (T * entry A i j)
                     + 1 / 6 * sum_to n (λ k, (T * entry A i k)
                                              * (T * entry A k j)))
                    * entry b j 0)))
  ∧ (∀ (c : matrix R) (d : R),
       model.calcDisc ([[0]], [[1]], c, d) 1 1 = Ok ([[1]], [[1]], c, d)).
Proof.
  split.
  - intros n A b c d T HA Hb. eexists _, _.
    split; [by apply calcDisc_shapes |]. split; [done |]. split; [done |].
    split.
    + intros i j Hi Hj. by apply series_F_entry.
    + intros i Hi. rewrite series_g_entry by done. f_equal.
      apply sum_to_ext. intros j Hj. by rewrite series_psi_entry.
  - intros c d. rewrite (calcDisc_shapes 1); [| by repeat constructor ..].
    cbn. repeat (f_equal; try lra).
Qed.

Lemma calcDisc_series_witness :
  ∃ F g, model.calcDisc ([[0]], [[1]], [[1]], 0) 1 1 = Ok (F, g, [[1]], 0)
    ∧ F = design.series_F 1 [[0]] 1
    ∧ g = design.series_g 1 [[0]] [[1]] 1
    ∧ (∀ i j, (i < 1)%nat → (j < 1)%nat →
         entry F i j
         = (if (i =? j)%nat then 1 else 0) + 1 * entry [[0]] i j
           + 1 / 2 * sum_to 1 (λ k, (1 * entry [[0]] i k)
                                    * (1 * entry [[0]] k j)))
    ∧ (∀ i, (i < 1)%nat →
         entry g i 0
         = 1 * sum_to 1 (λ j,
                 ((if (i =? j)%nat then 1 else 0)
                  + 1 / 2 * (1 * entry [[0]] i j)
                  + 1 / 6 * sum_to 1 (λ k, (1 * entry [[0]] i k)
                                           * (1 * entry [[0]] k j)))
                 * entry [[1]] j 0)).
Proof.
  apply (proj1 calcDisc_series 1%nat [[0]] [[1]] [[1]] 0 1).
  - by repeat constructor.
  - by repeat constructor.
Defined.

(** C9 (the code departs from it). With the radio group on 'Set discrete',
    [calcModel] calls [readDisc], which takes the d field from position 0
    of [disc_entries], the array of the F fields, and the c fields from
    position 3, the single d field; [e_d.get()] on the array raises
    AttributeError before anything is read, and nothing is published: the
    store is as it was. *)
Theorem calcModel_discrete_raises :
  ∀ (B : Builtins) (e_F : list (list Entry)) (e_g e_c e_d : widget)
    (cont_entries : list widget) (dim : nat)
    (st : value_exchange.ValueExchange),
    model.readDisc [WGrid e_F; e_g; e_c; e_d] dim = Raise AttributeError
    ∧ model.calcModel 1 cont_entries [WGrid e_F; e_g; e_c; e_d] dim st
      = (Raise AttributeError, st).
Proof.
  intros B e_F e_g e_c e_d cont_entries dim st. split; reflexivity.
Qed.

(** ** results.py *)

Section ResultsFacts.
Import results.
Context {L : Lapack}.

Section Order2.
Context (a b c d : R).

(** The open-loop expression det(z I - F) of a 2 by 2 matrix. *)
Lemma ol_eqn_2 :
  mdet (msub (mscale sym_z (meye 2))
             (map (map (λ x, sym_const (RtoC x))) [[a; b]; [c; d]]))
  = [RtoC (a * d - b * c); RtoC (- (a + d)); RtoC 1].
Proof.
  cbn. repeat (f_equal; try (apply C_eq; simpl; ring)).
Qed.

(** The closed-loop expression of the pole pair. *)
Lemma cl_eqn_2 (z_sigma z_wd : R) :
  rmul (rsub (rsub sym_z (sym_const (RtoC z_sigma)))
             (sym_const (rmul Ci (RtoC z_wd))))
       (radd (rsub sym_z (sym_const (RtoC z_sigma)))
             (sym_const (rmul Ci (RtoC z_wd))))
  = [RtoC (z_sigma * z_sigma + z_wd * z_wd); RtoC (- (2 * z_sigma)); RtoC 1].
Proof.
  cbn. repeat (f_equal; try (apply C_eq; simpl; ring)).
Qed.
End Order2.

Lemma coefficients_2 (a0 a1 a2 o0 o1 o2 : R) :
  coefficients [RtoC a0; RtoC a1; RtoC a2] [RtoC o0; RtoC o1; RtoC o2] 2
    (mzeros 2 2, mzeros 2 2, mzeros 1 2)
  = Ok ([[RtoC a1; RtoC a0]; [r0; r0]], [[RtoC o1; RtoC o0]; [r0; r0]],
        [[a0 - o0; a1 - o1]]).
Proof.
  unfold coefficients, for_range. cbn -[to_float].
  rewrite to_float_real by (simpl; ring). cbn -[to_float].
  rewrite to_float_real by (simpl; ring). cbn.
  reflexivity.
Qed.

Lemma astype_float_2 (o0 o1 : R) :
  astype_float [[RtoC o1; RtoC o0]; [r0; r0]] = Ok [[o1; o0]; [0; 0]].
Proof.
  unfold astype_float. cbn -[to_float].
  rewrite !to_float_real by reflexivity. reflexivity.
Qed.

Lemma canonical_2 (o0 o1 : R) :
  canonical [[o1; o0]; [0; 0]] 2 (mzeros 2 2) = Ok [[o1; 1]; [1; 0]].
Proof. reflexivity. Qed.

(** [calcK] at order 2, for a controllability matrix [U] whose transform
    [P = U U_c] is regular. *)
Lemma calcK_2 (a b c d z_sigma z_wd u00 u01 u10 u11 : R) :
  let U := [[u00; u01]; [u10; u11]] in
  let k_c := [[z_sigma * z_sigma + z_wd * z_wd - (a * d - b * c);
               - (2 * z_sigma) - - (a + d)]] in
  let P := mmul U [[- (a + d); 1]; [1; 0]] in
  mdet P ≠ 0 →
  calcK [[a; b]; [c; d]] (z_sigma, z_wd) U 2
  = Ok (mmul k_c (mscale (/ mdet P) (adjugate P)), k_c, P).
Proof.
  intros U k_c P HP. unfold calcK.
  change (sym_sub ?X ?Y) with (Ok (msub X Y)). simpl_bind.
  cbn [fst snd]. rewrite ol_eqn_2, cl_eqn_2, coefficients_2.
  simpl_bind. rewrite astype_float_2. simpl_bind.
  rewrite canonical_2. simpl_bind.
  change (np.matmul U ?X) with (Ok (mmul U X)). simpl_bind.
  fold P. unfold np.inv.
  change (rows P =? cols P)%nat with true. cbn iota.
  rewrite decide_False by done. simpl_bind.
  reflexivity.
Qed.

(** [calcK] at order 2 when [P = U U_c] is exactly singular and its
    factorisation leaves a residue: [np.linalg.inv] returns an array. *)
Lemma calcK_2_residue (a b c d z_sigma z_wd u00 u01 u10 u11 : R) :
  let U := [[u00; u01]; [u10; u11]] in
  let k_c := [[z_sigma * z_sigma + z_wd * z_wd - (a * d - b * c);
               - (2 * z_sigma) - - (a + d)]] in
  let P := mmul U [[- (a + d); 1]; [1; 0]] in
  mdet P = 0 → lu_residue P ≠ 0 →
  calcK [[a; b]; [c; d]] (z_sigma, z_wd) U 2
  = Ok (mmul k_c (lu_inverse P), k_c, P).
Proof.
  intros U k_c P HP Hres. unfold calcK.
  change (sym_sub ?X ?Y) with (Ok (msub X Y)). simpl_bind.
  cbn [fst snd]. rewrite ol_eqn_2, cl_eqn_2, coefficients_2.
  simpl_bind. rewrite astype_float_2. simpl_bind.
  rewrite canonical_2. simpl_bind.
  change (np.matmul U ?X) with (Ok (mmul U X)). simpl_bind.
  fold P. unfold np.inv.
  change (rows P =? cols P)%nat with true. cbn iota.
  rewrite decide_True, decide_False by done. simpl_bind.
  assert (HPs : has_shape 2 2 (lu_inverse P)).
  { apply lu_inverse_shape. by repeat constructor. }
  unfold np.matmul. rewrite (has_shape_rows 2 2 _ HPs). reflexivity.
Qed.

Lemma checkContr_U_2 (a b c d g0 g1 : R) :
  checkContr_U [[a; b]; [c; d]] [[g0]; [g1]] 2
  = Ok [[g0; a * g0 + b * g1]; [g1; c * g0 + d * g1]].
Proof. cbn. repeat (f_equal; try ring). Qed.

(** On a square array [np.linalg.det] returns: the exact determinant of a
    regular array, the residue of a singular one. *)
Lemma det_square n (U : matrix R) :
  has_shape n n U →
  np.det U = Ok (if decide (mdet U = 0) then lu_residue U else mdet U).
Proof.
  intros HU. unfold np.det. destruct (decide (n = 0%nat)) as [-> | Hn].
  - destruct HU as [Hlen _]. by destruct U.
  - rewrite (has_shape_rows n n U HU), (has_shape_cols n n U HU) by lia.
    by rewrite Nat.eqb_refl.
Qed.

Lemma det_regular n (U : matrix R) :
  has_shape n n U → mdet U ≠ 0 → np.det U = Ok (mdet U).
Proof.
  intros HU Hdet. rewrite (det_square n) by done. by rewrite decide_False.
Qed.

(** The two branches of [checkContr]. *)


(** The matrix built by lines 143-160: column 0 is [g], column [i] is
    [F^i g]. *)
Lemma checkContr_U_spec n (F g : matrix R) :
  has_shape n n F → has_shape n 1 g →
  ∃ U, checkContr_U F g n = Ok U ∧ has_shape n n U
    ∧ (∀ j, (j < n)%nat → entry U j 0 = entry g j 0)
    ∧ (∀ i j, (1 ≤ i < n)%nat → (j < n)%nat →
         entry U j i = entry (mmul (mpow F i) g) j 0).
Proof.
  intros HF Hg. destruct (decide (n = 0%nat)) as [-> | Hn].
  { exists []. split; [reflexivity |]. split; [by split |].
    split; intros; lia. }
  unfold checkContr_U.
  destruct (fill_column g (mzeros n n) n 1 0 Hg) as (U0 & -> & HU0 & Hent0);
    [lia | apply has_shape_mzeros | lia |]. simpl_bind.
  destruct (for_range_invariant
    (λ k U, has_shape n n U
       ∧ ∀ j col, entry U j col =
           if (1 <=? col)%nat && (col <? k)%nat && (j <? n)%nat
           then entry (mmul (mpow F col) g) j 0 else entry U0 j col)
    1 n
    (λ i U,
       F_new ← for_range 1 i (λ j F_new, np.matmul F_new F) F;
       temp ← np.matmul F_new g;
       for_range 0 n (λ j U, x ← mget temp j 0; mset U j i x) U)
    U0) as (U & HU & HUs & Hent); [lia | | | ].
  - split; [done |]. intros j col. by case_nat_tests; lia.
  - intros i U Hi [HUs Hent].
    rewrite (power_loop n) by (done || lia). simpl_bind.
    rewrite (matmul_ok n n 1);
      [| apply has_shape_mpow; done || lia | done | lia].
    simpl_bind.
    destruct (fill_column (mmul (mpow F i) g) U n 1 i)
      as (U' & -> & HU' & Hent'); [| lia | done | lia |].
    { apply (has_shape_mmul n n 1); [apply has_shape_mpow; done || lia | done | lia]. }
    exists U'. split; [done |]. split; [done |].
    intros j col. rewrite Hent', Hent.
    case_nat_tests; try lia; by subst.
  - exists U. split; [done |]. split; [done |]. split.
    + intros j Hj. rewrite Hent, Hent0. by case_nat_tests; lia.
    + intros i j Hi Hj. rewrite Hent. by case_nat_tests; lia.
Qed.

(** Each column of the controllability matrix is [F] times the column
    before it. *)
Lemma checkContr_U_step n (F g U : matrix R) :
  has_shape n n F → has_shape n 1 g → checkContr_U F g n = Ok U →
  ∀ i j, (S i < n)%nat → (j < n)%nat →
    entry U j (S i) = entry (mmul F (column i U)) j 0.
Proof.
  intros HF Hg HU i j Hi Hj.
  destruct (checkContr_U_spec n F g HF Hg) as (U' & HU' & Hshape & H0 & Hcols).
  rewrite HU in HU'. injection HU' as <-.
  rewrite Hcols by lia.
  assert (Hcol : column i U = if (i =? 0)%nat then g else mmul (mpow F i) g).
  { apply (matrix_ext n 1).
    - apply has_shape_column. by destruct Hshape.
    - case_nat_tests; solve_shapes.
    - intros r c0 Hr Hc0. assert (c0 = 0%nat) as -> by lia.
      rewrite column_entry by (destruct Hshape; lia).
      case_nat_tests; [subst i; by apply H0 | apply Hcols; lia]. }
  rewrite Hcol. destruct (Nat.eqb_spec i 0) as [-> | Hne].
  - by rewrite (mpow_1 n).
  - change (mpow F (S i)) with (mmul (mpow F i) F).
    rewrite (mpow_comm n) by (done || lia).
    by rewrite (mmul_assoc n n n 1) by solve_shapes.
Qed.

(** The matrix built by lines 143-160 is [dim] by [dim] whenever the
    loops return. *)
Lemma checkContr_U_shape (F g : matrix R) dim U :
  checkContr_U F g dim = Ok U → has_shape dim dim U.
Proof.
  unfold checkContr_U. intros HU.
  apply bind_Ok in HU as (U0 & HU0 & HU).
  assert (HS0 : has_shape dim dim U0).
  { eapply (for_range_preserves (has_shape dim dim));
      [apply has_shape_mzeros | | exact HU0].
    intros j t t' Ht Hbody. apply bind_Ok in Hbody as (x & _ & Hset).
    by eapply mset_has_shape. }
  eapply (for_range_preserves (has_shape dim dim)); [exact HS0 | | exact HU].
  intros i t t' Ht Hbody.
  apply bind_Ok in Hbody as (F_new & _ & Hbody).
  apply bind_Ok in Hbody as (temp & _ & Hbody).
  eapply (for_range_preserves (has_shape dim dim)); [exact Ht | | exact Hbody].
  intros j s s' Hs Hset. apply bind_Ok in Hset as (x & _ & Hset).
  by eapply mset_has_shape.
Qed.

Lemma checkObs_V_shape (F c : matrix R) dim V :
  checkObs_V F c dim = Ok V → has_shape dim dim V.
Proof.
  unfold checkObs_V. intros HV.
  apply bind_Ok in HV as (V0 & HV0 & HV).
  assert (HS0 : has_shape dim dim V0).
  { eapply (for_range_preserves (has_shape dim dim));
      [apply has_shape_mzeros | | exact HV0].
    intros j t t' Ht Hbody. apply bind_Ok in Hbody as (x & _ & Hset).
    by eapply mset_has_shape. }
  eapply (for_range_preserves (has_shape dim dim)); [exact HS0 | | exact HV].
  intros i t t' Ht Hbody.
  apply bind_Ok in Hbody as (F_new & _ & Hbody).
  apply bind_Ok in Hbody as (temp & _ & Hbody).
  eapply (for_range_preserves (has_shape dim dim)); [exact Ht | | exact Hbody].
  intros j s s' Hs Hset. apply bind_Ok in Hset as (x & _ & Hset).
  by eapply mset_has_shape.
Qed.

(** The two branches of [checkContr]. *)
Lemma checkContr_controllable model poles dim out U k k_c P :
  checkContr_U (F model) (g model) dim = Ok U → mdet U ≠ 0 →
  calcK (F model) poles U dim = Ok (k, k_c, P) →
  checkContr model poles dim out
  = (Ok (PyArr k, PyArr k_c, PyArr P, mdet U), out).
Proof.
  intros HU Hdet HK. unfold checkContr.
  cbv [mbind Py_bind lift]. rewrite HU.
  rewrite (det_regular dim) by (done || by eapply checkContr_U_shape).
  rewrite bool_decide_eq_false_2 by done. cbn [negb]. by rewrite HK.
Qed.

Lemma checkContr_singular model poles dim out U :
  checkContr_U (F model) (g model) dim = Ok U → np.det U = Ok 0 →
  checkContr model poles dim out
  = (Ok (PyInt 0, PyInt 0, PyInt 0, 0), out ++ ["system not controlable"]).
Proof.
  intros HU Hdet. unfold checkContr.
  cbv [mbind Py_bind lift]. rewrite HU, Hdet.
  by rewrite bool_decide_eq_true_2 by done.
Qed.

(** The matrix built by lines 240-256: row 0 is [c], row [i] is
    [c F^i]. *)
Lemma checkObs_V_spec n (F c : matrix R) :
  has_shape n n F → has_shape 1 n c →
  ∃ V, checkObs_V F c n = Ok V ∧ has_shape n n V
    ∧ (∀ j, (j < n)%nat → entry V 0 j = entry c 0 j)
    ∧ (∀ i j, (1 ≤ i < n)%nat → (j < n)%nat →
         entry V i j = entry (mmul c (mpow F i)) 0 j).
Proof.
  intros HF Hc. destruct (decide (n = 0%nat)) as [-> | Hn].
  { exists []. split; [reflexivity |]. split; [by split |].
    split; intros; lia. }
  unfold checkObs_V.
  destruct (fill_row c (mzeros n n) n 1 0 Hc) as (V0 & -> & HV0 & Hent0);
    [lia | apply has_shape_mzeros | lia |]. simpl_bind.
  destruct (for_range_invariant
    (λ k V, has_shape n n V
       ∧ ∀ row j, entry V row j =
           if (1 <=? row)%nat && (row <? k)%nat && (j <? n)%nat
           then entry (mmul c (mpow F row)) 0 j else entry V0 row j)
    1 n
    (λ i V,
       F_new ← for_range 1 i (λ j F_new, np.matmul F_new F) F;
       temp ← np.matmul c F_new;
       for_range 0 n (λ j V, x ← mget temp 0 j; mset V i j x) V)
    V0) as (V & HV & HVs & Hent); [lia | | | ].
  - split; [done |]. intros row j. by case_nat_tests; lia.
  - intros i V Hi [HVs Hent].
    rewrite (power_loop n) by (done || lia). simpl_bind.
    rewrite (matmul_ok 1 n n);
      [| done | apply has_shape_mpow; done || lia | lia].
    simpl_bind.
    destruct (fill_row (mmul c (mpow F i)) V n 1 i)
      as (V' & -> & HV' & Hent'); [| lia | done | lia |].
    { apply (has_shape_mmul 1 n n);
        [done | apply has_shape_mpow; done || lia | lia]. }
    exists V'. split; [done |]. split; [done |].
    intros row j. rewrite Hent', Hent.
    case_nat_tests; try lia; by subst.
  - exists V. split; [done |]. split; [done |]. split.
    + intros j Hj. rewrite Hent, Hent0. by case_nat_tests; lia.
    + intros i j Hi Hj. rewrite Hent. by case_nat_tests; lia.
Qed.

(** The singular branch of [checkObs]: the message is printed, then the
    three values do not fit the two names. *)
Lemma checkObs_singular model poles dim out V :
  checkObs_V (F model) (c model) dim = Ok V → np.det V = Ok 0 →
  checkObs model poles dim out
  = (Raise ValueError, out ++ ["system not observable"]).
Proof.
  intros HV Hdet. unfold checkObs.
  cbv [mbind Py_bind lift]. rewrite HV, Hdet.
  by rewrite bool_decide_eq_true_2 by done.
Qed.
End ResultsFacts.

(** C2. For an n by n matrix F and an n by 1 vector g, the matrix that
    [checkContr] builds is n by n, its column 0 is g and its column i, for
    i = 1..n-1, is F^i g; equivalently, every column is F times the column
    before it.  For F = [[0,1],[0,0]] and g = [[0],[1]] it is
    [[0,1],[1,0]], of determinant -1, and [checkContr] takes the
    controllable branch: it returns arrays and prints nothing. *)
Theorem checkContr_U_krylov :
  (∀ (n : nat) (F g : matrix R),
     has_shape n n F → has_shape n 1 g →
     ∃ U, results.checkContr_U F g n = Ok U ∧ has_shape n n U
       ∧ (∀ j, (j < n)%nat → entry U j 0 = entry g j 0)
       ∧ (∀ i j, (1 ≤ i < n)%nat → (j < n)%nat →
            entry U j i = entry (mmul (mpow F i) g) j 0)
       ∧ (∀ i j, (S i < n)%nat → (j < n)%nat →
            entry U j (S i) = entry (mmul F (column i U)) j 0))
  ∧ results.checkContr_U [[0; 1]; [0; 0]] [[0]; [1]] 2 = Ok [[0; 1]; [1; 0]]
  ∧ mdet [[0; 1]; [1; 0]] = -1
  ∧ (∀ (L : Lapack) (c : matrix R) (d : R) (poles : R * R)
       (out : list string),
       ∃ k k_c P,
         results.checkContr (results.mkModel [[0; 1]; [0; 0]] [[0]; [1]] c d)
           poles 2 out
         = (Ok (PyArr k, PyArr k_c, PyArr P, -1), out)).
Proof.
  assert (HU : results.checkContr_U [[0; 1]; [0; 0]] [[0]; [1]] 2
               = Ok [[0; 1]; [1; 0]]).
  { rewrite checkContr_U_2. repeat (f_equal; try lra). }
  assert (Hdet : mdet [[0; 1]; [1; 0]] = -1) by (cbn; lra).
  split; [| split; [exact HU | split; [exact Hdet |]]].
  - intros n F g HF Hg.
    destruct (checkContr_U_spec n F g HF Hg) as (U & HUn & Hshape & H0 & Hi).
    exists U. repeat split; try done; try apply Hshape.
    by apply (checkContr_U_step n F g).
  - intros L c d [z_sigma z_wd] out. eexists _, _, _.
    rewrite <- Hdet.
    apply (checkContr_controllable _ _ _ _ [[0; 1]; [1; 0]]); simpl.
    + exact HU.
    + rewrite Hdet. lra.
    + apply calcK_2. cbn. lra.
Qed.

Lemma checkContr_U_krylov_witness :
  ∃ U, results.checkContr_U [[1; 2]; [3; 4]] [[5]; [6]] 2 = Ok U
    ∧ has_shape 2 2 U
    ∧ (∀ j, (j < 2)%nat → entry U j 0 = entry [[5]; [6]] j 0)
    ∧ (∀ i j, (1 ≤ i < 2)%nat → (j < 2)%nat →
         entry U j i = entry (mmul (mpow [[1; 2]; [3; 4]] i) [[5]; [6]]) j 0)
    ∧ (∀ i j, (S i < 2)%nat → (j < 2)%nat →
         entry U j (S i) = entry (mmul [[1; 2]; [3; 4]] (column i U)) j 0).
Proof.
  apply (proj1 checkContr_U_krylov 2%nat [[1; 2]; [3; 4]] [[5]; [6]]).
  - by repeat constructor.
  - by repeat constructor.
Defined.

(** C3 (the code departs from it). [checkContr] decides by the determinant
    that [np.linalg.det] returns.  Whenever that is 0, it prints its
    diagnostic and returns 0 for k, k_c and P together with det_U = 0, and
    computes no gain; F = [[1,0],[0,1]] with g = [[0],[0]] is such a model.
    A singular controllability matrix need not be one.  For
    F = [[1,0],[0,1]] and g = [[3],[5]], U = [[3,3],[5,5]] has determinant
    0; when the factorisations of U and of P = U U_c leave a residue, as
    numpy's do, [checkContr] prints nothing and returns a gain, with the
    residue as det_U. *)
Theorem checkContr_singular_no_gain :
  (∀ (L : Lapack) (model : results.Model) (poles : R * R) (dim : nat)
     (out : list string) (U : matrix R),
     results.checkContr_U (results.F model) (results.g model) dim = Ok U →
     np.det U = Ok 0 →
     results.checkContr model poles dim out
     = (Ok (PyInt 0, PyInt 0, PyInt 0, 0), out ++ ["system not controlable"]))
  ∧ (∀ (L : Lapack) (c : matrix R) (d : R) (poles : R * R)
       (out : list string),
       results.checkContr (results.mkModel [[1; 0]; [0; 1]] [[0]; [0]] c d)
         poles 2 out
       = (Ok (PyInt 0, PyInt 0, PyInt 0, 0), out ++ ["system not controlable"]))
  ∧ (∀ (L : Lapack) (c : matrix R) (d : R) (poles : R * R)
       (out : list string),
       let U := [[3; 3]; [5; 5]] in
       let P := mmul U [[- (1 + 1); 1]; [1; 0]] in
       lu_residue U ≠ 0 → lu_residue P ≠ 0 →
       mdet U = 0
       ∧ results.checkContr_U [[1; 0]; [0; 1]] [[3]; [5]] 2 = Ok U
       ∧ ∃ k_c,
           results.checkContr
             (results.mkModel [[1; 0]; [0; 1]] [[3]; [5]] c d) poles 2 out
           = (Ok (PyArr (mmul k_c (lu_inverse P)), PyArr k_c, PyArr P,
                  lu_residue U), out)).
Proof.
  split; [| split].
  - intros L model poles dim out U HU Hdet. by eapply checkContr_singular.
  - intros L c d poles out.
    assert (HU : results.checkContr_U [[1; 0]; [0; 1]] [[0]; [0]] 2
                 = Ok (mzeros 2 2)).
    { rewrite checkContr_U_2. cbn. repeat (f_equal; try lra). }
    eapply checkContr_singular; simpl; [exact HU |].
    rewrite (det_square 2) by apply has_shape_mzeros.
    rewrite decide_True by (cbn; lra). by rewrite lu_residue_zeros.
  - intros L c d [z_sigma z_wd] out U P HresU HresP.
    assert (HdetU : mdet U = 0) by (cbn; lra).
    assert (HU : results.checkContr_U [[1; 0]; [0; 1]] [[3]; [5]] 2 = Ok U).
    { rewrite checkContr_U_2. unfold U. repeat (f_equal; try lra). }
    split; [exact HdetU |]. split; [exact HU |].
    eexists. unfold results.checkContr.
    cbv [mbind Py_bind lift]. cbn [results.F results.g]. rewrite HU.
    rewrite (det_square 2) by (by repeat constructor).
    rewrite decide_True by done.
    rewrite bool_decide_eq_false_2 by done. cbn [negb].
    rewrite (calcK_2_residue 1 0 0 1 z_sigma z_wd 3 3 5 5);
      [reflexivity | cbn; lra | exact HresP].
Qed.

Lemma checkContr_singular_no_gain_witness :
  let U := [[3; 3]; [5; 5]] in
  let P := mmul U [[- (1 + 1); 1]; [1; 0]] in
  mdet U = 0
  ∧ results.checkContr_U [[1; 0]; [0; 1]] [[3]; [5]] 2 = Ok U
  ∧ ∃ k_c,
      results.checkContr (H := rounding_lapack)
        (results.mkModel [[1; 0]; [0; 1]] [[3]; [5]] [[1; 0]] 0)
        (1 / 2, 1 / 2) 2 []
      = (Ok (PyArr (mmul k_c (lu_inverse (Lapack := rounding_lapack) P)),
             PyArr k_c, PyArr P,
             lu_residue (Lapack := rounding_lapack) U), []).
Proof.
  apply (proj2 (proj2 checkContr_singular_no_gain) rounding_lapack
           [[1; 0]] 0 (1 / 2, 1 / 2) []).
  - cbn. rewrite decide_False; [lra |].
    intros HF. apply Forall_cons in HF as [HF _].
    apply Forall_cons in HF as [HF _]. lra.
  - cbn. rewrite decide_False; [lra |].
    intros HF. apply Forall_cons in HF as [HF _].
    apply Forall_cons in HF as [_ HF]. apply Forall_cons in HF as [HF _].
    lra.
Defined.

(** C4 (the code departs from it). The observability matrix is built as
    stated: row 0 is c and row i is c F^i.  [checkObs] decides by the
    determinant that [np.linalg.det] returns.  Whenever that is 0, it
    prints its diagnostic and skips [calcM], and then raises ValueError:
    the singular branch unpacks the three values [0, 0, 0] into the two
    names [mc, mp].  It does not return det_V.  F = [[1,0],[0,1]] with
    c = [[0,0]] is such a model. *)
Theorem checkObs_singular_raises :
  (∀ (n : nat) (F c : matrix R),
     has_shape n n F → has_shape 1 n c →
     ∃ V, results.checkObs_V F c n = Ok V ∧ has_shape n n V
       ∧ (∀ j, (j < n)%nat → entry V 0 j = entry c 0 j)
       ∧ (∀ i j, (1 ≤ i < n)%nat → (j < n)%nat →
            entry V i j = entry (mmul c (mpow F i)) 0 j))
  ∧ (∀ (L : Lapack) (model : results.Model) (poles : R * R) (dim : nat)
       (out : list string) (V : matrix R),
       results.checkObs_V (results.F model) (results.c model) dim = Ok V →
       np.det V = Ok 0 →
       results.checkObs model poles dim out
       = (Raise ValueError, out ++ ["system not observable"]))
  ∧ (∀ (L : Lapack) (g : matrix R) (d : R) (poles : R * R)
       (out : list string),
       results.checkObs (results.mkModel [[1; 0]; [0; 1]] g [[0; 0]] d)
         poles 2 out
       = (Raise ValueError, out ++ ["system not observable"])).
Proof.
  split; [exact checkObs_V_spec |]. split.
  - intros L model poles dim out V HV Hdet. by eapply checkObs_singular.
  - intros L g d poles out.
    assert (HV : results.checkObs_V [[1; 0]; [0; 1]] [[0; 0]] 2
                 = Ok (mzeros 2 2)).
    { cbn. repeat (f_equal; try lra). }
    eapply checkObs_singular; simpl; [exact HV |].
    rewrite (det_square 2) by apply has_shape_mzeros.
    rewrite decide_True by (cbn; lra). by rewrite lu_residue_zeros.
Qed.

Lemma checkObs_singular_raises_witness :
  results.checkObs (H := rounding_lapack)
    (results.mkModel [[1; 0]; [0; 1]] [[0]; [0]] [[0; 0]] 0)
    (1 / 2, 1 / 2) 2 []
  = (Raise ValueError, [] ++ ["system not observable"]).
Proof.
  apply (proj1 (proj2 checkObs_singular_raises) rounding_lapack
           (results.mkModel [[1; 0]; [0; 1]] [[0]; [0]] [[0; 0]] 0)
           (1 / 2, 1 / 2) 2%nat []
           [[0; 0]; [0 * 1 + (0 * 0 + 0); 0 * 0 + (0 * 1 + 0)]]).
  - reflexivity.
  - unfold np.det. cbn [rows cols length Nat.eqb].
    rewrite decide_True by (cbn; lra). f_equal. cbn.
    rewrite decide_True; [done |].
    repeat constructor; lra.
Defined.

(** C1. For a 2 by 2 matrix F and a 2 by 1 vector g whose controllability
    matrix U = [g, F g] is regular, and any pole pair, [checkContr] returns
    the gain k with k_c the differences of the coefficients of the
    closed-loop and open-loop polynomials, P = U U_c and k P = k_c, and the
    closed loop has the requested characteristic polynomial:
    det(z I - (F - g k)) = z^2 - 2 z_sigma z + (z_sigma^2 + z_wd^2). *)
Theorem checkContr_places_poles (L : Lapack)
    (a b c d g0 g1 z_sigma z_wd : R) (cm : matrix R) (dm : R)
    (out : list string) :
  mdet [[g0; a * g0 + b * g1]; [g1; c * g0 + d * g1]] ≠ 0 →
  ∃ k k_c P detU,
    results.checkContr (results.mkModel [[a; b]; [c; d]] [[g0]; [g1]] cm dm)
      (z_sigma, z_wd) 2 out
    = (Ok (PyArr k, PyArr k_c, PyArr P, detU), out)
    ∧ detU = mdet [[g0; a * g0 + b * g1]; [g1; c * g0 + d * g1]]
    ∧ k_c = [[z_sigma * z_sigma + z_wd * z_wd - (a * d - b * c);
              - (2 * z_sigma) - - (a + d)]]
    ∧ P = mmul [[g0; a * g0 + b * g1]; [g1; c * g0 + d * g1]]
               [[- (a + d); 1]; [1; 0]]
    ∧ mmul k P = k_c
    ∧ ∀ z : R,
        mdet (msub (mscale z (meye 2))
                   (msub [[a; b]; [c; d]] (mmul [[g0]; [g1]] k)))
        = z * z - 2 * z_sigma * z + (z_sigma * z_sigma + z_wd * z_wd).
Proof.
  intros HU.
  set (U := [[g0; a * g0 + b * g1]; [g1; c * g0 + d * g1]]) in *.
  set (P := mmul U [[- (a + d); 1]; [1; 0]]).
  assert (HP : mdet P ≠ 0).
  { intros Heq. apply HU. cbn in Heq |- *. lra. }
  eexists _, _, P, _. split.
  { apply (checkContr_controllable _ _ _ _ U); simpl.
    - apply checkContr_U_2.
    - done.
    - by apply calcK_2. }
  split; [done |]. split; [done |]. split; [done |].
  assert (HP' : g0 * (c * g0 + d * g1) - g1 * (a * g0 + b * g1) ≠ 0).
  { intros Heq. apply HU. cbn. lra. }
  split.
  - cbn. repeat (f_equal; try (field; lra)).
  - intros z. cbn. field. lra.
Qed.

Lemma checkContr_places_poles_witness :
  ∃ k k_c P detU,
    results.checkContr (H := rounding_lapack)
      (results.mkModel [[0; 1]; [0; 0]] [[0]; [1]] [[1; 0]] 0)
      (1 / 2, 1 / 2) 2 []
    = (Ok (PyArr k, PyArr k_c, PyArr P, detU), [])
    ∧ detU = mdet [[0; 0 * 0 + 1 * 1]; [1; 0 * 0 + 0 * 1]]
    ∧ k_c = [[1 / 2 * (1 / 2) + 1 / 2 * (1 / 2) - (0 * 0 - 1 * 0);
              - (2 * (1 / 2)) - - (0 + 0)]]
    ∧ P = mmul [[0; 0 * 0 + 1 * 1]; [1; 0 * 0 + 0 * 1]]
               [[- (0 + 0); 1]; [1; 0]]
    ∧ mmul k P = k_c
    ∧ ∀ z : R,
        mdet (msub (mscale z (meye 2))
                   (msub [[0; 1]; [0; 0]] (mmul [[0]; [1]] k)))
        = z * z - 2 * (1 / 2) * z + (1 / 2 * (1 / 2) + 1 / 2 * (1 / 2)).
Proof.
  apply (checkContr_places_poles rounding_lapack
           0 1 0 0 0 1 (1 / 2) (1 / 2) [[1; 0]] 0 []).
  cbn. lra.
Defined.

(** ** requirements.py: every input of [calcRequirements] *)

Section RequirementsCases.
Import requirements.
Context {N : NonFinite}.

Lemma div_nonzero (x y : R) : x ≠ 0 → y ≠ 0 → x / y ≠ 0.
Proof.
  intros Hx Hy. unfold Rdiv.
  apply Rmult_integral_contrapositive_currified; [done |].
  by apply Rinv_neq_0_compat.
Qed.

Lemma py_div_cases (x y : R) :
  (y = 0 ∧ py_div x y = Raise ZeroDivisionError)
  ∨ (y ≠ 0 ∧ py_div x y = Ok (x / y)).
Proof.
  destruct (decide (y = 0)) as [-> | Hy].
  - left. by rewrite py_div_zero.
  - right. by rewrite py_div_ok.
Qed.

(** Steps 1 and 2 return, and what they return is zero only if they
    changed nothing. *)
Lemma step_1_cases (ts sigma : R) :
  ∃ s, step_1 ts sigma = Ok s
    ∧ ((ts ≠ 0 ∧ sigma = 0 ∧ s = 4 / ts ∧ s ≠ 0) ∨ ((ts = 0 ∨ sigma ≠ 0) ∧ s = sigma)).
Proof.
  unfold step_1. destruct (decide (ts = 0)) as [Hts | Hts].
  - rewrite (bool_decide_eq_true_2 _ Hts). simpl. eauto 6.
  - rewrite (bool_decide_eq_false_2 _ Hts). simpl.
    destruct (decide (sigma = 0)) as [Hs | Hs].
    + rewrite (bool_decide_eq_true_2 _ Hs), py_div_ok by done.
      eexists. split; [done |]. left. repeat split; try done.
      apply div_nonzero; [lra | done].
    + rewrite (bool_decide_eq_false_2 _ Hs). eauto 6.
Qed.

Lemma step_3_cases (wn zeta sigma : R) :
  (wn = 0 ∧ sigma ≠ 0 ∧ zeta = 0 ∧ step_3 wn zeta sigma = Raise ZeroDivisionError)
  ∨ (wn = 0 ∧ sigma ≠ 0 ∧ zeta ≠ 0 ∧ step_3 wn zeta sigma = Ok (sigma / zeta))
  ∨ ((wn ≠ 0 ∨ sigma = 0) ∧ step_3 wn zeta sigma = Ok wn).
Proof.
  unfold step_3. destruct (decide (wn = 0)) as [Hwn | Hwn].
  - rewrite (bool_decide_eq_true_2 _ Hwn).
    destruct (decide (sigma = 0)) as [Hs | Hs].
    + rewrite (bool_decide_eq_true_2 _ Hs). simpl. eauto.
    + rewrite (bool_decide_eq_false_2 _ Hs). simpl.
      destruct (py_div_cases sigma zeta) as [[Hz ->] | [Hz ->]]; eauto 10.
  - rewrite (bool_decide_eq_false_2 _ Hwn). eauto.
Qed.

(** Step 4 divides by [wn] only when step 3 has left it nonzero. *)
Lemma step_4_cases (wn zeta sigma : R) :
  (wn ≠ 0 ∨ sigma = 0) →
  (zeta = 0 ∧ sigma ≠ 0 ∧ wn ≠ 0 ∧ step_4 wn zeta sigma = Ok (sigma / wn))
  ∨ ((zeta ≠ 0 ∨ sigma = 0) ∧ step_4 wn zeta sigma = Ok zeta).
Proof.
  intros Hwn. unfold step_4. destruct (decide (zeta = 0)) as [Hz | Hz].
  - rewrite (bool_decide_eq_true_2 _ Hz).
    destruct (decide (sigma = 0)) as [Hs | Hs].
    + rewrite (bool_decide_eq_true_2 _ Hs). simpl. eauto.
    + rewrite (bool_decide_eq_false_2 _ Hs). simpl.
      destruct Hwn as [Hwn | Hwn]; [| done].
      rewrite py_div_ok by done. left. eauto.
  - rewrite (bool_decide_eq_false_2 _ Hz). eauto.
Qed.

Lemma step_5_skip (r : Requirements) :
  wn r = 0 ∨ zeta r = 0 → step_5 r = Ok r.
Proof.
  intros Hz. unfold step_5.
  destruct Hz as [Hz | Hz]; rewrite (bool_decide_eq_true_2 _ Hz); simpl;
    [done | by rewrite andb_false_r].
Qed.

Lemma step_5_returns (r : Requirements) : ∃ out, step_5 r = Ok out.
Proof.
  destruct (decide (wn r = 0)) as [Hwn | Hwn];
    [rewrite step_5_skip by eauto; eauto |].
  destruct (decide (zeta r = 0)) as [Hz | Hz];
    [rewrite step_5_skip by eauto; eauto |].
  rewrite step_5_known by done. eauto.
Qed.
End RequirementsCases.

Section RequirementsSteps.
Import requirements.

(** What steps 1-4 return, by cases on what was supplied. *)
Lemma steps_1_4_cases (r : Requirements) (s : R) :
  step_1 (ts r) (sigma r) = Ok s →
  ∃ wd', step_2 (tp r) (wd r) = Ok wd'
    ∧ ((wn r = 0 ∧ zeta r = 0 ∧ s ≠ 0
        ∧ steps_1_4 r = Raise ZeroDivisionError)
       ∨ (wn r = 0 ∧ zeta r ≠ 0 ∧ s ≠ 0
          ∧ steps_1_4 r
            = Ok (mkReq (s / zeta r) (zeta r) (ts r) (tr r) (tp r) wd' s))
       ∨ (wn r ≠ 0 ∧ zeta r = 0 ∧ s ≠ 0
          ∧ steps_1_4 r
            = Ok (mkReq (wn r) (s / wn r) (ts r) (tr r) (tp r) wd' s))
       ∨ (((wn r ≠ 0 ∧ zeta r ≠ 0) ∨ s = 0)
          ∧ steps_1_4 r
            = Ok (mkReq (wn r) (zeta r) (ts r) (tr r) (tp r) wd' s))).
Proof.
  intros Hs. destruct (step_2_ok (tp r) (wd r)) as [wd' Hwd].
  exists wd'. split; [done |]. unfold steps_1_4. rewrite Hs, Hwd. simpl_bind.
  destruct (step_3_cases (wn r) (zeta r) s)
    as [(Hwn & Hsn & Hz & ->) | [(Hwn & Hsn & Hz & ->) | [Hwn ->]]];
    simpl_bind.
  - left. done.
  - right. left.
    destruct (step_4_cases (s / zeta r) (zeta r) s)
      as [(? & _) | [_ ->]]; [left; by apply div_nonzero | done |].
    done.
  - right. right.
    destruct (step_4_cases (wn r) (zeta r) s Hwn)
      as [(Hz & Hsn & Hwn' & ->) | [Hz ->]]; simpl_bind.
    + left. done.
    + right. split; [| done].
      destruct (decide (s = 0)); [by right | left].
      split; [by destruct Hwn | by destruct Hz].
Qed.

Lemma step_1_again (ts sigma s : R) :
  step_1 ts sigma = Ok s → step_1 ts s = Ok s.
Proof.
  intros Hs. destruct (step_1_cases ts sigma) as (s' & Hs' & Hc).
  rewrite Hs in Hs'. injection Hs' as <-.
  destruct (step_1_cases ts s) as (s2 & -> & [(Hts' & Hz & _ & _) | [_ ->]]);
    [| done].
  by destruct Hc as [(_ & _ & _ & Hne) | [[Hts | Hne] ->]].
Qed.

Lemma step_2_again (tp wd wd' : R) :
  step_2 tp wd = Ok wd' → step_2 tp wd' = Ok wd'.
Proof.
  unfold step_2. destruct (decide (tp = 0)) as [Htp | Htp].
  - rewrite (bool_decide_eq_true_2 _ Htp). simpl. by intros [= ->].
  - rewrite (bool_decide_eq_false_2 _ Htp). simpl.
    destruct (decide (wd = 0)) as [Hwd | Hwd].
    + rewrite (bool_decide_eq_true_2 _ Hwd), py_div_ok by done.
      intros [= <-]. rewrite bool_decide_eq_false_2; [done |].
      apply div_nonzero; [apply PI_neq0 | done].
    + rewrite (bool_decide_eq_false_2 _ Hwd). intros [= <-].
      by rewrite (bool_decide_eq_false_2 _ Hwd).
Qed.
End RequirementsSteps.

(** X1. Steps 1-4 of [calcRequirements] raise in one way only:
    ZeroDivisionError when [wn] and [zeta] are both zero and sigma or [ts]
    is not, and [calcRequirements] raises it then.  On every other input
    steps 1-4 return, and [calcRequirements] returns when step 5 is
    skipped ([wn] or [zeta] zero after step 4) or when the product
    zeta*wn of step 5 is not one that binary64 rounds to zero. *)
Theorem calcRequirements_raises_exactly
    (N : NonFinite) (r : requirements.Requirements) :
  (requirements.calcRequirements r = Raise ZeroDivisionError
   ∧ requirements.steps_1_4 r = Raise ZeroDivisionError
   ∧ requirements.wn r = 0 ∧ requirements.zeta r = 0
   ∧ (requirements.sigma r ≠ 0 ∨ requirements.ts r ≠ 0))
  ∨ (¬ (requirements.wn r = 0 ∧ requirements.zeta r = 0
        ∧ (requirements.sigma r ≠ 0 ∨ requirements.ts r ≠ 0))
     ∧ ∃ m, requirements.steps_1_4 r = Ok m
         ∧ (requirements.wn m = 0 ∨ requirements.zeta m = 0
            ∨ smallest_binary64
                <= Rabs (requirements.zeta m * requirements.wn m) →
            ∃ out, requirements.calcRequirements r = Ok out)).
Proof.
  destruct (step_1_cases (requirements.ts r) (requirements.sigma r))
    as (s & Hs1 & Hs).
  assert (Hs0 : s ≠ 0 ↔ requirements.sigma r ≠ 0 ∨ requirements.ts r ≠ 0).
  { destruct Hs as [(Hts & Hsig & -> & Hne) | [Hor ->]]; [tauto |].
    split; [tauto |]. intros [? | ?]; [done |]. by destruct Hor. }
  assert (Hret : ∀ m, requirements.steps_1_4 r = Ok m →
            ∃ out, requirements.calcRequirements r = Ok out).
  { intros m Hm. unfold requirements.calcRequirements. rewrite Hm.
    simpl_bind. apply step_5_returns. }
  destruct (steps_1_4_cases r s Hs1)
    as (wd' & _ & [(Hwn & Hz & Hsn & H14) | [(Hwn & Hz & Hsn & H14)
        | [(Hwn & Hz & Hsn & H14) | [Hc H14]]]]).
  - left. unfold requirements.calcRequirements. rewrite H14. tauto.
  - right. split; [tauto |]. eauto.
  - right. split; [tauto |]. eauto.
  - right. split; [| eauto].
    intros (Hw & Hz & Hor). apply Hs0 in Hor.
    destruct Hc as [[? ?] | ?]; done.
Qed.

Section RequirementsAgain.
Import requirements.
Context {N : NonFinite}.

(** With [wn] and [zeta] supplied, nothing else that was supplied counts. *)
Lemma calcRequirements_supplied (r : Requirements) :
  wn r ≠ 0 → zeta r ≠ 0 →
  calcRequirements r = step_5 (mkReq (wn r) (zeta r) 0 0 0 0 0).
Proof.
  intros Hwn Hz. destruct (step_1_cases (ts r) (sigma r)) as (s & Hs & _).
  destruct (steps_1_4_cases r s Hs)
    as (wd' & _ & [(? & _) | [(? & _) | [(_ & ? & _) | [_ H14]]]]);
    try done.
  unfold calcRequirements. rewrite H14. simpl_bind.
  by rewrite !step_5_known.
Qed.

Lemma step_5_keeps (r out : Requirements) :
  step_5 r = Ok out → wn out = wn r ∧ zeta out = zeta r.
Proof.
  destruct (decide (wn r = 0)) as [Hwn | Hwn];
    [rewrite step_5_skip by eauto; by intros [= <-] |].
  destruct (decide (zeta r = 0)) as [Hz | Hz];
    [rewrite step_5_skip by eauto; by intros [= <-] |].
  rewrite step_5_known by done. by intros [= <-].
Qed.

Lemma step_5_again (r out : Requirements) :
  wn r ≠ 0 → zeta r ≠ 0 → step_5 r = Ok out → calcRequirements out = Ok out.
Proof.
  intros Hwn Hz Hout. destruct (step_5_keeps r out Hout) as [Hw Hzt].
  rewrite calcRequirements_supplied by congruence.
  rewrite Hw, Hzt. rewrite <- Hout. by rewrite !step_5_known.
Qed.
End RequirementsAgain.

(** X2. What [calcRequirements] returns is complete: given back to it,
    the same seven values are returned.  (For a damping ratio of square
    below 1, where [np.sqrt] and [np.pi/wd] are finite.) *)
Theorem calcRequirements_idempotent
    (N : NonFinite) (r out : requirements.Requirements) :
  requirements.calcRequirements r = Ok out →
  requirements.zeta out * requirements.zeta out < 1 →
  requirements.calcRequirements out = Ok out.
Proof.
  intros Hout _.
  destruct (step_1_cases (requirements.ts r) (requirements.sigma r))
    as (s & Hs & _).
  destruct (steps_1_4_cases r s Hs)
    as (wd' & Hwd & [(_ & _ & _ & H14) | [(Hwn & Hz & Hsn & H14)
        | [(Hwn & Hz & Hsn & H14) | [Hc H14]]]]);
    unfold requirements.calcRequirements in Hout; rewrite H14 in Hout;
    simpl in Hout; try done.
  - eapply step_5_again; [| | exact Hout]; simpl; [by apply div_nonzero | done].
  - eapply step_5_again; [| | exact Hout]; simpl; [done | by apply div_nonzero].
  - destruct (decide (requirements.wn r = 0)) as [Hwn | Hwn];
      [| destruct (decide (requirements.zeta r = 0)) as [Hz | Hz]];
      [| | by eapply step_5_again; [| | exact Hout]].
    all: assert (Hs0 : s = 0) by (destruct Hc as [[? ?] | ?]; done).
    all: rewrite step_5_skip in Hout by (simpl; eauto).
    all: injection Hout as <-. all: subst s.
    all: unfold requirements.calcRequirements, requirements.steps_1_4; simpl.
    all: rewrite (step_1_again _ _ _ Hs), (step_2_again _ _ _ Hwd); simpl_bind.
    all: destruct (step_3_cases (requirements.wn r) (requirements.zeta r) 0)
           as [(_ & ? & _) | [(_ & ? & _) | [_ ->]]]; try done; simpl_bind.
    all: destruct (step_4_cases (requirements.wn r) (requirements.zeta r) 0)
           as [(_ & ? & _) | [_ ->]]; try done; eauto; simpl_bind.
    all: by rewrite step_5_skip by (simpl; eauto).
Qed.

Lemma calcRequirements_idempotent_witness :
  requirements.calcRequirements (H := sample_nonfinite)
    (requirements.mkReq 2 (1 / 2) 4 (9 / 10) (PI / sqrt 3) (sqrt 3) 1)
  = Ok (requirements.mkReq 2 (1 / 2) 4 (9 / 10) (PI / sqrt 3) (sqrt 3) 1).
Proof.
  apply (calcRequirements_idempotent sample_nonfinite
           (requirements.mkReq 0 (1 / 2) 4 0 0 0 0)).
  - apply calcRequirements_from_ts.
  - simpl. lra.
Defined.

(** X3. The values supplied for [tr], [tp] and [wd] have no influence on
    whether [calcRequirements] raises, nor on the [wn], [zeta], sigma and
    [ts] that it returns. *)
Theorem calcRequirements_ignores_tr_tp_wd
    (N : NonFinite) (r : requirements.Requirements) (tr' tp' wd' : R) :
  match requirements.calcRequirements r,
        requirements.calcRequirements
          (requirements.mkReq (requirements.wn r) (requirements.zeta r)
             (requirements.ts r) tr' tp' wd' (requirements.sigma r)) with
  | Ok out, Ok out' =>
      requirements.wn out = requirements.wn out'
      ∧ requirements.zeta out = requirements.zeta out'
      ∧ requirements.sigma out = requirements.sigma out'
      ∧ requirements.ts out = requirements.ts out'
  | Raise e, Raise e' => e = e'
  | _, _ => False
  end.
Proof.
  set (r' := requirements.mkReq _ _ _ _ _ _ _).
  destruct (step_1_cases (requirements.ts r) (requirements.sigma r))
    as (s & Hs & _).
  assert (Hs' : requirements.step_1 (requirements.ts r')
                  (requirements.sigma r') = Ok s) by done.
  destruct (steps_1_4_cases r s Hs)
    as (w & _ & [(Hwn & Hz & Hsn & H14) | [(Hwn & Hz & Hsn & H14)
        | [(Hwn & Hz & Hsn & H14) | [Hc H14]]]]);
    destruct (steps_1_4_cases r' s Hs')
    as (w' & _ & [(Hwn' & Hz' & Hsn' & H14') | [(Hwn' & Hz' & Hsn' & H14')
        | [(Hwn' & Hz' & Hsn' & H14') | [Hc' H14']]]]);
    simpl in *; try done;
    try (destruct Hc as [[? ?] | ?]; done);
    try (destruct Hc' as [[? ?] | ?]; done);
    unfold requirements.calcRequirements; rewrite H14, H14'; simpl_bind;
    try done.
  - rewrite !step_5_known by (simpl; done || by apply div_nonzero). done.
  - rewrite !step_5_known by (simpl; done || by apply div_nonzero). done.
  - destruct (decide (requirements.wn r = 0)) as [Hwn | Hwn];
      [| destruct (decide (requirements.zeta r = 0)) as [Hz | Hz]].
    + by rewrite !step_5_skip by (simpl; eauto).
    + by rewrite !step_5_skip by (simpl; eauto).
    + by rewrite !step_5_known by done.
Qed.

(** X4. When exactly one of [wn] and [zeta] is supplied and sigma, as
    supplied or as 4/ts, is not zero, [calcRequirements] returns; the
    missing one of the pair is sigma divided by the supplied one, sigma is
    returned as it was after step 1 and [ts] as 4/sigma; when sigma was
    derived from [ts], [ts] is returned as supplied. *)
Theorem calcRequirements_completes_pair
    (N : NonFinite) (r : requirements.Requirements) (s : R) :
  requirements.step_1 (requirements.ts r) (requirements.sigma r) = Ok s →
  s ≠ 0 →
  (requirements.wn r = 0 ∧ requirements.zeta r ≠ 0)
  ∨ (requirements.wn r ≠ 0 ∧ requirements.zeta r = 0) →
  ∃ out, requirements.calcRequirements r = Ok out
    ∧ requirements.sigma out = s
    ∧ requirements.ts out = 4 / s
    ∧ (requirements.wn r = 0 →
         requirements.zeta out = requirements.zeta r
         ∧ requirements.wn out = s / requirements.zeta r)
    ∧ (requirements.zeta r = 0 →
         requirements.wn out = requirements.wn r
         ∧ requirements.zeta out = s / requirements.wn r)
    ∧ (requirements.sigma r = 0 → requirements.ts out = requirements.ts r).
Proof.
  intros Hs Hsn Hpair.
  assert (Hts : requirements.sigma r = 0 → 4 / s = requirements.ts r).
  { intros H0.
    destruct (step_1_cases (requirements.ts r) (requirements.sigma r))
      as (s' & Hs' & Hc).
    rewrite Hs in Hs'. injection Hs' as <-.
    destruct Hc as [(Hts & _ & Heq & _) | [_ Heq]]; [| congruence].
    rewrite Heq. by field. }
  destruct (steps_1_4_cases r s Hs)
    as (wd' & _ & [(Hwn & Hz & _ & H14) | [(Hwn & Hz & _ & H14)
        | [(Hwn & Hz & _ & H14) | [Hc H14]]]]).
  - by destruct Hpair as [[_ ?] | [? _]].
  - unfold requirements.calcRequirements. rewrite H14. simpl_bind.
    rewrite step_5_known by (simpl; done || by apply div_nonzero).
    eexists. split; [done |]. simpl.
    assert (Hsig : requirements.zeta r * (s / requirements.zeta r) = s)
      by by field.
    rewrite Hsig. repeat split; try done.
  - unfold requirements.calcRequirements. rewrite H14. simpl_bind.
    rewrite step_5_known by (simpl; done || by apply div_nonzero).
    eexists. split; [done |]. simpl.
    assert (Hsig : s / requirements.wn r * requirements.wn r = s) by by field.
    rewrite Hsig. repeat split; try done.
  - destruct Hc as [[Hwn Hz] | ?]; [| done].
    by destruct Hpair as [[? _] | [_ ?]].
Qed.

Lemma calcRequirements_completes_pair_witness :
  ∃ out, requirements.calcRequirements (H := sample_nonfinite)
           (requirements.mkReq 0 (1 / 2) 4 0 0 0 0)
         = Ok out
    ∧ requirements.sigma out = 4 / 4
    ∧ requirements.ts out = 4 / (4 / 4)
    ∧ (0 = 0 → requirements.zeta out = 1 / 2
               ∧ requirements.wn out = 4 / 4 / (1 / 2))
    ∧ (1 / 2 = 0 → requirements.wn out = 0
                   ∧ requirements.zeta out = 4 / 4 / 0)
    ∧ (0 = 0 → requirements.ts out = 4).
Proof.
  apply (calcRequirements_completes_pair sample_nonfinite
           (requirements.mkReq 0 (1 / 2) 4 0 0 0 0) (4 / 4)).
  - simpl. apply step_1_from_ts. lra.
  - lra.
  - left. simpl. split; lra.
Defined.

(** X5. The values that [calcRequirements] returns with [wn] and [zeta]
    not zero and a damping ratio of square below 1 belong to one pole pair:
    sigma = zeta wn, sigma^2 + wd^2 = wn^2, ts sigma = 4, tp wd = pi and
    tr wn = 1.8, whatever was supplied. *)
Theorem calcRequirements_consistent
    (N : NonFinite) (r out : requirements.Requirements) :
  requirements.calcRequirements r = Ok out →
  requirements.wn out ≠ 0 → requirements.zeta out ≠ 0 →
  requirements.zeta out * requirements.zeta out < 1 →
  requirements.sigma out = requirements.zeta out * requirements.wn out
  ∧ requirements.sigma out * requirements.sigma out
    + requirements.wd out * requirements.wd out
    = requirements.wn out * requirements.wn out
  ∧ requirements.ts out * requirements.sigma out = 4
  ∧ requirements.tp out * requirements.wd out = PI
  ∧ requirements.tr out * requirements.wn out = 18 / 10.
Proof.
  intros Hout Hwn Hzeta Hlt.
  unfold requirements.calcRequirements in Hout.
  apply bind_Ok in Hout as (m & _ & Hout).
  destruct (step_5_keeps m out Hout) as [Hw Hz].
  rewrite step_5_underdamped in Hout by congruence.
  injection Hout as <-. simpl in *.
  set (w := requirements.wn m) in *. set (z := requirements.zeta m) in *.
  assert (Hs : sqrt (1 - z * z) * sqrt (1 - z * z) = 1 - z * z)
    by (apply sqrt_sqrt; lra).
  assert (Hs0 : sqrt (1 - z * z) ≠ 0).
  { intros H0. rewrite H0 in Hs. lra. }
  split; [done |]. split; [| split; [| split]].
  - replace (w * sqrt (1 - z * z) * (w * sqrt (1 - z * z)))
      with (w * w * (sqrt (1 - z * z) * sqrt (1 - z * z))) by ring.
    rewrite Hs. ring.
  - by field.
  - by field.
  - by field.
Qed.

Lemma calcRequirements_consistent_witness :
  let out :=
    requirements.mkReq 2 (1 / 2) 4 (9 / 10) (PI / sqrt 3) (sqrt 3) 1 in
  requirements.sigma out = requirements.zeta out * requirements.wn out
  ∧ requirements.sigma out * requirements.sigma out
    + requirements.wd out * requirements.wd out
    = requirements.wn out * requirements.wn out
  ∧ requirements.ts out * requirements.sigma out = 4
  ∧ requirements.tp out * requirements.wd out = PI
  ∧ requirements.tr out * requirements.wn out = 18 / 10.
Proof.
  apply (calcRequirements_consistent sample_nonfinite
           (requirements.mkReq 0 (1 / 2) 4 0 0 0 0)).
  - apply calcRequirements_from_ts.
  - simpl. lra.
  - simpl. lra.
  - simpl. lra.
Defined.

(** ** requirements.py: the entry fields *)

Lemma append_empty_r (s : string) : (s ++ "")%string = s.
Proof.
  induction s as [| a s IH]; [done |].
  change (String a (s ++ "")%string = String a s). by rewrite IH.
Qed.

Lemma truthy_empty (s : string) : truthy s = false ↔ s = "".
Proof. by destruct s. Qed.

Lemma read_field_value `{Builtins} (e : Entry) (x : R) :
  field_value e x → requirements_fields.read_field e 0 = Ok x.
Proof.
  unfold requirements_fields.read_field, Entry_get.
  intros [[He ->] | [He Hx]].
  - by rewrite He.
  - destruct (text e) eqn:Ht; [done |]. simpl. by rewrite <- Hx.
Qed.

(** X6. [readRequirements] returns, in the order wn, zeta, ts, tr, tp, wd,
    sigma, the number that [float] reads from each of the first seven
    fields, and 0 for a field that is empty: [float] is not called on an
    empty field.  Fields beyond the seventh are not looked at. *)
Theorem readRequirements_reads (B : Builtins)
    (e_wn e_zeta e_ts e_tr e_tp e_wd e_sigma : Entry) (rest : list Entry)
    (wn zeta ts tr tp wd sigma : R) :
  field_value e_wn wn → field_value e_zeta zeta → field_value e_ts ts →
  field_value e_tr tr → field_value e_tp tp → field_value e_wd wd →
  field_value e_sigma sigma →
  requirements_fields.readRequirements
    (e_wn :: e_zeta :: e_ts :: e_tr :: e_tp :: e_wd :: e_sigma :: rest)
  = Ok (requirements.mkReq wn zeta ts tr tp wd sigma).
Proof.
  intros Hwn Hzeta Hts Htr Htp Hwd Hsigma.
  unfold requirements_fields.readRequirements. simpl.
  rewrite (read_field_value _ _ Htr). simpl_bind.
  rewrite (read_field_value _ _ Hwn). simpl_bind.
  rewrite (read_field_value _ _ Hzeta). simpl_bind.
  rewrite (read_field_value _ _ Hts). simpl_bind.
  rewrite (read_field_value _ _ Htp). simpl_bind.
  rewrite (read_field_value _ _ Hwd). simpl_bind.
  by rewrite (read_field_value _ _ Hsigma).
Qed.

Lemma readRequirements_reads_witness :
  requirements_fields.readRequirements (H := sample_builtins)
    [mkEntry "1"; mkEntry ""; mkEntry ""; mkEntry ""; mkEntry "";
     mkEntry "0"; mkEntry "1"]
  = Ok (requirements.mkReq 1 0 0 0 0 0 1).
Proof.
  apply (readRequirements_reads sample_builtins);
    first [ by left | by right ].
Defined.

(** X7. On fewer than seven fields [readRequirements] raises IndexError,
    whatever the fields hold: all seven are taken from the list before any
    of them is read. *)
Theorem readRequirements_short_raises (B : Builtins) (entries : list Entry) :
  (length entries < 7)%nat →
  requirements_fields.readRequirements entries = Raise IndexError.
Proof.
  intros Hlen.
  do 7 (destruct entries as [| ? entries]; [done |]). simpl in Hlen. lia.
Qed.

Lemma readRequirements_short_raises_witness :
  requirements_fields.readRequirements (H := sample_builtins)
    [mkEntry "x"; mkEntry "1"]
  = Raise IndexError.
Proof.
  apply (readRequirements_short_raises sample_builtins). simpl. lia.
Defined.

Lemma calcRequirements_zeros (N : NonFinite) :
  requirements.calcRequirements (requirements.mkReq 0 0 0 0 0 0 0)
  = Ok (requirements.mkReq 0 0 0 0 0 0 0).
Proof.
  unfold requirements.calcRequirements, requirements.steps_1_4,
    requirements.step_1, requirements.step_2, requirements.step_3,
    requirements.step_4. simpl.
  rewrite (bool_decide_eq_true_2 (0 = 0)) by done.
  cbn [negb andb]. simpl_bind.
  rewrite (bool_decide_eq_true_2 (0 = 0)) by done.
  cbn [negb]. simpl_bind. apply step_5_skip. by left.
Qed.

(** X8. A form whose first seven fields are empty: [readRequirements]
    followed by [calcRequirements] returns seven zeros and raises
    nothing. *)
Theorem blank_form_gives_zeros
    (B : Builtins) (N : NonFinite) (entries : list Entry) :
  (7 ≤ length entries)%nat →
  Forall (λ e, text e = "") (take 7 entries) →
  requirements_fields.readRequirements entries ≫=
    requirements.calcRequirements
  = Ok (requirements.mkReq 0 0 0 0 0 0 0).
Proof.
  intros Hlen Hempty.
  do 7 (destruct entries as [| ? entries]; [simpl in Hlen; lia |]).
  simpl in Hempty.
  repeat match goal with
         | H : Forall _ (_ :: _) |- _ => apply Forall_cons in H as [? H]
         end.
  unfold requirements_fields.readRequirements. simpl.
  rewrite !(read_field_value _ 0) by (by left).
  simpl_bind. apply calcRequirements_zeros.
Qed.

Lemma blank_form_gives_zeros_witness :
  requirements_fields.readRequirements (H := sample_builtins)
    (replicate 7 (mkEntry ""))
    ≫= requirements.calcRequirements (H := sample_nonfinite)
  = Ok (requirements.mkReq 0 0 0 0 0 0 0).
Proof.
  apply (blank_form_gives_zeros sample_builtins sample_nonfinite).
  - simpl. lia.
  - simpl. repeat constructor.
Defined.

Section ClearRequirements.
Import value_exchange.

Lemma clear_loop (entries : list Entry) :
  for_range 0 (length entries) (λ i entries,
    e ← index entries i; Ok (<[i := Entry_delete e]> entries)) entries
  = Ok ((λ _, mkEntry "") <$> entries).
Proof.
  destruct (for_range_invariant
    (λ i es, length es = length entries
       ∧ ∀ k, es !! k = if (k <? i)%nat then (λ _, mkEntry "") <$> entries !! k
                        else entries !! k)
    0 (length entries)
    (λ i entries, e ← index entries i; Ok (<[i := Entry_delete e]> entries))
    entries) as (es & Hes & Hlen & Hent).
  - lia.
  - done.
  - intros i t Hi (Hlen & Hent).
    destruct (lookup_lt_is_Some_2 t i) as [e He]; [lia |].
    unfold index. rewrite He. simpl_bind.
    eexists. split; [done |]. split; [by rewrite length_insert |].
    intros k. destruct (decide (k = i)) as [-> | Hne].
    + rewrite list_lookup_insert_eq by lia.
      destruct (Nat.ltb_spec i (S i)); [| lia].
      destruct (lookup_lt_is_Some_2 entries i) as [e' ->]; [lia |]. done.
    + rewrite list_lookup_insert_ne by done. rewrite Hent.
      destruct (Nat.ltb_spec k i), (Nat.ltb_spec k (S i)); done || lia.
  - rewrite Hes. f_equal. apply list_eq. intros k.
    rewrite Hent, list_lookup_fmap.
    destruct (Nat.ltb_spec k (length entries)) as [Hk | Hk]; [done |].
    by rewrite lookup_ge_None_2.
Qed.
End ClearRequirements.

(** X9. [clearRequirements] empties every field of the list, however many
    there are, and sets sigma and wd of the store to the integer 0; the
    poles, the sample time, the model and the dimension of the store are as
    they were. *)
Theorem clearRequirements_clears (entries : list Entry)
    (st : value_exchange.ValueExchange) :
  requirements_fields.clearRequirements entries st
  = (Ok ((λ _, mkEntry "") <$> entries),
     value_exchange.mkValueExchange (VInt 0) (VInt 0)
       (value_exchange.z_sigma st) (value_exchange.z_wd st)
       (value_exchange.T st) (value_exchange.F st) (value_exchange.g st)
       (value_exchange.c st) (value_exchange.d st) (value_exchange.dim st)).
Proof.
  unfold requirements_fields.clearRequirements.
  unfold mbind, Py_bind, lift at 1. by rewrite clear_loop.
Qed.

(** ** poles.py *)

(** X10. [calcPoles] maps a pole of negative real part, for a positive
    sample time, into the unit circle: z_sigma^2 + z_wd^2 = e^(2 sigma T),
    which is below 1. *)
Theorem calcPoles_inside_unit_circle (s_sigma s_wd T : R) :
  s_sigma < 0 → 0 < T →
  let '(z_sigma, z_wd) := poles.calcPoles s_sigma s_wd T in
  z_sigma * z_sigma + z_wd * z_wd = exp (2 * (s_sigma * T))
  ∧ z_sigma * z_sigma + z_wd * z_wd < 1.
Proof.
  intros Hs HT. unfold poles.calcPoles, np_exp, np_cos, np_sin.
  assert (Heq : exp (s_sigma * T) * cos (s_wd * T)
                * (exp (s_sigma * T) * cos (s_wd * T))
                + exp (s_sigma * T) * sin (s_wd * T)
                  * (exp (s_sigma * T) * sin (s_wd * T))
                = exp (2 * (s_sigma * T))).
  { replace (2 * (s_sigma * T)) with (s_sigma * T + s_sigma * T) by ring.
    rewrite exp_plus.
    pose proof (sin2_cos2 (s_wd * T)) as Hsc. unfold Rsqr in Hsc.
    replace (exp (s_sigma * T) * cos (s_wd * T)
             * (exp (s_sigma * T) * cos (s_wd * T))
             + exp (s_sigma * T) * sin (s_wd * T)
               * (exp (s_sigma * T) * sin (s_wd * T)))
      with (exp (s_sigma * T) * exp (s_sigma * T)
            * (sin (s_wd * T) * sin (s_wd * T)
               + cos (s_wd * T) * cos (s_wd * T))) by ring.
    rewrite Hsc. ring. }
  split; [exact Heq |]. rewrite Heq. rewrite <- exp_0.
  apply exp_increasing. nra.
Qed.

Lemma calcPoles_inside_unit_circle_witness :
  let '(z_sigma, z_wd) := poles.calcPoles (-1) 1 1 in
  z_sigma * z_sigma + z_wd * z_wd = exp (2 * (-1 * 1))
  ∧ z_sigma * z_sigma + z_wd * z_wd < 1.
Proof.
  apply (calcPoles_inside_unit_circle (-1) 1 1); lra.
Defined.

(** ** poles.py: the fields and the store *)

Section PolesFields.
Import value_exchange poles.
Context `{Builtins}.

Lemma processPoles_returns (z0 z1 : Entry) (rest s_entries : list Entry)
    (e_T : Entry) (s_sigma s_wd T : R) (st : ValueExchange) :
  readPoles s_entries e_T = Ok (s_sigma, s_wd, T) →
  processPoles (z0 :: z1 :: rest) s_entries e_T st
  = (Ok (mkEntry (str (calcPoles s_sigma s_wd T).1)
         :: mkEntry (str (calcPoles s_sigma s_wd T).2) :: rest),
     mkValueExchange (sigma st) (wd st)
       (VFloat (calcPoles s_sigma s_wd T).1)
       (VFloat (calcPoles s_sigma s_wd T).2) (VFloat T)
       (F st) (g st) (c st) (d st) (dim st)).
Proof.
  intros Hr. unfold processPoles. rewrite Hr.
  unfold clearPoles, calcPoles, lift, setPoles.
  unfold mbind, Py_bind, mret, Py_ret. cbn.
  unfold Entry_insert. cbn. by rewrite !append_empty_r.
Qed.
End PolesFields.

(** X11. [processPoles] changes the store only when it returns.  When it
    returns, [readPoles] has read the s-pole and sample-time fields, the
    first two z-pole fields hold exactly the text of the two values of
    [calcPoles] (what they held before is gone), the other z-pole fields
    are as they were, and the store holds the two values and the sample
    time as floats, the rest of it unchanged.  When it raises, the store is
    as it was, and the exception is the one of [readPoles] or an IndexError
    for fewer than two z-pole fields. *)
Theorem processPoles_all_or_nothing (B : Builtins)
    (z_entries s_entries : list Entry) (e_T : Entry)
    (st : value_exchange.ValueExchange) :
  match poles.processPoles z_entries s_entries e_T st with
  | (Ok z_entries', st') =>
      ∃ s_sigma s_wd T,
        poles.readPoles s_entries e_T = Ok (s_sigma, s_wd, T)
        ∧ z_entries'
          = mkEntry (str (poles.calcPoles s_sigma s_wd T).1)
            :: mkEntry (str (poles.calcPoles s_sigma s_wd T).2)
            :: drop 2 z_entries
        ∧ st' = value_exchange.mkValueExchange
                  (value_exchange.sigma st) (value_exchange.wd st)
                  (VFloat (poles.calcPoles s_sigma s_wd T).1)
                  (VFloat (poles.calcPoles s_sigma s_wd T).2) (VFloat T)
                  (value_exchange.F st) (value_exchange.g st)
                  (value_exchange.c st) (value_exchange.d st)
                  (value_exchange.dim st)
  | (Raise e, st') =>
      st' = st
      ∧ (poles.readPoles s_entries e_T = Raise e
         ∨ (e = IndexError ∧ (length z_entries < 2)%nat))
  end.
Proof.
  destruct z_entries as [| z0 [| z1 rest]];
    (destruct (poles.readPoles s_entries e_T)
       as [[[s_sigma s_wd] T] | e] eqn:Hr;
     [| unfold poles.processPoles; rewrite Hr; split; [done | by left]]).
  - unfold poles.processPoles. rewrite Hr.
    split; [done |]. right. split; [done | simpl; lia].
  - unfold poles.processPoles. rewrite Hr.
    split; [done |]. right. split; [done | simpl; lia].
  - rewrite (processPoles_returns _ _ _ _ _ s_sigma s_wd T) by done.
    by exists s_sigma, s_wd, T.
Qed.

(** X12. [readPolesFromReq] writes minus the stored sigma and the stored
    wd in front of what the first two s-pole fields hold: the fields are
    not cleared first.  The other fields and the store are as they were.
    (A stored sigma that is the float 0 is left out: its negative is the
    float -0.0, which the reals do not have.) *)
Theorem readPolesFromReq_prepends (B : Builtins) (e0 e1 : Entry)
    (rest : list Entry) (st : value_exchange.ValueExchange) (v : pyval) :
  py_neg (value_exchange.sigma st) = Ok v →
  value_exchange.sigma st ≠ VFloat 0 →
  poles_fields.readPolesFromReq (e0 :: e1 :: rest) st
  = (Ok (mkEntry (shown v ++ text e0)
         :: mkEntry (shown (value_exchange.wd st) ++ text e1) :: rest), st).
Proof.
  intros Hv _. unfold poles_fields.readPolesFromReq.
  unfold value_exchange.getRequirements, lift.
  unfold mbind, Py_bind, mret, Py_ret. by rewrite Hv.
Qed.

Lemma readPolesFromReq_prepends_witness :
  poles_fields.readPolesFromReq (H := sample_builtins)
    [mkEntry "7"; mkEntry ""]
    (value_exchange.mkValueExchange (VInt 4) (VInt 3) (VInt 0) (VInt 0)
       (VInt 0) [[0]] [[0]] [[0]] (VInt 0) 1)
  = (Ok [mkEntry "-47"; mkEntry "3"],
     value_exchange.mkValueExchange (VInt 4) (VInt 3) (VInt 0) (VInt 0)
       (VInt 0) [[0]] [[0]] [[0]] (VInt 0) 1).
Proof.
  apply (readPolesFromReq_prepends sample_builtins (mkEntry "7") (mkEntry "")
           []
           (value_exchange.mkValueExchange (VInt 4) (VInt 3) (VInt 0) (VInt 0)
              (VInt 0) [[0]] [[0]] [[0]] (VInt 0) 1)
           (VInt (-4))); [reflexivity | discriminate].
Defined.

(** ** value_exchange.py *)

(** X13. The store keeps its four groups of values apart.  After a
    setter, the getter of the same group returns what was set, and the
    getters of the three other groups return what they returned before. *)
Theorem setters_are_independent
    (st : value_exchange.ValueExchange) (a b t dd : pyval)
    (F g c : matrix R) (n : nat) :
  let after {A} (m : Py value_exchange.ValueExchange ())
                (k : Py value_exchange.ValueExchange A) := (k (m st).2).1 in
  let before {A} (k : Py value_exchange.ValueExchange A) := (k st).1 in
  (after (value_exchange.setRequirements a b) value_exchange.getRequirements
   = Ok (a, b)
   ∧ after (value_exchange.setPoles a b t) value_exchange.getPoles
     = Ok (a, b, t)
   ∧ after (value_exchange.setModel F g c dd) value_exchange.getModel
     = Ok (F, g, c, dd)
   ∧ after (value_exchange.setSize n) value_exchange.getSize = Ok n)
  ∧ (after (value_exchange.setRequirements a b) value_exchange.getPoles
     = before value_exchange.getPoles
     ∧ after (value_exchange.setRequirements a b) value_exchange.getModel
       = before value_exchange.getModel
     ∧ after (value_exchange.setRequirements a b) value_exchange.getSize
       = before value_exchange.getSize)
  ∧ (after (value_exchange.setPoles a b t) value_exchange.getRequirements
     = before value_exchange.getRequirements
     ∧ after (value_exchange.setPoles a b t) value_exchange.getModel
       = before value_exchange.getModel
     ∧ after (value_exchange.setPoles a b t) value_exchange.getSize
       = before value_exchange.getSize)
  ∧ (after (value_exchange.setModel F g c dd) value_exchange.getRequirements
     = before value_exchange.getRequirements
     ∧ after (value_exchange.setModel F g c dd) value_exchange.getPoles
       = before value_exchange.getPoles
     ∧ after (value_exchange.setModel F g c dd) value_exchange.getSize
       = before value_exchange.getSize)
  ∧ (after (value_exchange.setSize n) value_exchange.getRequirements
     = before value_exchange.getRequirements
     ∧ after (value_exchange.setSize n) value_exchange.getPoles
       = before value_exchange.getPoles
     ∧ after (value_exchange.setSize n) value_exchange.getModel
       = before value_exchange.getModel).
Proof. by repeat split. Qed.

(** ** model.py: the fields and the store *)

(** ** Grids of entry fields *)

Section Grids.
Context {A : Type}.
Implicit Types (m : list (list A)).

Lemma grid_lookup r c m i j :
  has_shape r c m → (i < r)%nat → (j < c)%nat →
  ∃ x, m !! i ≫= (λ row, row !! j) = Some x.
Proof.
  intros Hm Hi Hj.
  destruct (lookup_lt_is_Some_2 m i) as [row Hrow]; [destruct Hm; lia |].
  pose proof (has_shape_row _ _ _ _ _ Hm Hrow) as Hlen.
  destruct (lookup_lt_is_Some_2 row j) as [x Hx]; [lia |].
  exists x. by rewrite Hrow.
Qed.

(** Two grids of one shape with the same cells are the same grid. *)
Lemma grid_ext r c (a b : list (list A)) :
  has_shape r c a → has_shape r c b →
  (∀ i j, (i < r)%nat → (j < c)%nat →
     a !! i ≫= (λ row, row !! j) = b !! i ≫= (λ row, row !! j)) →
  a = b.
Proof.
  intros Ha Hb Hent. apply list_eq_same_length with r;
    [by destruct Hb | by destruct Ha |].
  intros i ra rb Hi Hra Hrb.
  apply list_eq_same_length with c;
    [exact (has_shape_row _ _ _ _ _ Hb Hrb)
    | exact (has_shape_row _ _ _ _ _ Ha Hra) |].
  intros j x y Hj Hx Hy.
  specialize (Hent i j Hi Hj). rewrite Hra, Hrb in Hent. simpl in Hent.
  congruence.
Qed.

(** One cell changed in place. *)
Lemma grid_alter r c m i j (f : A → A) :
  has_shape r c m →
  has_shape r c (alter (alter f j) i m)
  ∧ ∀ i' j', alter (alter f j) i m !! i' ≫= (λ row, row !! j')
             = if (i' =? i)%nat && (j' =? j)%nat
               then f <$> (m !! i ≫= (λ row, row !! j))
               else m !! i' ≫= (λ row, row !! j').
Proof.
  intros [Hlen Hrows]. split.
  - split; [by rewrite length_alter |].
    apply Forall_alter; [done |]. intros row _ Hrow.
    by rewrite length_alter.
  - intros i' j'. destruct (Nat.eqb_spec i' i) as [-> | Hi]; simpl.
    + rewrite list_lookup_alter_eq.
      destruct (m !! i) as [row |]; simpl.
      * destruct (Nat.eqb_spec j' j) as [-> | Hj].
        -- by rewrite list_lookup_alter_eq.
        -- by rewrite list_lookup_alter_ne.
      * by destruct (j' =? j)%nat.
    + by rewrite list_lookup_alter_ne.
Qed.
End Grids.

Lemma grid_map_lookup {A B} (f : A → B) (m : list (list A)) i j :
  map (map f) m !! i ≫= (λ row, row !! j)
  = f <$> (m !! i ≫= (λ row, row !! j)).
Proof.
  rewrite list_lookup_fmap. destruct (m !! i) as [row |]; [| done].
  simpl. by rewrite list_lookup_fmap.
Qed.

Lemma has_shape_map {A B} (f : A → B) r c (m : list (list A)) :
  has_shape r c m → has_shape r c (map (map f) m).
Proof.
  intros [Hlen Hrows]. split; [by rewrite length_map |].
  apply Forall_fmap. eapply Forall_impl; [exact Hrows |].
  intros row Hrow. simpl. by rewrite length_map.
Qed.

Lemma entry_lookup r c (m : matrix R) i j :
  has_shape r c m → (i < r)%nat → (j < c)%nat →
  m !! i ≫= (λ row, row !! j) = Some (entry m i j).
Proof.
  intros Hm Hi Hj. pose proof (mget_entry r c m i j Hm Hi Hj) as Hget.
  unfold mget in Hget.
  destruct (m !! i ≫= (λ row, row !! j)); [by injection Hget as -> | done].
Qed.

Section WriteDisc.
Context `{Builtins}.

Lemma widget_update_grid (m : list (list Entry)) i j (f : Entry → Entry) e :
  m !! i ≫= (λ row, row !! j) = Some e →
  widget_update (WGrid m) i j f
  = Ok (WGrid (alter (alter (λ _, f e) j) i m)).
Proof. intros He. unfold widget_update, widget_at. by rewrite He. Qed.

(** [e[i, j].delete(0, tk.END); e[i, j].insert(0, M[i, j])] *)
Lemma show_cell r c (m : list (list Entry)) (M : matrix R) i j :
  has_shape r c m → has_shape r c M → (i < r)%nat → (j < c)%nat →
  ∃ m', (w ← widget_update (WGrid m) i j Entry_delete;
         x ← mget M i j;
         widget_update w i j (Entry_insert (str x))) = Ok (WGrid m')
    ∧ has_shape r c m'
    ∧ ∀ i' j', m' !! i' ≫= (λ row, row !! j')
               = if (i' =? i)%nat && (j' =? j)%nat
                 then Some (mkEntry (str (entry M i j)))
                 else m !! i' ≫= (λ row, row !! j').
Proof.
  intros Hm HM Hi Hj.
  destruct (grid_lookup r c m i j Hm Hi Hj) as [e He].
  destruct (grid_alter r c m i j (λ _, Entry_delete e) Hm) as [Hm1 Hl1].
  destruct (grid_lookup r c _ i j Hm1 Hi Hj) as [e1 He1].
  destruct (grid_alter r c _ i j
              (λ _, Entry_insert (str (entry M i j)) e1) Hm1) as [Hm2 Hl2].
  eexists. split; [| split; [exact Hm2 |]].
  - rewrite (widget_update_grid m i j _ e He). simpl_bind.
    rewrite (mget_entry r c) by done. simpl_bind.
    by rewrite (widget_update_grid _ i j _ e1 He1).
  - intros i' j'. rewrite Hl2.
    destruct ((i' =? i)%nat && (j' =? j)%nat) eqn:Hij;
      [| by rewrite Hl1, Hij].
    rewrite He1. simpl. f_equal.
    rewrite Hl1, !Nat.eqb_refl in He1. simpl in He1. rewrite He in He1.
    injection He1 as <-. unfold Entry_insert, Entry_delete. simpl.
    by rewrite append_empty_r.
Qed.

(** The inner loop of [writeDisc]: row [i] of the F fields. *)
Lemma show_row n (m : list (list Entry)) (M : matrix R) i :
  has_shape n n m → has_shape n n M → (i < n)%nat →
  ∃ m', for_range 0 n (λ col e_F,
          e_F ← widget_update e_F i col Entry_delete;
          x ← mget M i col;
          widget_update e_F i col (Entry_insert (str x))) (WGrid m)
        = Ok (WGrid m')
    ∧ has_shape n n m'
    ∧ ∀ i' j', m' !! i' ≫= (λ row, row !! j')
               = if (i' =? i)%nat && (j' <? n)%nat
                 then Some (mkEntry (str (entry M i j')))
                 else m !! i' ≫= (λ row, row !! j').
Proof.
  intros Hm HM Hi.
  destruct (for_range_invariant
    (λ k w, ∃ m', w = WGrid m' ∧ has_shape n n m'
       ∧ ∀ i' j', m' !! i' ≫= (λ row, row !! j')
                  = if (i' =? i)%nat && (j' <? k)%nat
                    then Some (mkEntry (str (entry M i j')))
                    else m !! i' ≫= (λ row, row !! j'))
    0 n
    (λ col e_F,
       e_F ← widget_update e_F i col Entry_delete;
       x ← mget M i col;
       widget_update e_F i col (Entry_insert (str x)))
    (WGrid m)) as (w & Hw & m' & -> & Hm' & Hl).
  - lia.
  - exists m. split; [done |]. split; [done |].
    intros i' j'. by rewrite andb_false_r.
  - intros k w Hk (m' & -> & Hm' & Hl).
    destruct (show_cell n n m' M i k Hm' HM Hi) as (m'' & Hs & Hm'' & Hl'');
      [lia |].
    exists (WGrid m''). split; [exact Hs |].
    exists m''. split; [done |]. split; [done |].
    intros i' j'. rewrite Hl'', Hl.
    destruct (Nat.eqb_spec i' i) as [-> | Hne]; simpl; [| done].
    destruct (Nat.eqb_spec j' k) as [-> | Hjk].
    + by destruct (Nat.ltb_spec k (S k)); [| lia].
    + destruct (Nat.ltb_spec j' k), (Nat.ltb_spec j' (S k)); done || lia.
  - exists m'. done.
Qed.

(** A grid whose cells show the entries of an array is the array, shown. *)
Lemma grid_shows r c (m : list (list Entry)) (M : matrix R) :
  has_shape r c m → has_shape r c M →
  (∀ i j, (i < r)%nat → (j < c)%nat →
     m !! i ≫= (λ row, row !! j) = Some (mkEntry (str (entry M i j)))) →
  m = map (map (λ x, mkEntry (str x))) M.
Proof.
  intros Hm HM Hcells.
  apply (grid_ext r c); [done | by apply has_shape_map |].
  intros i j Hi Hj.
  by rewrite Hcells, grid_map_lookup, (entry_lookup r c) by done.
Qed.

(** The loops of [writeDisc], cell by cell. *)
Lemma writeDisc_cells n (F g c : matrix R) (d : R)
    (e_F e_g : list (list Entry)) (rest : list widget) :
  has_shape n n F → has_shape n 1 g →
  has_shape n n e_F → has_shape n 1 e_g →
  ∃ mF mg,
    model.writeDisc (F, g, c, d) n (WGrid e_F :: WGrid e_g :: rest)
    = Ok (WGrid mF :: WGrid mg :: rest)
    ∧ has_shape n n mF ∧ has_shape n 1 mg
    ∧ (∀ i j, (i < n)%nat → (j < n)%nat →
         mF !! i ≫= (λ row, row !! j) = Some (mkEntry (str (entry F i j))))
    ∧ (∀ i j, (i < n)%nat → (j < 1)%nat →
         mg !! i ≫= (λ row, row !! j) = Some (mkEntry (str (entry g i j)))).
Proof.
  intros HF Hg HeF Heg. unfold model.writeDisc.
  cbn [index lookup list_lookup]. simpl_bind.
  destruct (for_range_invariant
    (λ k '(wF, wg), ∃ mF mg, wF = WGrid mF ∧ wg = WGrid mg
       ∧ has_shape n n mF ∧ has_shape n 1 mg
       ∧ (∀ i j, mF !! i ≫= (λ row, row !! j)
                 = if (i <? k)%nat && (j <? n)%nat
                   then Some (mkEntry (str (entry F i j)))
                   else e_F !! i ≫= (λ row, row !! j))
       ∧ (∀ i j, mg !! i ≫= (λ row, row !! j)
                 = if (i <? k)%nat && (j =? 0)%nat
                   then Some (mkEntry (str (entry g i 0)))
                   else e_g !! i ≫= (λ row, row !! j)))
    0 n
    (λ r '(e_F, e_g),
       e_g ← widget_update e_g r 0 Entry_delete;
       x ← mget g r 0;
       e_g ← widget_update e_g r 0 (Entry_insert (str x));
       e_F ← for_range 0 n (λ col e_F,
         e_F ← widget_update e_F r col Entry_delete;
         x ← mget F r col;
         widget_update e_F r col (Entry_insert (str x))) e_F;
       Ok (e_F, e_g))
    (WGrid e_F, WGrid e_g))
    as ([wF wg] & Hloop & mF & mg & -> & -> & HmF & Hmg & HlF & Hlg).
  - lia.
  - exists e_F, e_g. repeat split; try done; try apply HeF; try apply Heg;
      intros i j; by destruct (Nat.ltb_spec i 0); [lia |].
  - intros k [wF wg] Hk (mF & mg & -> & -> & HmF & Hmg & HlF & Hlg).
    destruct (show_cell n 1 mg g k 0 Hmg Hg) as (mg' & Hs & Hmg' & Hlg');
      [lia | lia |].
    destruct (show_row n mF F k HmF HF) as (mF' & Hr & HmF' & HlF'); [lia |].
    exists (WGrid mF', WGrid mg'). split.
    + destruct (widget_update (WGrid mg) k 0 Entry_delete) as [w |];
        cbn [mbind result_bind] in Hs; [| done].
      simpl_bind.
      destruct (mget g k 0) as [x |]; cbn [mbind result_bind] in Hs;
        [| done].
      simpl_bind. rewrite Hs. simpl_bind.
      rewrite Hr. by simpl_bind.
    + exists mF', mg'. repeat split; try done; try apply HmF';
        try apply Hmg'.
      * intros i j. rewrite HlF', HlF.
        destruct (Nat.eqb_spec i k) as [-> | Hne]; simpl.
        -- destruct (Nat.ltb_spec k (S k)); [| lia]. simpl.
           destruct (Nat.ltb_spec j n); [done |].
           destruct (Nat.ltb_spec k k); [lia | done].
        -- destruct (Nat.ltb_spec i k), (Nat.ltb_spec i (S k));
             done || lia.
      * intros i j. rewrite Hlg', Hlg.
        destruct (Nat.eqb_spec i k) as [-> | Hne]; simpl.
        -- destruct (Nat.ltb_spec k (S k)); [| lia]. simpl.
           destruct (Nat.eqb_spec j 0); [done |].
           destruct (Nat.ltb_spec k k); [lia | done].
        -- destruct (Nat.ltb_spec i k), (Nat.ltb_spec i (S k));
             done || lia.
  - exists mF, mg. rewrite Hloop. simpl_bind.
    split; [done |]. split; [done |]. split; [done |]. split.
    + intros i j Hi Hj. rewrite HlF.
      by destruct (Nat.ltb_spec i n), (Nat.ltb_spec j n); [| lia ..].
    + intros i j Hi Hj. assert (j = 0%nat) as -> by lia. rewrite Hlg.
      by destruct (Nat.ltb_spec i n); [| lia].
Qed.
End WriteDisc.

(** X14. [writeDisc] on dim by dim F fields and dim by 1 g fields, for F
    and g of these shapes: afterwards every F field holds the text of its
    entry of F and every g field the text of its entry of g, whatever they
    held before; the c and d fields are as they were. *)
Theorem writeDisc_displays (B : Builtins) (n : nat) (F g c : matrix R)
    (d : R) (e_F e_g : list (list Entry)) (rest : list widget) :
  has_shape n n F → has_shape n 1 g →
  has_shape n n e_F → has_shape n 1 e_g →
  model.writeDisc (F, g, c, d) n (WGrid e_F :: WGrid e_g :: rest)
  = Ok (WGrid (map (map (λ x, mkEntry (str x))) F)
        :: WGrid (map (map (λ x, mkEntry (str x))) g) :: rest).
Proof.
  intros HF Hg HeF Heg.
  destruct (writeDisc_cells n F g c d e_F e_g rest HF Hg HeF Heg)
    as (mF & mg & -> & HmF & Hmg & HcF & Hcg).
  by rewrite (grid_shows n n mF F), (grid_shows n 1 mg g).
Qed.

Lemma writeDisc_displays_witness :
  model.writeDisc (H := sample_builtins) ([[1; 2]; [3; 4]], [[5]; [6]], [[7; 8]], 9) 2
    [WGrid [[mkEntry "a"; mkEntry "b"]; [mkEntry "c"; mkEntry "d"]];
     WGrid [[mkEntry "e"]; [mkEntry "f"]]; WEntry (mkEntry "g")]
  = Ok [WGrid [[mkEntry ""; mkEntry ""]; [mkEntry ""; mkEntry ""]];
        WGrid [[mkEntry ""]; [mkEntry ""]]; WEntry (mkEntry "g")].
Proof.
  apply (writeDisc_displays sample_builtins 2 [[1; 2]; [3; 4]] [[5]; [6]]
           [[7; 8]] 9); by repeat constructor.
Defined.

(** ** Reading the fields of a model *)

Section ReadCont.

(** The inner loop of [readCont] and [readDisc]: row [i] of an array is
    read from a source of numbers. *)
Lemma read_row (src : nat → result R) (target : nat → R) r n
    (M : matrix R) i :
  (∀ col, (col < n)%nat → src col = Ok (target col)) →
  has_shape r n M → (i < r)%nat →
  ∃ M', for_range 0 n (λ col M, x ← src col; mset M i col x) M = Ok M'
    ∧ has_shape r n M'
    ∧ ∀ i' j', entry M' i' j'
               = if (i' =? i)%nat && (j' <? n)%nat then target j'
                 else entry M i' j'.
Proof.
  intros Hsrc HM Hi.
  apply (for_range_invariant
    (λ k M', has_shape r n M'
       ∧ ∀ i' j', entry M' i' j'
                  = if (i' =? i)%nat && (j' <? k)%nat then target j'
                    else entry M i' j')); [lia | |].
  - split; [done |]. intros i' j'. by rewrite andb_false_r.
  - intros k M' Hk (HM' & Hent).
    rewrite Hsrc by lia. simpl_bind.
    destruct (mset_entry r n M' i k (target k) HM')
      as (M'' & -> & HM'' & Hent''); [done | lia |].
    exists M''. split; [done |]. split; [done |].
    intros i' j'. rewrite Hent'', Hent.
    destruct (Nat.eqb_spec i' i) as [-> | Hne]; simpl; [| done].
    destruct (Nat.eqb_spec j' k) as [-> | Hjk].
    + by destruct (Nat.ltb_spec k (S k)); [| lia].
    + destruct (Nat.ltb_spec j' k), (Nat.ltb_spec j' (S k)); done || lia.
Qed.

End ReadCont.

(** X15. [readCont] returns the arrays A, b, c and the number d whenever
    the field in row i and column j of the A fields reads as A[i, j], and
    the same for the b fields (one column), the c fields (one row) and the
    d field: every entry of the arrays it allocates is assigned. *)
Theorem readCont_decodes (B : Builtins) (e_A e_b e_c e_d : widget)
    (rest : list widget) (n : nat) (A b c : matrix R) (d : R) :
  has_shape n n A → has_shape n 1 b → has_shape 1 n c →
  (∀ i j, (i < n)%nat → (j < n)%nat →
     widget_at e_A i j ≫= (λ e, float (Entry_get e)) = Ok (entry A i j)) →
  (∀ i, (i < n)%nat →
     widget_at e_b i 0 ≫= (λ e, float (Entry_get e)) = Ok (entry b i 0)) →
  (∀ j, (j < n)%nat →
     widget_at e_c 0 j ≫= (λ e, float (Entry_get e)) = Ok (entry c 0 j)) →
  widget_get e_d ≫= float = Ok d →
  model.readCont (e_A :: e_b :: e_c :: e_d :: rest) n = Ok (A, b, c, d).
Proof.
  intros HA Hb Hc HeA Heb Hec Hed. unfold model.readCont.
  cbn [index lookup list_lookup]. simpl_bind. rewrite Hed. simpl_bind.
  destruct (for_range_invariant
    (λ k '(A', b', c'),
       has_shape n n A' ∧ has_shape n 1 b' ∧ has_shape 1 n c'
       ∧ (∀ i j, (i < k)%nat → (j < n)%nat → entry A' i j = entry A i j)
       ∧ (∀ i, (i < k)%nat → entry b' i 0 = entry b i 0)
       ∧ (∀ j, (j < k)%nat → entry c' 0 j = entry c 0 j))
    0 n
    (λ r '(A, b, c),
       x ← widget_at e_b r 0 ≫= (λ e, float (Entry_get e));
       b ← mset b r 0 x;
       x ← widget_at e_c 0 r ≫= (λ e, float (Entry_get e));
       c ← mset c 0 r x;
       A ← for_range 0 n (λ col A,
         x ← widget_at e_A r col ≫= (λ e, float (Entry_get e));
         mset A r col x) A;
       Ok (A, b, c))
    (mzeros n n, mzeros n 1, mzeros 1 n))
    as ([[A' b'] c'] & Hloop & HA' & Hb' & Hc' & HeA' & Heb' & Hec').
  - lia.
  - repeat split; try apply has_shape_mzeros; intros; lia.
  - intros k [[A' b'] c'] Hk (HA' & Hb' & Hc' & HeA' & Heb' & Hec').
    rewrite Heb by lia. simpl_bind.
    destruct (mset_entry n 1 b' k 0 (entry b k 0) Hb')
      as (b'' & -> & Hb'' & Heb''); [lia | lia |]. simpl_bind.
    rewrite Hec by lia. simpl_bind.
    destruct (mset_entry 1 n c' 0 k (entry c 0 k) Hc')
      as (c'' & -> & Hc'' & Hec''); [lia | lia |]. simpl_bind.
    destruct (read_row
                (λ col, widget_at e_A k col ≫= (λ e, float (Entry_get e)))
                (λ col, entry A k col) n n A' k)
      as (A'' & -> & HA'' & HeA''); [intros; apply HeA; lia | done | lia |].
    simpl_bind. eexists. split; [done |].
    repeat split; try done; try apply HA''; try apply Hb'';
      try apply Hc''.
    + intros i j Hi Hj. rewrite HeA''.
      destruct (Nat.eqb_spec i k) as [-> | Hne]; simpl.
      * by destruct (Nat.ltb_spec j n); [| lia].
      * apply HeA'; lia.
    + intros i Hi. rewrite Heb''.
      destruct (Nat.eqb_spec i k) as [-> | Hne]; simpl; [done |].
      apply Heb'; lia.
    + intros j Hj. rewrite Hec''. simpl.
      destruct (Nat.eqb_spec j k) as [-> | Hne]; [done |].
      apply Hec'; lia.
  - rewrite Hloop. simpl_bind. do 4 f_equal.
    + apply (matrix_ext n n); [done | done |]. intros; by apply HeA'.
    + apply (matrix_ext n 1); [done | done |].
      intros i j Hi Hj. assert (j = 0%nat) as -> by lia. by apply Heb'.
    + apply (matrix_ext 1 n); [done | done |].
      intros i j Hi Hj. assert (i = 0%nat) as -> by lia. by apply Hec'.
Qed.


Lemma readCont_decodes_witness :
  model.readCont (H := sample_builtins)
    [WGrid [[mkEntry "0"; mkEntry "1"]; [mkEntry "1"; mkEntry "0"]];
     WGrid [[mkEntry "0"]; [mkEntry "1"]];
     WGrid [[mkEntry "1"; mkEntry "1"]];
     WEntry (mkEntry "0")] 2
  = Ok ([[0; 1]; [1; 0]], [[0]; [1]], [[1; 1]], 0).
Proof.
  apply (readCont_decodes sample_builtins).
  - by repeat constructor.
  - by repeat constructor.
  - by repeat constructor.
  - intros [| [| i]] [| [| j]] Hi Hj; (reflexivity || lia).
  - intros [| [| i]] Hi; (reflexivity || lia).
  - intros [| [| j]] Hj; (reflexivity || lia).
  - reflexivity.
Defined.

Lemma has_shape_series n (A b : matrix R) (T : R) :
  has_shape n n A → has_shape n 1 b →
  has_shape n n (design.series_F n A T)
  ∧ has_shape n 1 (design.series_g n A b T).
Proof.
  intros HA Hb. destruct (decide (n = 0%nat)) as [-> | Hn].
  { destruct HA as [HA _], Hb as [Hb _]. by destruct A, b. }
  assert (0 < n)%nat by lia.
  unfold design.series_F, design.series_g, design.series_psi.
  split; solve_shapes.
Qed.

Section CalcModel.
Import value_exchange model.
Context `{Builtins}.

(** The arrays that [readCont] returns have the shapes it allocates. *)
Lemma readCont_shapes (cont_entries : list widget) (n : nat)
    (A b c : matrix R) (d : R) :
  readCont cont_entries n = Ok (A, b, c, d) →
  has_shape n n A ∧ has_shape n 1 b ∧ has_shape 1 n c.
Proof.
  unfold readCont. intros Hread.
  apply bind_Ok in Hread as (e_A & _ & Hread).
  apply bind_Ok in Hread as (e_b & _ & Hread).
  apply bind_Ok in Hread as (e_c & _ & Hread).
  apply bind_Ok in Hread as (e_d & _ & Hread).
  apply bind_Ok in Hread as (d' & _ & Hread).
  apply bind_Ok in Hread as ([[A' b'] c'] & Hloop & Hret).
  injection Hret as -> -> -> ->.
  apply (for_range_preserves
    (λ '(A, b, c), has_shape n n A ∧ has_shape n 1 b ∧ has_shape 1 n c))
    in Hloop; [done | by repeat split; apply has_shape_mzeros |].
  clear. intros r [[A b] c] [[A' b'] c'] (HA & Hb & Hc) Hbody.
  apply bind_Ok in Hbody as (x & _ & Hbody).
  apply bind_Ok in Hbody as (b1 & Hb1 & Hbody).
  apply bind_Ok in Hbody as (y & _ & Hbody).
  apply bind_Ok in Hbody as (c1 & Hc1 & Hbody).
  apply bind_Ok in Hbody as (A1 & HA1 & Hret).
  injection Hret as <- <- <-.
  split; [| split; by eapply mset_has_shape].
  apply (for_range_preserves (has_shape n n)) in HA1; [done | done |].
  intros col t t' Ht Hstep. apply bind_Ok in Hstep as (z & _ & Hset).
  by eapply mset_has_shape.
Qed.

End CalcModel.

(** X16. With the radio group on 'Set continuous', when [readCont] returns
    (A, b, c, d) and the store holds a number T as sample time, [calcModel]
    returns, the F and g fields show the series F = I + AT + (1/2)(AT)^2
    and g = T (I + (1/2)AT + (1/6)(AT)^2) b, and the store holds these two
    arrays with c and d as entered; requirements, poles, sample time and
    dimension of the store are as they were. *)
Theorem calcModel_publishes_series (B : Builtins)
    (cont_entries rest : list widget) (e_F e_g : list (list Entry))
    (n : nat) (A b c : matrix R) (d t : R)
    (st : value_exchange.ValueExchange) :
  model.readCont cont_entries n = Ok (A, b, c, d) →
  number (value_exchange.T st) = Ok t →
  has_shape n n e_F → has_shape n 1 e_g →
  model.calcModel 2 cont_entries (WGrid e_F :: WGrid e_g :: rest) n st
  = (Ok (WGrid (map (map (λ x, mkEntry (str x))) (design.series_F n A t))
         :: WGrid (map (map (λ x, mkEntry (str x)))
                     (design.series_g n A b t))
         :: rest),
     value_exchange.mkValueExchange
       (value_exchange.sigma st) (value_exchange.wd st)
       (value_exchange.z_sigma st) (value_exchange.z_wd st)
       (value_exchange.T st)
       (design.series_F n A t) (design.series_g n A b t) c (VFloat d)
       (value_exchange.dim st)).
Proof.
  intros Hread Ht HeF Heg.
  destruct (readCont_shapes _ _ _ _ _ _ Hread) as (HA & Hb & Hc).
  unfold model.calcModel. cbn [Z.eqb Pos.eqb].
  unfold value_exchange.getPoles, value_exchange.setModel, lift,
    mbind at 1 2 3 4 5 6 7, Py_bind, mret, Py_ret.
  rewrite Hread, Ht. simpl_bind.
  rewrite (calcDisc_shapes n) by done.
  destruct (has_shape_series n A b t HA Hb) as [HF Hg].
  destruct (writeDisc_cells n _ _ c d e_F e_g rest HF Hg HeF Heg)
    as (mF & mg & -> & HmF & Hmg & HcF & Hcg).
  by rewrite (grid_shows n n mF (design.series_F n A t)),
    (grid_shows n 1 mg (design.series_g n A b t)).
Qed.

Lemma calcModel_publishes_series_witness :
  model.calcModel (H := sample_builtins) 2
    [WGrid [[mkEntry "1"]]; WGrid [[mkEntry "0"]]; WGrid [[mkEntry "1"]];
     WEntry (mkEntry "0")]
    [WGrid [[mkEntry "x"]]; WGrid [[mkEntry "y"]]; WGrid [[mkEntry "1"]];
     WEntry (mkEntry "0")] 1
    (value_exchange.mkValueExchange (VInt 0) (VInt 0) (VInt 0) (VInt 0)
       (VFloat 1) [[0]] [[0]] [[0]] (VInt 0) 1)
  = (Ok [WGrid [[mkEntry ""]]; WGrid [[mkEntry ""]];
         WGrid [[mkEntry "1"]]; WEntry (mkEntry "0")],
     value_exchange.mkValueExchange (VInt 0) (VInt 0) (VInt 0) (VInt 0)
       (VFloat 1) (design.series_F 1 [[1]] 1)
       (design.series_g 1 [[1]] [[0]] 1) [[1]] (VFloat 0) 1).
Proof.
  apply (calcModel_publishes_series sample_builtins
           [WGrid [[mkEntry "1"]]; WGrid [[mkEntry "0"]];
            WGrid [[mkEntry "1"]]; WEntry (mkEntry "0")]
           [WGrid [[mkEntry "1"]]; WEntry (mkEntry "0")]
           [[mkEntry "x"]] [[mkEntry "y"]] 1 [[1]] [[0]] [[1]] 0 1
           (value_exchange.mkValueExchange (VInt 0) (VInt 0) (VInt 0)
              (VInt 0) (VFloat 1) [[0]] [[0]] [[0]] (VInt 0) 1)).
  - reflexivity.
  - reflexivity.
  - by repeat constructor.
  - by repeat constructor.
Defined.

(** X17. [calcModel] changes the store only when it returns, and then only
    the model: sigma, wd, the poles, the sample time and the dimension are
    as they were, and d is stored as a float.  It returns only for the
    radio values 1 and 2; for any other value it raises
    UnboundLocalError. *)
Theorem calcModel_all_or_nothing (B : Builtins) (v : Z)
    (cont_entries disc_entries : list widget) (n : nat)
    (st : value_exchange.ValueExchange) :
  match model.calcModel v cont_entries disc_entries n st with
  | (Ok _, st') =>
      (v = 1 ∨ v = 2)%Z
      ∧ ∃ F g c d,
          st' = value_exchange.mkValueExchange
                  (value_exchange.sigma st) (value_exchange.wd st)
                  (value_exchange.z_sigma st) (value_exchange.z_wd st)
                  (value_exchange.T st) F g c (VFloat d)
                  (value_exchange.dim st)
  | (Raise e, st') =>
      st' = st ∧ (v ≠ 1 → v ≠ 2 → e = UnboundLocalError)%Z
  end.
Proof.
  unfold model.calcModel, value_exchange.getPoles, value_exchange.setModel,
    lift, mbind, Py_bind, mret, Py_ret.
  destruct (Z.eqb_spec v 2) as [-> | H2].
  - cbn [Z.eqb Pos.eqb].
    destruct (model.readCont cont_entries n) as [cont_val |]; [| done].
    destruct (result_bind _ _ _ _) as [disc_val |]; [| done].
    destruct (model.writeDisc disc_val n disc_entries); [| done].
    destruct disc_val as [[[F g] c] d]. split; [by right | by eauto].
  - destruct (Z.eqb_spec v 1) as [-> | H1].
    + destruct (model.readDisc disc_entries n) as [[[[F g] c] d] |];
        [| done].
      split; [by left | by eauto].
    + done.
Qed.

(** X18. After [readZPoles] the sample time in the store is text, and
    [calcModel] on 'Set continuous' then raises TypeError once [readCont]
    has returned: the text cannot be multiplied with the array A.  The
    store is as [readZPoles] left it. *)
Theorem calcModel_text_sample_time (B : Builtins) (z0 z1 e_T : Entry)
    (z_rest : list Entry) (cont_entries disc_entries : list widget)
    (n : nat) (cont_val : model.values)
    (st : value_exchange.ValueExchange) :
  model.readCont cont_entries n = Ok cont_val →
  let st1 := (poles.readZPoles (z0 :: z1 :: z_rest) e_T st).2 in
  model.calcModel 2 cont_entries disc_entries n st1 = (Raise TypeError, st1).
Proof.
  intros Hread st1. unfold model.calcModel. cbn [Z.eqb Pos.eqb].
  unfold value_exchange.getPoles, lift, mbind, Py_bind, mret, Py_ret.
  by rewrite Hread.
Qed.

Lemma calcModel_text_sample_time_witness :
  let st1 :=
    (poles.readZPoles [mkEntry "0"; mkEntry "1"] (mkEntry "1")
       (value_exchange.mkValueExchange (VInt 0) (VInt 0) (VInt 0) (VInt 0)
          (VInt 0) [[0]] [[0]] [[0]] (VInt 0) 1)).2 in
  model.calcModel (H := sample_builtins) 2
    [WGrid [[mkEntry "1"]]; WGrid [[mkEntry "0"]]; WGrid [[mkEntry "1"]];
     WEntry (mkEntry "0")]
    [WGrid [[mkEntry "x"]]; WGrid [[mkEntry "y"]]; WGrid [[mkEntry "1"]];
     WEntry (mkEntry "0")] 1 st1
  = (Raise TypeError, st1).
Proof.
  apply (calcModel_text_sample_time sample_builtins (mkEntry "0")
           (mkEntry "1") (mkEntry "1") []
           [WGrid [[mkEntry "1"]]; WGrid [[mkEntry "0"]];
            WGrid [[mkEntry "1"]]; WEntry (mkEntry "0")]
           [WGrid [[mkEntry "x"]]; WGrid [[mkEntry "y"]];
            WGrid [[mkEntry "1"]]; WEntry (mkEntry "0")]
           1 ([[1]], [[0]], [[1]], 0)).
  reflexivity.
Defined.

(** ** results.py: the other orders and branches *)

Section Order1.
Import results.
Context {L : Lapack}.

(** The open-loop expression det(z I - F) of a 1 by 1 matrix. *)
Lemma ol_eqn_1 (f : R) :
  mdet (msub (mscale sym_z (meye 1))
             (map (map (λ x, sym_const (RtoC x))) [[f]]))
  = [RtoC (- f); RtoC 1].
Proof.
  cbn. repeat (f_equal; try (apply C_eq; simpl; ring)).
Qed.

Lemma coefficients_1 (a0 a1 a2 o0 o1 : R) :
  coefficients [RtoC a0; RtoC a1; RtoC a2] [RtoC o0; RtoC o1] 1
    (mzeros 1 1, mzeros 1 1, mzeros 1 1)
  = Ok ([[RtoC a0]], [[RtoC o0]], [[a0 - o0]]).
Proof.
  unfold coefficients, for_range. cbn -[to_float].
  rewrite to_float_real by (simpl; ring). cbn.
  reflexivity.
Qed.

(** [calcK] at order 1: the constant coefficients are compared. *)
Lemma calcK_1 (f u z_sigma z_wd : R) :
  let k_c := [[z_sigma * z_sigma + z_wd * z_wd - - f]] in
  let P := mmul [[u]] [[1]] in
  mdet P ≠ 0 →
  calcK [[f]] (z_sigma, z_wd) [[u]] 1
  = Ok (mmul k_c (mscale (/ mdet P) (adjugate P)), k_c, P).
Proof.
  intros k_c P HP. unfold calcK.
  change (sym_sub ?X ?Y) with (Ok (msub X Y)). simpl_bind.
  cbn [fst snd]. rewrite ol_eqn_1, cl_eqn_2, coefficients_1.
  simpl_bind. unfold astype_float. cbn -[to_float np.matmul np.inv mmul].
  rewrite to_float_real by reflexivity.
  cbn -[np.matmul np.inv mmul].
  change (np.matmul [[u]] ?X) with (Ok (mmul [[u]] X)). simpl_bind.
  fold P. unfold np.inv.
  change (rows P =? cols P)%nat with true. cbn iota.
  rewrite decide_False by done. simpl_bind.
  reflexivity.
Qed.
End Order1.

(** X19. At order 1, for F = [[f]] and g = [[g0]] with g0 not zero,
    [checkContr] returns the gain k = (z_sigma^2 + z_wd^2 + f)/g0: the
    constant coefficient of the quadratic of the pole pair is compared with
    the constant coefficient of z - f.  The closed loop F - g k then has
    the characteristic polynomial z + (z_sigma^2 + z_wd^2): its pole is at
    -(z_sigma^2 + z_wd^2), whatever f and g0 are. *)
Theorem checkContr_order_1 (L : Lapack) (f g0 z_sigma z_wd : R)
    (cm : matrix R) (dm : R) (out : list string) :
  g0 ≠ 0 →
  ∃ k,
    results.checkContr (results.mkModel [[f]] [[g0]] cm dm)
      (z_sigma, z_wd) 1 out
    = (Ok (PyArr [[k]], PyArr [[z_sigma * z_sigma + z_wd * z_wd - - f]],
           PyArr (mmul [[g0]] [[1]]), mdet [[g0]]), out)
    ∧ k * g0 = z_sigma * z_sigma + z_wd * z_wd + f
    ∧ ∀ z : R,
        mdet (msub (mscale z (meye 1)) (msub [[f]] (mmul [[g0]] [[k]])))
        = z + (z_sigma * z_sigma + z_wd * z_wd).
Proof.
  intros Hg.
  assert (HU : mdet [[g0]] ≠ 0) by (cbn; lra).
  assert (HP : mdet (mmul [[g0]] [[1]]) ≠ 0) by (cbn; lra).
  exists ((z_sigma * z_sigma + z_wd * z_wd + f) / g0). split; [| split].
  - rewrite (checkContr_controllable
               (results.mkModel [[f]] [[g0]] cm dm) (z_sigma, z_wd) 1 out
               [[g0]] _ _ _ eq_refl HU (calcK_1 f g0 z_sigma z_wd HP)).
    do 4 f_equal. cbn. repeat (f_equal; try (field; lra)).
  - by field.
  - intros z. cbn. by field.
Qed.

Lemma checkContr_order_1_witness :
  ∃ k,
    results.checkContr (H := rounding_lapack)
      (results.mkModel [[1]] [[2]] [[1]] 0) (1 / 2, 0) 1 []
    = (Ok (PyArr [[k]], PyArr [[1 / 2 * (1 / 2) + 0 * 0 - - 1]],
           PyArr (mmul [[2]] [[1]]), mdet [[2]]), [])
    ∧ k * 2 = 1 / 2 * (1 / 2) + 0 * 0 + 1
    ∧ ∀ z : R,
        mdet (msub (mscale z (meye 1)) (msub [[1]] (mmul [[2]] [[k]])))
        = z + (1 / 2 * (1 / 2) + 0 * 0).
Proof.
  apply (checkContr_order_1 rounding_lapack 1 2 (1 / 2) 0 [[1]] 0 []). lra.
Defined.

(** X20. When the observability matrix is regular, [checkObs] returns the
    two fixed arrays of [calcM], [[1],[1]] and [[2],[2]], with det V, and
    prints 'function not yet implemented': beyond det V the result depends
    on neither the model nor the poles. *)
Theorem checkObs_placeholder (L : Lapack) (model : results.Model)
    (poles : R * R) (dim : nat) (out : list string) (V : matrix R) :
  results.checkObs_V (results.F model) (results.c model) dim = Ok V →
  mdet V ≠ 0 →
  results.checkObs model poles dim out
  = (Ok (PyArr [[1]; [1]], PyArr [[2]; [2]], mdet V),
     out ++ ["function not yet implemented"]).
Proof.
  intros HV Hdet. unfold results.checkObs.
  cbv [mbind Py_bind lift]. rewrite HV.
  rewrite (det_regular dim) by (done || by eapply checkObs_V_shape).
  rewrite bool_decide_eq_false_2 by done. reflexivity.
Qed.

Lemma checkObs_placeholder_witness :
  results.checkObs (H := rounding_lapack)
    (results.mkModel [[0; 1]; [1; 0]] [[0]; [1]] [[1; 0]] 0)
    (1 / 2, 1 / 2) 2 []
  = (Ok (PyArr [[1]; [1]], PyArr [[2]; [2]],
         mdet [[1; 0]; [1 * 0 + (0 * 1 + 0); 1 * 1 + (0 * 0 + 0)]]),
     [] ++ ["function not yet implemented"]).
Proof.
  apply (checkObs_placeholder rounding_lapack
           (results.mkModel [[0; 1]; [1; 0]] [[0]; [1]] [[1; 0]] 0)
           (1 / 2, 1 / 2) 2%nat []
           [[1; 0]; [1 * 0 + (0 * 1 + 0); 1 * 1 + (0 * 0 + 0)]]).
  - reflexivity.
  - cbn. lra.
Defined.

Section Coefficients.
Import results.

Lemma set_flat_row_0 dim (m : matrix C) k (x : C) :
  has_shape dim dim m → (k < dim)%nat →
  ∃ m', set_flat m k x = Ok m' ∧ has_shape dim dim m'
    ∧ entry m' 0 k = x.
Proof.
  intros Hm Hk. unfold set_flat.
  rewrite (has_shape_cols dim dim m Hm) by lia.
  destruct (Nat.eqb_spec dim 0) as [-> | _]; [lia |].
  rewrite Nat.div_small, Nat.mod_small by done.
  destruct (mset_entry dim dim m 0 k x Hm) as (m' & -> & Hm' & Hent);
    [lia | done |].
  exists m'. split; [done |]. split; [done |].
  by rewrite Hent, !Nat.eqb_refl.
Qed.

(** The loop of lines 91-94 at any order: the feedback row in canonical
    form is the difference of the low coefficients. *)
Lemma coefficients_differences (cl_eqn ol_eqn : poly C) (dim : nat) :
  (0 < dim)%nat →
  (∀ i, (i < dim)%nat → Im (coeff cl_eqn i) = Im (coeff ol_eqn i)) →
  ∃ a alpha k_c,
    coefficients cl_eqn ol_eqn dim
      (mzeros dim dim, mzeros dim dim, mzeros 1 dim)
    = Ok (a, alpha, k_c)
    ∧ has_shape 1 dim k_c
    ∧ ∀ i, (i < dim)%nat →
        entry k_c 0 i = Re (coeff cl_eqn i) - Re (coeff ol_eqn i).
Proof.
  intros Hdim Him. unfold coefficients.
  destruct (for_range_invariant
    (λ n '(a, alpha, k_c),
       has_shape dim dim a ∧ has_shape dim dim alpha ∧ has_shape 1 dim k_c
       ∧ ∀ i, (i < n)%nat →
           entry k_c 0 i = Re (coeff cl_eqn i) - Re (coeff ol_eqn i))
    0 dim
    (λ i '(a, alpha, k_c),
       a ← set_flat a (dim - 1 - i) (coeff cl_eqn i);
       alpha ← set_flat alpha (dim - 1 - i) (coeff ol_eqn i);
       x ← mget a 0 (dim - 1 - i);
       y ← mget alpha 0 (dim - 1 - i);
       v ← to_float (rsub x y);
       k_c ← mset k_c 0 i v;
       Ok (a, alpha, k_c))
    (mzeros dim dim, mzeros dim dim, mzeros 1 dim))
    as ([[a alpha] k_c] & Hloop & Ha & Halpha & Hk & Hent).
  - lia.
  - repeat split; try apply has_shape_mzeros. intros; lia.
  - intros i [[a alpha] k_c] Hi (Ha & Halpha & Hk & Hent).
    destruct (set_flat_row_0 dim a (dim - 1 - i) (coeff cl_eqn i) Ha)
      as (a' & -> & Ha' & Hx); [lia |]. simpl_bind.
    destruct (set_flat_row_0 dim alpha (dim - 1 - i) (coeff ol_eqn i) Halpha)
      as (alpha' & -> & Halpha' & Hy); [lia |]. simpl_bind.
    rewrite (mget_entry dim dim a') by (done || lia). simpl_bind.
    rewrite (mget_entry dim dim alpha') by (done || lia). simpl_bind.
    rewrite Hx, Hy.
    rewrite to_float_real by (simpl; rewrite (Him i) by lia; ring).
    simpl_bind.
    destruct (mset_entry 1 dim k_c 0 i
                (Re (rsub (coeff cl_eqn i) (coeff ol_eqn i))) Hk)
      as (k_c' & -> & Hk' & Hent'); [lia | lia |]. simpl_bind.
    eexists. split; [done |]. repeat split; try done;
      try apply Ha'; try apply Halpha'; try apply Hk'.
    intros j Hj. rewrite Hent'. simpl.
    destruct (Nat.eqb_spec j i) as [-> | Hne]; [simpl; ring |].
    apply Hent. lia.
  - exists a, alpha, k_c. done.
Qed.
End Coefficients.

(** X21. The loop of [calcK] that fills k_c, at any order dim >= 1 and for
    any open-loop polynomial with real coefficients: entry i of k_c is the
    coefficient of z^i of the quadratic (z - z_sigma)^2 + z_wd^2 minus the
    coefficient of z^i of the open-loop polynomial.  The quadratic is the
    same at every order: from order 3 on its leading 1 is used as the
    coefficient of z^2, and its coefficients from z^3 on are 0. *)
Theorem coefficients_compare_quadratic (z_sigma z_wd : R) (ol_eqn : poly C)
    (dim : nat) :
  (0 < dim)%nat →
  (∀ i, (i < dim)%nat → Im (coeff ol_eqn i) = 0) →
  let z := sym_z in
  let cl_eqn :=
    rmul (rsub (rsub z (sym_const (RtoC z_sigma)))
               (sym_const (rmul Ci (RtoC z_wd))))
         (radd (rsub z (sym_const (RtoC z_sigma)))
               (sym_const (rmul Ci (RtoC z_wd)))) in
  ∃ a alpha k_c,
    results.coefficients cl_eqn ol_eqn dim
      (mzeros dim dim, mzeros dim dim, mzeros 1 dim)
    = Ok (a, alpha, k_c)
    ∧ has_shape 1 dim k_c
    ∧ ∀ i, (i < dim)%nat →
        entry k_c 0 i
        = match i with
          | 0%nat => z_sigma * z_sigma + z_wd * z_wd
          | 1%nat => - (2 * z_sigma)
          | 2%nat => 1
          | _ => 0
          end - Re (coeff ol_eqn i).
Proof.
  intros Hdim Hol z cl_eqn. subst z cl_eqn. rewrite cl_eqn_2.
  destruct (coefficients_differences
              [RtoC (z_sigma * z_sigma + z_wd * z_wd);
               RtoC (- (2 * z_sigma)); RtoC 1] ol_eqn dim Hdim)
    as (a & alpha & k_c & Hc & Hk & Hent).
  { intros i Hi. rewrite Hol by done.
    destruct i as [| [| [| [| i]]]]; reflexivity. }
  exists a, alpha, k_c. split; [done |]. split; [done |].
  intros i Hi. rewrite Hent by done.
  destruct i as [| [| [| [| i]]]]; reflexivity.
Qed.

Lemma coefficients_compare_quadratic_witness :
  ∃ a alpha k_c,
    results.coefficients
      (rmul (rsub (rsub sym_z (sym_const (RtoC (1 / 2))))
                  (sym_const (rmul Ci (RtoC 0))))
            (radd (rsub sym_z (sym_const (RtoC (1 / 2))))
                  (sym_const (rmul Ci (RtoC 0)))))
      [RtoC 0; RtoC 0; RtoC 0; RtoC 1] 3
      (mzeros 3 3, mzeros 3 3, mzeros 1 3)
    = Ok (a, alpha, k_c)
    ∧ has_shape 1 3 k_c
    ∧ ∀ i, (i < 3)%nat →
        entry k_c 0 i
        = match i with
          | 0%nat => 1 / 2 * (1 / 2) + 0 * 0
          | 1%nat => - (2 * (1 / 2))
          | 2%nat => 1
          | _ => 0
          end - Re (coeff [RtoC 0; RtoC 0; RtoC 0; RtoC 1] i).
Proof.
  apply (coefficients_compare_quadratic (1 / 2) 0
           [RtoC 0; RtoC 0; RtoC 0; RtoC 1] 3).
  - lia.
  - intros [| [| [| i]]] Hi; (reflexivity || lia).
Defined.

Section LoopRaises.
Context {St : Type}.

(** A loop stops at the first iteration that raises. *)
Lemma for_range_raises lo hi (body : nat → St → result St) s k t e :
  (lo ≤ k < hi)%nat →
  for_range lo k body s = Ok t → body k t = Raise e →
  for_range lo hi body s = Raise e.
Proof.
  intros Hk Ht He. induction hi as [| hi IH]; [lia |].
  rewrite for_range_last by lia.
  destruct (decide (hi = k)) as [-> | Hne].
  - rewrite Ht. by simpl_bind.
  - by rewrite IH by lia.
Qed.
End LoopRaises.

Section StaleModel.
Import results.

Lemma checkContr_U_short (F g : matrix R) (m dim : nat) :
  has_shape m 1 g → (m < dim)%nat →
  checkContr_U F g dim = Raise IndexError.
Proof.
  intros Hg Hm. unfold checkContr_U.
  destruct (for_range_invariant (λ _ U, has_shape dim dim U) 0 m
              (λ j U, x ← mget g j 0; mset U j 0 x) (mzeros dim dim))
    as (U & HU & Hshape).
  - lia.
  - apply has_shape_mzeros.
  - intros j U Hj HU. rewrite (mget_entry m 1) by (done || lia).
    simpl_bind.
    destruct (mset_entry dim dim U j 0 (entry g j 0) HU)
      as (U' & -> & HU' & _); [lia | lia |].
    by exists U'.
  - rewrite (for_range_raises 0 dim _ _ m U IndexError); [done | lia | done |].
    unfold mget. destruct Hg as [Hlen _].
    by rewrite (lookup_ge_None_2 g m) by lia.
Qed.
End StaleModel.

(** X22. When the stored g has fewer rows than the stored dimension,
    [checkContr] raises IndexError while it copies g into the first column
    of U, and prints nothing. *)
Theorem checkContr_stale_model_raises (L : Lapack) (model : results.Model)
    (poles : R * R) (m dim : nat) (out : list string) :
  has_shape m 1 (results.g model) → (m < dim)%nat →
  results.checkContr model poles dim out = (Raise IndexError, out).
Proof.
  intros Hg Hm. unfold results.checkContr.
  cbv [mbind Py_bind lift]. by rewrite (checkContr_U_short _ _ m).
Qed.

Lemma checkContr_stale_model_raises_witness :
  results.checkContr (H := rounding_lapack)
    (results.mkModel [[1]] [[1]] [[1]] 0) (1 / 2, 0) 2 []
  = (Raise IndexError, []).
Proof.
  apply (checkContr_stale_model_raises rounding_lapack
           (results.mkModel [[1]] [[1]] [[1]] 0) (1 / 2, 0) 1 2 []).
  - by repeat constructor.
  - lia.
Defined.

Lemma entry_mzeros r c i j : entry (mzeros (A := R) r c) i j = 0.
Proof.
  unfold entry, mzeros.
  destruct (decide (i < r)%nat) as [Hi | Hi].
  - rewrite (nth_lookup_Some _ _ _ (replicate c 0)).
    2: { by apply lookup_replicate_2. }
    destruct (decide (j < c)%nat) as [Hj | Hj].
    + apply nth_lookup_Some. by apply lookup_replicate_2.
    + apply nth_overflow. rewrite length_replicate. lia.
  - rewrite (nth_overflow (replicate r _)) by (rewrite length_replicate; lia).
    by destruct j.
Qed.

Section Canonical.
Import results.

(** One cell of the loops of lines 100-105. *)
Lemma canonical_cell n r (alpha U : matrix R) i j :
  has_shape r n alpha → (0 < r)%nat → has_shape n n U →
  (i < n)%nat → (j < n)%nat →
  ∃ U',
    (U_c ← (if (j <? n - i - 1)%nat
            then x ← mget alpha 0 (n - 2 - j - i); mset U i j x
            else Ok U);
     if (j =? n - i - 1)%nat then mset U_c i j 1 else Ok U_c) = Ok U'
    ∧ has_shape n n U'
    ∧ ∀ i' j', entry U' i' j'
               = if (i' =? i)%nat && (j' =? j)%nat
                 then if (i + j + 1 <? n)%nat
                      then entry alpha 0 (n - 2 - j - i)
                      else if (i + j + 1 =? n)%nat then 1 else entry U i j
                 else entry U i' j'.
Proof.
  intros Halpha Hr HU Hi Hj.
  destruct (Nat.ltb_spec j (n - i - 1)) as [Hlt | Hge].
  - rewrite (mget_entry r n) by (done || lia). simpl_bind.
    destruct (mset_entry n n U i j (entry alpha 0 (n - 2 - j - i)) HU)
      as (U' & -> & HU' & Hent); [done | done |]. simpl_bind.
    destruct (Nat.eqb_spec j (n - i - 1)); [lia |].
    exists U'. split; [done |]. split; [done |].
    intros i' j'. rewrite Hent.
    by destruct (Nat.ltb_spec (i + j + 1) n); [| lia].
  - simpl_bind. destruct (Nat.eqb_spec j (n - i - 1)) as [Heq | Hne].
    + destruct (mset_entry n n U i j 1 HU) as (U' & -> & HU' & Hent);
        [done | done |].
      exists U'. split; [done |]. split; [done |].
      intros i' j'. rewrite Hent.
      destruct (Nat.ltb_spec (i + j + 1) n); [lia |].
      by destruct (Nat.eqb_spec (i + j + 1) n); [| lia].
    + exists U. split; [done |]. split; [done |].
      intros i' j'.
      destruct (Nat.ltb_spec (i + j + 1) n); [lia |].
      destruct (Nat.eqb_spec (i + j + 1) n); [lia |].
      destruct (Nat.eqb_spec i' i) as [-> | ?]; [| done].
      by destruct (Nat.eqb_spec j' j) as [-> | ?].
Qed.

(** The loops of lines 100-105 from any array: the cells on and above the
    anti-diagonal are written, the others are left. *)
Lemma canonical_cells n r (alpha U : matrix R) :
  has_shape r n alpha → (0 < r)%nat → has_shape n n U →
  ∃ U', canonical alpha n U = Ok U' ∧ has_shape n n U'
    ∧ ∀ i j, (i < n)%nat → (j < n)%nat →
        entry U' i j
        = if (i + j + 1 <? n)%nat then entry alpha 0 (n - 2 - j - i)
          else if (i + j + 1 =? n)%nat then 1 else entry U i j.
Proof.
  intros Halpha Hr HU. unfold canonical.
  set (target := λ i j : nat,
         if (i + j + 1 <? n)%nat then entry alpha 0 (n - 2 - j - i)
         else if (i + j + 1 =? n)%nat then 1 else entry U i j).
  destruct (for_range_invariant
    (λ k U', has_shape n n U'
       ∧ ∀ i j, (i < n)%nat → (j < n)%nat →
           entry U' i j = if (i <? k)%nat then target i j else entry U i j)
    0 n
    (λ i U_c,
       for_range 0 n (λ j U_c,
         U_c ← (if (j <? n - i - 1)%nat
                then x ← mget alpha 0 (n - 2 - j - i); mset U_c i j x
                else Ok U_c);
         if (j =? n - i - 1)%nat then mset U_c i j 1 else Ok U_c) U_c)
    U) as (U' & HU' & Hshape & Hent).
  - lia.
  - split; [done |]. intros i j _ _. by destruct (Nat.ltb_spec i 0); [lia |].
  - intros i Ui Hi (HUi & Hent).
    destruct (for_range_invariant
      (λ k U', has_shape n n U'
         ∧ ∀ i' j, (i' < n)%nat → (j < n)%nat →
             entry U' i' j
             = if (i' <? i)%nat || ((i' =? i)%nat && (j <? k)%nat)
               then target i' j else entry U i' j)
      0 n
      (λ j U_c,
         U_c ← (if (j <? n - i - 1)%nat
                then x ← mget alpha 0 (n - 2 - j - i); mset U_c i j x
                else Ok U_c);
         if (j =? n - i - 1)%nat then mset U_c i j 1 else Ok U_c)
      Ui) as (U' & HU' & Hshape & Hent').
    + lia.
    + split; [done |]. intros i' j Hi' Hj. rewrite Hent by done.
      by rewrite andb_false_r, orb_false_r.
    + intros j Uj Hj (HUj & Hentj).
      destruct (canonical_cell n r alpha Uj i j)
        as (U' & -> & HU' & Hcell); [done .. | lia | lia |].
      exists U'. split; [done |]. split; [done |].
      intros i' j' Hi' Hj'. rewrite Hcell.
      destruct (Nat.eqb_spec i' i) as [-> | Hne]; simpl.
      * destruct (Nat.ltb_spec i i); [lia |]. simpl.
        destruct (Nat.eqb_spec j' j) as [-> | Hnej].
        -- destruct (Nat.ltb_spec j (S j)); [| lia].
           unfold target.
           destruct (Nat.ltb_spec (i + j + 1) n); [done |].
           destruct (Nat.eqb_spec (i + j + 1) n); [done |].
           rewrite Hentj by lia.
           destruct (Nat.ltb_spec i i); [lia |].
           rewrite Nat.eqb_refl.
           by destruct (Nat.ltb_spec j j); [lia |].
        -- rewrite Hentj by done.
           destruct (Nat.ltb_spec i i); [lia |].
           rewrite Nat.eqb_refl. simpl.
           destruct (Nat.ltb_spec j' j), (Nat.ltb_spec j' (S j));
             done || lia.
      * rewrite Hentj by done.
        destruct (Nat.eqb_spec i' i); [done |]. done.
    + exists U'. split; [done |]. split; [done |].
      intros i' j Hi' Hj. rewrite Hent' by done.
      destruct (Nat.eqb_spec i' i) as [-> | Hne].
      * destruct (Nat.ltb_spec i i); [lia |].
        destruct (Nat.ltb_spec i (S i)); [| lia].
        by destruct (Nat.ltb_spec j n); [| lia].
      * rewrite andb_false_l, orb_false_r.
        destruct (Nat.ltb_spec i' i), (Nat.ltb_spec i' (S i)); done || lia.
  - exists U'. split; [done |]. split; [done |].
    intros i j Hi Hj. rewrite Hent by done.
    by destruct (Nat.ltb_spec i n); [| lia].
Qed.
End Canonical.

(** X23. The loops of [calcK] that fill U_c, at any order n, from an
    array alpha of n columns: cell (i, j) above the anti-diagonal
    (i + j + 1 < n) is alpha[0, n - 2 - j - i], the cells of the
    anti-diagonal are 1 and the cells below it stay 0. *)
Theorem canonical_anti_triangular (n r : nat) (alpha : matrix R) :
  has_shape r n alpha → (0 < r)%nat →
  ∃ U_c, results.canonical alpha n (mzeros n n) = Ok U_c
    ∧ has_shape n n U_c
    ∧ ∀ i j, (i < n)%nat → (j < n)%nat →
        entry U_c i j
        = if (i + j + 1 <? n)%nat then entry alpha 0 (n - 2 - j - i)
          else if (i + j + 1 =? n)%nat then 1 else 0.
Proof.
  intros Halpha Hr.
  destruct (canonical_cells n r alpha (mzeros n n) Halpha Hr)
    as (U_c & HU & Hshape & Hent); [apply has_shape_mzeros |].
  exists U_c. split; [done |]. split; [done |].
  intros i j Hi Hj. rewrite Hent by done. by rewrite entry_mzeros.
Qed.

Lemma canonical_anti_triangular_witness :
  ∃ U_c, results.canonical [[5; 6; 7]; [0; 0; 0]; [0; 0; 0]] 3 (mzeros 3 3)
         = Ok U_c
    ∧ has_shape 3 3 U_c
    ∧ ∀ i j, (i < 3)%nat → (j < 3)%nat →
        entry U_c i j
        = if (i + j + 1 <? 3)%nat
          then entry [[5; 6; 7]; [0; 0; 0]; [0; 0; 0]] 0 (3 - 2 - j - i)
          else if (i + j + 1 =? 3)%nat then 1 else 0.
Proof.
  apply (canonical_anti_triangular 3 3).
  - by repeat constructor.
  - lia.
Defined.
